(** * MacQ C core engine: shallow embedding of [macq.c] and its properties

    The embedding follows [src/c_engine/src/macq.c] function by function.

    - [double] is idealised as a real number ([R]); rounding, NaN and the
      infinities are outside that model, and a decimal literal such as
      [1e-10] is the exact rational.  [double complex] is a record of
      two reals with the C99 component formulas written out; the
      literal [1.0 + 0.0 * I] is [Cplx 1 0].
    - Module [Double] embeds again, in IEEE 754 binary64 arithmetic, the
      functions needed by the two statements that are about rounding
      and about division by zero.
    - [int] is [Z].  [size_t] is [Z] with the 64-bit wrap-around written
      out in [size_t_wrap] at every shift, product and sum of the source.
    - A [QuantumState *] is an [option QuantumState] ([None] is [NULL]);
      the amplitude buffer is a [list cplx] read with [!!!] and written
      with [<[ _ := _ ]>].  A mutating function returns its C result
      together with the state the handle points to afterwards.
    - [rand()] is an input of [qstate_measure]. *)

From Stdlib Require Import ZArith Reals Lra Lia String Ascii.
From Stdlib Require PrimFloat Uint63.
From stdpp Require Import base list.

Local Open Scope Z_scope.

(* ====================================================================== *)
(** ** Complex numbers ([typedef double complex cplx]) *)
(* ====================================================================== *)

Record cplx : Type := Cplx { creal : R; cimag : R }.

Declare Scope cplx_scope.
Delimit Scope cplx_scope with C.
Bind Scope cplx_scope with cplx.

(** A real converted to complex, as in [return 0.0;] from a [cplx]
    function. *)
Definition RtoC (x : R) : cplx := Cplx x 0.

(** The macro [I]. *)
Definition Ci : cplx := Cplx 0 1.

Definition Cadd (a b : cplx) : cplx :=
  Cplx (creal a + creal b) (cimag a + cimag b).
Definition Csub (a b : cplx) : cplx :=
  Cplx (creal a - creal b) (cimag a - cimag b).
Definition Copp (a : cplx) : cplx := Cplx (- creal a) (- cimag a).
Definition Cmul (a b : cplx) : cplx :=
  Cplx (creal a * creal b - cimag a * cimag b)
       (creal a * cimag b + cimag a * creal b).

(** Mixed real/complex operators of C99 (Annex G): the real operand acts
    on both components. *)
Definition Cscale (r : R) (a : cplx) : cplx := Cplx (r * creal a) (r * cimag a).
Definition Cmul_r (a : cplx) (r : R) : cplx := Cplx (creal a * r) (cimag a * r).
Definition Cdiv_r (a : cplx) (r : R) : cplx := Cplx (creal a / r) (cimag a / r).

(** [cexp] of <complex.h>. *)
Definition cexp (z : cplx) : cplx :=
  Cplx (exp (creal z) * cos (cimag z)) (exp (creal z) * sin (cimag z)).

(** The expression [creal(a) * creal(a) + cimag(a) * cimag(a)] that the
    source repeats for a squared magnitude. *)
Definition sqmag (a : cplx) : R := creal a * creal a + cimag a * cimag a.

Notation "a + b" := (Cadd a b) : cplx_scope.
Notation "a - b" := (Csub a b) : cplx_scope.
Notation "a * b" := (Cmul a b) : cplx_scope.
Notation "- a" := (Copp a) : cplx_scope.

#[global] Instance cplx_inhabited : Inhabited cplx := populate (RtoC 0).

(* ====================================================================== *)
(** ** Machine integers and loops *)
(* ====================================================================== *)

(** Reduction of a [size_t] result modulo [2^64]. *)
Definition size_t_wrap (x : Z) : Z := x mod 2 ^ 64.

(** [a << k] on [size_t] (also [1ULL << k]). *)
Definition shl (a k : Z) : Z := size_t_wrap (Z.shiftl a k).
(** [a >> k] on [size_t]. *)
Definition shr (a k : Z) : Z := Z.shiftr a k.
(** [a * b] and [a + b] on [size_t]. *)
Definition size_mul (a b : Z) : Z := size_t_wrap (a * b).
Definition size_add (a b : Z) : Z := size_t_wrap (a + b).

(** [(i & mask) != 0], the truth value of [i & mask] in a condition. *)
Definition bit_set (i mask : Z) : bool := negb (Z.land i mask =? 0).

(** [for (size_t i = start; i < start + count; i++) acc = body i acc]. *)
Fixpoint for_range {A : Type} (start : Z) (count : nat)
    (body : Z -> A -> A) (acc : A) : A :=
  match count with
  | O => acc
  | S count' => for_range (start + 1) count' body (body start acc)
  end.

(** [for (size_t i = 0; i < n; i++) acc = body i acc]. *)
Definition for_upto {A : Type} (n : Z) (body : Z -> A -> A) (acc : A) : A :=
  for_range 0 (Z.to_nat n) body acc.

(* ====================================================================== *)
(** ** Data model ([macq.h]) *)
(* ====================================================================== *)

Inductive MacQError : Type :=
  | MACQ_SUCCESS
  | MACQ_ERROR_INVALID_QUBITS
  | MACQ_ERROR_OUT_OF_MEMORY
  | MACQ_ERROR_INVALID_GATE
  | MACQ_ERROR_INVALID_INDEX
  | MACQ_ERROR_NULL_POINTER.

(** The integer value of each enumerator. *)
Definition MacQError_code (e : MacQError) : Z :=
  match e with
  | MACQ_SUCCESS => 0
  | MACQ_ERROR_INVALID_QUBITS => -1
  | MACQ_ERROR_OUT_OF_MEMORY => -2
  | MACQ_ERROR_INVALID_GATE => -3
  | MACQ_ERROR_INVALID_INDEX => -4
  | MACQ_ERROR_NULL_POINTER => -5
  end.

(** [QuantumState].  [_aligned_buffer] is the same memory as
    [state_vector] and is not a field of its own here. *)
Record QuantumState : Type := mkQuantumState {
  num_qubits : Z;
  vector_size : Z;
  state_vector : list cplx;
  use_accelerate : bool;
  norm : R
}.

(** Assignment to the amplitude buffer, all other fields kept. *)
Definition set_state_vector (s : QuantumState) (v : list cplx) : QuantumState :=
  mkQuantumState (num_qubits s) (vector_size s) v (use_accelerate s) (norm s).

(** Assignment [qs->norm = x]. *)
Definition set_norm (s : QuantumState) (x : R) : QuantumState :=
  mkQuantumState (num_qubits s) (vector_size s) (state_vector s)
                 (use_accelerate s) x.

(** [v[i]] and [v[i] = x] for a [size_t] index. *)
Definition vget (v : list cplx) (i : Z) : cplx := v !!! Z.to_nat i.
Definition vset (v : list cplx) (i : Z) (x : cplx) : list cplx :=
  <[ Z.to_nat i := x ]> v.

Definition MAX_QUBITS : Z := 30.

(** The states [qstate_create] produces and every kernel keeps: the
    qubit count is in range and the buffer holds [2^num_qubits]
    amplitudes. *)
Definition wf_state (s : QuantumState) : Prop :=
  1 <= num_qubits s <= MAX_QUBITS /\
  vector_size s = 2 ^ num_qubits s /\
  Z.of_nat (length (state_vector s)) = vector_size s.

(* ====================================================================== *)
(** ** Helper functions *)
(* ====================================================================== *)

Definition is_valid_qubit_index (qs : option QuantumState) (qubit : Z) : bool :=
  match qs with
  | None => false
  | Some s => (0 <=? qubit) && (qubit <? num_qubits s)
  end.

(* ====================================================================== *)
(** ** Core quantum state functions *)
(* ====================================================================== *)

(** [qstate_create]; [alloc_ok] tells whether both allocations succeed.
    [alloc_ok = false] stands for a failure the code detects: [malloc]
    of the struct returning NULL, or [aligned_alloc] returning NULL in
    the branch without [__APPLE__].  Under [__APPLE__] the result of
    [posix_memalign] is not checked and the pointer tested afterwards
    was never initialised, so a failed buffer allocation there is not
    detected by the source; that case is outside the model. *)
Definition qstate_create (alloc_ok : bool) (n : Z) : option QuantumState :=
  if (n <? 1) || (n >? MAX_QUBITS) then None
  else if negb alloc_ok then None
  else
    let vs := shl 1 n in
    let zeroed := replicate (Z.to_nat vs) (RtoC 0) in
    Some (mkQuantumState n vs (vset zeroed 0 (Cplx 1 0)) true 1%R).

Definition qstate_clone (alloc_ok : bool) (qs : option QuantumState)
    : option QuantumState :=
  match qs with
  | None => None
  | Some s =>
      match qstate_create alloc_ok (num_qubits s) with
      | None => None
      | Some new_qs =>
          Some (set_norm (set_state_vector new_qs (state_vector s)) (norm s))
      end
  end.

(** The loop of [qstate_init_basis] over the characters: [Some index]
    when it runs to the end, [None] when it returns early on a character
    that is neither '1' nor '0'. *)
Fixpoint init_basis_index (bits : list ascii) (i : Z) (index : Z) : option Z :=
  match bits with
  | [] => Some index
  | c :: rest =>
      if Ascii.eqb c "1"%char then
        init_basis_index rest (i + 1) (Z.lor index (shl 1 i))
      else if negb (Ascii.eqb c "0"%char) then None
      else init_basis_index rest (i + 1) index
  end.

(** [INT_MAX] of <limits.h> for a 32-bit [int]. *)
Definition INT_MAX : Z := 2147483647.

(** The cast [(int)x] of a [size_t] value: reduction modulo [2^32] into
    the signed range, as GCC and Clang define the conversion.  It is the
    identity up to [INT_MAX]. *)
Definition int_of_size_t (x : Z) : Z := (x + 2 ^ 31) mod 2 ^ 32 - 2 ^ 31.

(** [qstate_init_basis].  A C string is given by its characters before
    the terminating NUL; [None] is a null [bitstring].  [len] is
    [(int)strlen(bitstring)], and the index loop reads the characters
    [bitstring[0 .. len-1]]. *)
Definition qstate_init_basis (qs : option QuantumState)
    (bitstring : option string) : MacQError * option QuantumState :=
  match qs, bitstring with
  | Some s, Some str =>
      let len := int_of_size_t (Z.of_nat (String.length str)) in
      if negb (len =? num_qubits s) then (MACQ_ERROR_INVALID_INDEX, qs)
      else
        (* memset(qs->state_vector, 0, ...) *)
        let cleared :=
          set_state_vector s (replicate (Z.to_nat (vector_size s)) (RtoC 0)) in
        match init_basis_index
                (take (Z.to_nat len) (list_ascii_of_string str)) 0 0 with
        | None => (MACQ_ERROR_INVALID_INDEX, Some cleared)
        | Some index =>
            (MACQ_SUCCESS,
             Some (set_norm
                     (set_state_vector cleared
                        (vset (state_vector cleared) index (Cplx 1 0)))
                     1%R))
        end
  | _, _ => (MACQ_ERROR_NULL_POINTER, qs)
  end.

(** [qstate_norm]; the null case returns [-1.0]. *)
Definition norm_squared (s : QuantumState) : R :=
  for_upto (vector_size s)
    (fun i acc => (acc + sqmag (vget (state_vector s) i))%R) 0%R.

Definition qstate_norm (qs : option QuantumState) : R :=
  match qs with
  | None => (-1)%R
  | Some s => sqrt (norm_squared s)
  end.

(** [qstate_normalize]. *)
Definition qstate_normalize (qs : option QuantumState)
    : MacQError * option QuantumState :=
  match qs with
  | None => (MACQ_ERROR_NULL_POINTER, qs)
  | Some s =>
      let nrm := qstate_norm qs in
      if Rlt_dec nrm (1 / 10 ^ 10) then (MACQ_ERROR_INVALID_GATE, qs)
      else
        let v := for_upto (vector_size s)
                   (fun i v => vset v i (Cdiv_r (vget v i) nrm))
                   (state_vector s) in
        (MACQ_SUCCESS, Some (set_norm (set_state_vector s v) 1%R))
  end.

(* ====================================================================== *)
(** ** Single-qubit gates and rotations *)
(* ====================================================================== *)

(** The two nested loops every single-qubit kernel is written around:
[[
  size_t block_size = 1ULL << target;
  size_t num_blocks = qs->vector_size >> (target + 1);
  for (size_t block = 0; block < num_blocks; block++) {
    size_t base_idx = block * (block_size << 1);
    for (size_t i = 0; i < block_size; i++) { body }
  }
]]
    [body] receives [base_idx], [i] and [block_size] and computes its
    own indices, as each kernel does. *)
Definition block_loop (s : QuantumState) (target : Z)
    (body : Z -> Z -> Z -> list cplx -> list cplx) : list cplx :=
  let block_size := shl 1 target in
  let num_blocks := shr (vector_size s) (target + 1) in
  for_upto num_blocks
    (fun block v =>
       let base_idx := size_mul block (shl block_size 1) in
       for_upto block_size (fun i v => body base_idx i block_size v) v)
    (state_vector s).

(** The index check and return codes shared by the single-qubit kernels. *)
Definition single_qubit_kernel (qs : option QuantumState) (target : Z)
    (body : Z -> Z -> Z -> list cplx -> list cplx)
    : MacQError * option QuantumState :=
  if negb (is_valid_qubit_index qs target) then (MACQ_ERROR_INVALID_INDEX, qs)
  else
    match qs with
    | None => (MACQ_ERROR_INVALID_INDEX, qs)
    | Some s => (MACQ_SUCCESS, Some (set_state_vector s (block_loop s target body)))
    end.

Definition x_body (base_idx i block_size : Z) (v : list cplx) : list cplx :=
  let idx0 := size_add base_idx i in
  let idx1 := size_add idx0 block_size in
  let temp := vget v idx0 in
  let v := vset v idx0 (vget v idx1) in
  vset v idx1 temp.

Definition qstate_apply_x (qs : option QuantumState) (target : Z) :=
  single_qubit_kernel qs target x_body.

Definition y_body (base_idx i block_size : Z) (v : list cplx) : list cplx :=
  let idx0 := size_add base_idx i in
  let idx1 := size_add idx0 block_size in
  let a0 := vget v idx0 in
  let a1 := vget v idx1 in
  let v := vset v idx0 (- Ci * a1)%C in
  vset v idx1 (Ci * a0)%C.

Definition qstate_apply_y (qs : option QuantumState) (target : Z) :=
  single_qubit_kernel qs target y_body.

Definition z_body (base_idx i block_size : Z) (v : list cplx) : list cplx :=
  let idx1 := size_add (size_add base_idx i) block_size in
  vset v idx1 (- vget v idx1)%C.

Definition qstate_apply_z (qs : option QuantumState) (target : Z) :=
  single_qubit_kernel qs target z_body.

Definition h_body (inv_sqrt2 : R) (base_idx i block_size : Z) (v : list cplx)
    : list cplx :=
  let idx0 := size_add base_idx i in
  let idx1 := size_add idx0 block_size in
  let a0 := vget v idx0 in
  let a1 := vget v idx1 in
  let v := vset v idx0 (Cscale inv_sqrt2 (a0 + a1)%C) in
  vset v idx1 (Cscale inv_sqrt2 (a0 - a1)%C).

Definition qstate_apply_h (qs : option QuantumState) (target : Z) :=
  let inv_sqrt2 := (1 / sqrt 2)%R in
  single_qubit_kernel qs target (h_body inv_sqrt2).

Definition s_body (base_idx i block_size : Z) (v : list cplx) : list cplx :=
  let idx1 := size_add (size_add base_idx i) block_size in
  vset v idx1 (vget v idx1 * Ci)%C.

Definition qstate_apply_s (qs : option QuantumState) (target : Z) :=
  single_qubit_kernel qs target s_body.

Definition t_body (t_phase : cplx) (base_idx i block_size : Z) (v : list cplx)
    : list cplx :=
  let idx1 := size_add (size_add base_idx i) block_size in
  vset v idx1 (vget v idx1 * t_phase)%C.

(** [M_PI] is the real number pi here. *)
Definition qstate_apply_t (qs : option QuantumState) (target : Z) :=
  let t_phase := cexp (Cdiv_r (Cmul_r Ci PI) 4) in
  single_qubit_kernel qs target (t_body t_phase).

Definition rx_body (cos_half sin_half : R) (neg_i : cplx)
    (base_idx i block_size : Z) (v : list cplx) : list cplx :=
  let idx0 := size_add base_idx i in
  let idx1 := size_add idx0 block_size in
  let a0 := vget v idx0 in
  let a1 := vget v idx1 in
  let v := vset v idx0 (Cscale cos_half a0 + Cmul_r neg_i sin_half * a1)%C in
  vset v idx1 (Cmul_r neg_i sin_half * a0 + Cscale cos_half a1)%C.

Definition qstate_apply_rx (qs : option QuantumState) (target : Z) (theta : R) :=
  let cos_half := cos (theta / 2) in
  let sin_half := sin (theta / 2) in
  let neg_i := (- Ci)%C in
  single_qubit_kernel qs target (rx_body cos_half sin_half neg_i).

Definition ry_body (cos_half sin_half : R)
    (base_idx i block_size : Z) (v : list cplx) : list cplx :=
  let idx0 := size_add base_idx i in
  let idx1 := size_add idx0 block_size in
  let a0 := vget v idx0 in
  let a1 := vget v idx1 in
  let v := vset v idx0 (Cscale cos_half a0 - Cscale sin_half a1)%C in
  vset v idx1 (Cscale sin_half a0 + Cscale cos_half a1)%C.

Definition qstate_apply_ry (qs : option QuantumState) (target : Z) (theta : R) :=
  let cos_half := cos (theta / 2) in
  let sin_half := sin (theta / 2) in
  single_qubit_kernel qs target (ry_body cos_half sin_half).

Definition rz_body (phase_neg phase_pos : cplx)
    (base_idx i block_size : Z) (v : list cplx) : list cplx :=
  let idx0 := size_add base_idx i in
  let idx1 := size_add idx0 block_size in
  let v := vset v idx0 (vget v idx0 * phase_neg)%C in
  vset v idx1 (vget v idx1 * phase_pos)%C.

Definition qstate_apply_rz (qs : option QuantumState) (target : Z) (theta : R) :=
  let phase_neg := cexp (Cdiv_r (Cmul_r (- Ci)%C theta) 2) in
  let phase_pos := cexp (Cdiv_r (Cmul_r Ci theta) 2) in
  single_qubit_kernel qs target (rz_body phase_neg phase_pos).

(* ====================================================================== *)
(** ** Two- and three-qubit gates *)
(* ====================================================================== *)

(** The exchange of [v[i]] and [v[pair_idx]] through [temp]. *)
Definition swap_amplitudes (v : list cplx) (i pair_idx : Z) : list cplx :=
  let temp := vget v i in
  let v := vset v i (vget v pair_idx) in
  vset v pair_idx temp.

Definition qstate_apply_cnot (qs : option QuantumState) (control target : Z)
    : MacQError * option QuantumState :=
  if negb (is_valid_qubit_index qs control) || negb (is_valid_qubit_index qs target)
  then (MACQ_ERROR_INVALID_INDEX, qs)
  else if control =? target then (MACQ_ERROR_INVALID_GATE, qs)
  else
    match qs with
    | None => (MACQ_ERROR_INVALID_INDEX, qs)
    | Some s =>
        let mask_control := shl 1 control in
        let mask_target := shl 1 target in
        let v := for_upto (vector_size s)
                   (fun i v =>
                      if bit_set i mask_control then
                        let pair_idx := Z.lxor i mask_target in
                        if i <? pair_idx then swap_amplitudes v i pair_idx else v
                      else v)
                   (state_vector s) in
        (MACQ_SUCCESS, Some (set_state_vector s v))
    end.

Definition qstate_apply_cz (qs : option QuantumState) (control target : Z)
    : MacQError * option QuantumState :=
  if negb (is_valid_qubit_index qs control) || negb (is_valid_qubit_index qs target)
  then (MACQ_ERROR_INVALID_INDEX, qs)
  else
    match qs with
    | None => (MACQ_ERROR_INVALID_INDEX, qs)
    | Some s =>
        let mask_control := shl 1 control in
        let mask_target := shl 1 target in
        let v := for_upto (vector_size s)
                   (fun i v =>
                      if bit_set i mask_control && bit_set i mask_target
                      then vset v i (- vget v i)%C
                      else v)
                   (state_vector s) in
        (MACQ_SUCCESS, Some (set_state_vector s v))
    end.

Definition qstate_apply_swap (qs : option QuantumState) (qubit1 qubit2 : Z)
    : MacQError * option QuantumState :=
  if negb (is_valid_qubit_index qs qubit1) || negb (is_valid_qubit_index qs qubit2)
  then (MACQ_ERROR_INVALID_INDEX, qs)
  else if qubit1 =? qubit2 then (MACQ_SUCCESS, qs)
  else
    match qs with
    | None => (MACQ_ERROR_INVALID_INDEX, qs)
    | Some s =>
        let mask1 := shl 1 qubit1 in
        let mask2 := shl 1 qubit2 in
        let v := for_upto (vector_size s)
                   (fun i v =>
                      let bit1 := bit_set i mask1 in
                      let bit2 := bit_set i mask2 in
                      if negb (Bool.eqb bit1 bit2) then
                        let pair_idx := Z.lxor (Z.lxor i mask1) mask2 in
                        if i <? pair_idx then swap_amplitudes v i pair_idx else v
                      else v)
                   (state_vector s) in
        (MACQ_SUCCESS, Some (set_state_vector s v))
    end.

Definition qstate_apply_toffoli (qs : option QuantumState)
    (control1 control2 target : Z) : MacQError * option QuantumState :=
  if negb (is_valid_qubit_index qs control1)
     || negb (is_valid_qubit_index qs control2)
     || negb (is_valid_qubit_index qs target)
  then (MACQ_ERROR_INVALID_INDEX, qs)
  else
    match qs with
    | None => (MACQ_ERROR_INVALID_INDEX, qs)
    | Some s =>
        let mask_c1 := shl 1 control1 in
        let mask_c2 := shl 1 control2 in
        let mask_target := shl 1 target in
        let v := for_upto (vector_size s)
                   (fun i v =>
                      if bit_set i mask_c1 && bit_set i mask_c2 then
                        let pair_idx := Z.lxor i mask_target in
                        if i <? pair_idx then swap_amplitudes v i pair_idx else v
                      else v)
                   (state_vector s) in
        (MACQ_SUCCESS, Some (set_state_vector s v))
    end.

(* ====================================================================== *)
(** ** Measurement *)
(* ====================================================================== *)

(** The first loop of [qstate_measure]: the pair [(prob_0, prob_1)]. *)
Definition measure_probs (s : QuantumState) (mask : Z) : R * R :=
  for_upto (vector_size s)
    (fun i (p : R * R) =>
       let prob := sqmag (vget (state_vector s) i) in
       if bit_set i mask then (fst p, (snd p + prob)%R)
       else ((fst p + prob)%R, snd p))
    (0%R, 0%R).

(** [(rand_val < prob_0 / (prob_0 + prob_1)) ? 0 : 1]. *)
Definition measure_outcome (prob_0 prob_1 rand_val : R) : Z :=
  if Rlt_dec rand_val (prob_0 / (prob_0 + prob_1)) then 0 else 1.

(** [(result == 0) ? sqrt(prob_0) : sqrt(prob_1)]. *)
Definition measure_norm_factor (prob_0 prob_1 : R) (result : Z) : R :=
  if result =? 0 then sqrt prob_0 else sqrt prob_1.

(** The condition of the collapse loop under which [v[i]] is divided by
    [norm_factor]; otherwise it is set to zero. *)
Definition collapse_keeps (result : Z) (i mask : Z) : bool :=
  let bit := bit_set i mask in
  ((result =? 1) && bit) || ((result =? 0) && negb bit).

Definition measure_collapse (s : QuantumState) (mask result : Z)
    (norm_factor : R) : list cplx :=
  for_upto (vector_size s)
    (fun i v =>
       if collapse_keeps result i mask
       then vset v i (Cdiv_r (vget v i) norm_factor)
       else vset v i (RtoC 0))
    (state_vector s).

Section Measurement.

(** [RAND_MAX] of <stdlib.h>, and the value [rand()] returns in this
    call. *)
Variable RAND_MAX : Z.
Variable rand : Z.

Definition measure_rand_val : R := (IZR rand / IZR RAND_MAX)%R.

Definition qstate_measure (qs : option QuantumState) (qubit : Z)
    : Z * option QuantumState :=
  if negb (is_valid_qubit_index qs qubit) then (-1, qs)
  else
    match qs with
    | None => (-1, qs)
    | Some s =>
        let mask := shl 1 qubit in
        let p := measure_probs s mask in
        let prob_0 := fst p in
        let prob_1 := snd p in
        let rand_val := measure_rand_val in
        let result := measure_outcome prob_0 prob_1 rand_val in
        let norm_factor := measure_norm_factor prob_0 prob_1 result in
        (result,
         Some (set_state_vector s (measure_collapse s mask result norm_factor)))
    end.

End Measurement.

Definition qstate_probability (qs : option QuantumState) (qubit : Z) : R :=
  if negb (is_valid_qubit_index qs qubit) then (-1)%R
  else
    match qs with
    | None => (-1)%R
    | Some s =>
        let mask := shl 1 qubit in
        for_upto (vector_size s)
          (fun i prob_1 =>
             if bit_set i mask
             then (prob_1 + sqmag (vget (state_vector s) i))%R
             else prob_1)
          0%R
    end.

Definition qstate_basis_probability (qs : option QuantumState) (basis_index : Z)
    : R :=
  match qs with
  | None => (-1)%R
  | Some s =>
      if basis_index >=? vector_size s then (-1)%R
      else sqmag (vget (state_vector s) basis_index)
  end.

(* ====================================================================== *)
(** ** Utility functions *)
(* ====================================================================== *)

Definition qstate_get_amplitude (qs : option QuantumState) (basis_index : Z)
    : cplx :=
  match qs with
  | None => RtoC 0
  | Some s =>
      if basis_index >=? vector_size s then RtoC 0
      else vget (state_vector s) basis_index
  end.

Definition qstate_set_amplitude (qs : option QuantumState) (basis_index : Z)
    (amplitude : cplx) : MacQError * option QuantumState :=
  match qs with
  | None => (MACQ_ERROR_INVALID_INDEX, qs)
  | Some s =>
      if basis_index >=? vector_size s then (MACQ_ERROR_INVALID_INDEX, qs)
      else
        (MACQ_SUCCESS,
         Some (set_state_vector s (vset (state_vector s) basis_index amplitude)))
  end.

(* ====================================================================== *)
(** ** The engine in IEEE 754 binary64 arithmetic *)
(* ====================================================================== *)

(** The functions of [macq.c] that the statements about rounding and
    about division by zero need, with [double] as the IEEE 754 binary64
    format ([PrimFloat.float]) instead of a real number: every
    operation is rounded to nearest, [0.0 / 0.0] is NaN, and [<] is
    false on a NaN.  The integers, the loops, the index arithmetic and
    the error codes are those of the model above; what changes is the
    type of the amplitudes and the arithmetic on them.  Each product and
    sum is rounded on its own; in the runs evaluated below every sum of
    two products has a product with a zero factor, so a fused
    multiply-add would give the same values. *)
Module Double.

Import PrimFloat.

(** [typedef double complex cplx]. *)
Record cplx : Type := Cplx { creal : float; cimag : float }.

Definition RtoC (x : float) : cplx := Cplx x 0%float.

Definition Cadd (a b : cplx) : cplx :=
  Cplx (creal a + creal b)%float (cimag a + cimag b)%float.
Definition Csub (a b : cplx) : cplx :=
  Cplx (creal a - creal b)%float (cimag a - cimag b)%float.

(** Mixed real/complex operators of C99 (Annex G): the real operand acts
    on both components. *)
Definition Cscale (r : float) (a : cplx) : cplx :=
  Cplx (r * creal a)%float (r * cimag a)%float.
Definition Cdiv_r (a : cplx) (r : float) : cplx :=
  Cplx (creal a / r)%float (cimag a / r)%float.

(** [creal(a) * creal(a) + cimag(a) * cimag(a)]. *)
Definition sqmag (a : cplx) : float :=
  (creal a * creal a + cimag a * cimag a)%float.

#[global] Instance cplx_inhabited : Inhabited cplx := populate (RtoC 0%float).

(** [(double)n] for an [int] with [0 <= n]; the conversion is exact
    below [2^53]. *)
Definition double_of_int (n : Z) : float := of_uint63 (Uint63.of_Z n).

Record QuantumState : Type := mkQuantumState {
  num_qubits : Z;
  vector_size : Z;
  state_vector : list cplx;
  use_accelerate : bool;
  norm : float
}.

Definition set_state_vector (s : QuantumState) (v : list cplx) : QuantumState :=
  mkQuantumState (num_qubits s) (vector_size s) v (use_accelerate s) (norm s).

Definition vget (v : list cplx) (i : Z) : cplx := v !!! Z.to_nat i.
Definition vset (v : list cplx) (i : Z) (x : cplx) : list cplx :=
  <[ Z.to_nat i := x ]> v.

Definition is_valid_qubit_index (qs : option QuantumState) (qubit : Z) : bool :=
  match qs with
  | None => false
  | Some s => (0 <=? qubit) && (qubit <? num_qubits s)
  end.

(** [qstate_create], with [alloc_ok] as in the model above. *)
Definition qstate_create (alloc_ok : bool) (n : Z) : option QuantumState :=
  if (n <? 1) || (n >? MAX_QUBITS) then None
  else if negb alloc_ok then None
  else
    let vs := shl 1 n in
    let zeroed := replicate (Z.to_nat vs) (RtoC 0%float) in
    Some (mkQuantumState n vs (vset zeroed 0 (Cplx 1%float 0%float)) true 1%float).

(** [qstate_norm]. *)
Definition norm_squared (s : QuantumState) : float :=
  for_upto (vector_size s)
    (fun i acc => (acc + sqmag (vget (state_vector s) i))%float) 0%float.

Definition qstate_norm (qs : option QuantumState) : float :=
  match qs with
  | None => (-1)%float
  | Some s => sqrt (norm_squared s)
  end.

(** The loops and checks of a single-qubit kernel, and [qstate_apply_h]. *)
Definition block_loop (s : QuantumState) (target : Z)
    (body : Z -> Z -> Z -> list cplx -> list cplx) : list cplx :=
  let block_size := shl 1 target in
  let num_blocks := shr (vector_size s) (target + 1) in
  for_upto num_blocks
    (fun block v =>
       let base_idx := size_mul block (shl block_size 1) in
       for_upto block_size (fun i v => body base_idx i block_size v) v)
    (state_vector s).

Definition single_qubit_kernel (qs : option QuantumState) (target : Z)
    (body : Z -> Z -> Z -> list cplx -> list cplx)
    : MacQError * option QuantumState :=
  if negb (is_valid_qubit_index qs target) then (MACQ_ERROR_INVALID_INDEX, qs)
  else
    match qs with
    | None => (MACQ_ERROR_INVALID_INDEX, qs)
    | Some s => (MACQ_SUCCESS, Some (set_state_vector s (block_loop s target body)))
    end.

Definition h_body (inv_sqrt2 : float) (base_idx i block_size : Z)
    (v : list cplx) : list cplx :=
  let idx0 := size_add base_idx i in
  let idx1 := size_add idx0 block_size in
  let a0 := vget v idx0 in
  let a1 := vget v idx1 in
  let v := vset v idx0 (Cscale inv_sqrt2 (Cadd a0 a1)) in
  vset v idx1 (Cscale inv_sqrt2 (Csub a0 a1)).

Definition qstate_apply_h (qs : option QuantumState) (target : Z) :=
  let inv_sqrt2 := (1 / sqrt 2)%float in
  single_qubit_kernel qs target (h_body inv_sqrt2).

(** [qstate_measure]: the probability loop, the choice of the outcome,
    the collapse loop. *)
Definition measure_probs (s : QuantumState) (mask : Z) : float * float :=
  for_upto (vector_size s)
    (fun i (p : float * float) =>
       let prob := sqmag (vget (state_vector s) i) in
       if bit_set i mask then (fst p, (snd p + prob)%float)
       else ((fst p + prob)%float, snd p))
    (0%float, 0%float).

(** [(double)rand() / RAND_MAX]. *)
Definition measure_rand_val (RAND_MAX rand : Z) : float :=
  (double_of_int rand / double_of_int RAND_MAX)%float.

(** [(rand_val < prob_0 / (prob_0 + prob_1)) ? 0 : 1]. *)
Definition measure_outcome (prob_0 prob_1 rand_val : float) : Z :=
  if ltb rand_val (prob_0 / (prob_0 + prob_1))%float then 0 else 1.

(** [(result == 0) ? sqrt(prob_0) : sqrt(prob_1)]. *)
Definition measure_norm_factor (prob_0 prob_1 : float) (result : Z) : float :=
  if result =? 0 then sqrt prob_0 else sqrt prob_1.

Definition measure_collapse (s : QuantumState) (mask result : Z)
    (norm_factor : float) : list cplx :=
  for_upto (vector_size s)
    (fun i v =>
       if collapse_keeps result i mask
       then vset v i (Cdiv_r (vget v i) norm_factor)
       else vset v i (RtoC 0%float))
    (state_vector s).

Definition qstate_measure (RAND_MAX rand : Z) (qs : option QuantumState)
    (qubit : Z) : Z * option QuantumState :=
  if negb (is_valid_qubit_index qs qubit) then (-1, qs)
  else
    match qs with
    | None => (-1, qs)
    | Some s =>
        let mask := shl 1 qubit in
        let p := measure_probs s mask in
        let prob_0 := fst p in
        let prob_1 := snd p in
        let rand_val := measure_rand_val RAND_MAX rand in
        let result := measure_outcome prob_0 prob_1 rand_val in
        let norm_factor := measure_norm_factor prob_0 prob_1 result in
        (result,
         Some (set_state_vector s (measure_collapse s mask result norm_factor)))
    end.

(** [qstate_get_amplitude] and [qstate_set_amplitude]. *)
Definition qstate_get_amplitude (qs : option QuantumState) (basis_index : Z)
    : cplx :=
  match qs with
  | None => RtoC 0%float
  | Some s =>
      if basis_index >=? vector_size s then RtoC 0%float
      else vget (state_vector s) basis_index
  end.

Definition qstate_set_amplitude (qs : option QuantumState) (basis_index : Z)
    (amplitude : cplx) : MacQError * option QuantumState :=
  match qs with
  | None => (MACQ_ERROR_INVALID_INDEX, qs)
  | Some s =>
      if basis_index >=? vector_size s then (MACQ_ERROR_INVALID_INDEX, qs)
      else
        (MACQ_SUCCESS,
         Some (set_state_vector s (vset (state_vector s) basis_index amplitude)))
  end.

(** The tolerance [1e-9] of the unitarity property, as the [double]
    nearest to it. *)
Definition tolerance : float := 0x1.12e0be826d695p-30%float.

(** The fresh one-qubit state with amplitude [2^40] written to index 0
    by [qstate_set_amplitude]. *)
Definition large_state : option QuantumState :=
  snd (qstate_set_amplitude (qstate_create true 1) 0 (RtoC 0x1p40%float)).

End Double.

(* ====================================================================== *)
(** ** Notions used in the statements *)
(* ====================================================================== *)

(** [psum f n] is [f 0 + ... + f (n-1)], added in the order of a C
    accumulation loop. *)
Fixpoint psum (f : Z -> R) (n : nat) : R :=
  match n with
  | O => 0
  | S k => psum f k + f (Z.of_nat k)
  end.

(** The sum of squared magnitudes of the first [n] amplitudes. *)
Definition sum_sqmag (v : list cplx) (n : nat) : R :=
  psum (fun i => sqmag (vget v i)) n.

(** The invariant of every gate loop over the buffer of [s]: the length
    and the sum of squared magnitudes are those of [s]. *)
Definition gate_inv (s : QuantumState) (v : list cplx) : Prop :=
  length v = length (state_vector s) /\
  sum_sqmag v (Z.to_nat (vector_size s)) =
  sum_sqmag (state_vector s) (Z.to_nat (vector_size s)).

(** What the unitarity property asks of the result [r] of a kernel run
    on [s]: success, and a norm equal to the norm of [s]. *)
Definition norm_kept (s : QuantumState) (r : MacQError * option QuantumState)
    : Prop :=
  fst r = MACQ_SUCCESS /\
  qstate_norm (snd r) = qstate_norm (Some s).

(** What the failure mode asks of a kernel result [r] on handle [qs]: an
    invalid-index or invalid-gate error and an untouched state. *)
Definition rejected_unchanged (qs : option QuantumState)
    (r : MacQError * option QuantumState) : Prop :=
  (fst r = MACQ_ERROR_INVALID_INDEX \/ fst r = MACQ_ERROR_INVALID_GATE) /\
  snd r = qs.

Definition bit_char (b : bool) : ascii := if b then "1"%char else "0"%char.

(** The three-qubit basis state with qubit values [b0], [b1], [b2], as
    [qstate_init_basis] builds it from the bitstring "b0 b1 b2". *)
Definition basis3 (b0 b1 b2 : bool) : option QuantumState :=
  snd (qstate_init_basis (qstate_create true 3)
         (Some (string_of_list_ascii [bit_char b0; bit_char b1; bit_char b2]))).

(** The fresh one-qubit state |0>. *)
Definition ket0 : QuantumState :=
  mkQuantumState 1 2 [Cplx 1 0; RtoC 0] true 1%R.

(** The one-qubit buffer with both amplitudes 0, as two calls of
    [qstate_set_amplitude] leave it. *)
Definition zero1 : QuantumState :=
  mkQuantumState 1 2 [RtoC 0; RtoC 0] true 1%R.

(** The fresh two-qubit state |00>. *)
Definition ket00 : QuantumState :=
  mkQuantumState 2 4 [Cplx 1 0; RtoC 0; RtoC 0; RtoC 0] true 1%R.

(** The fresh three-qubit state |000>. *)
Definition ket000 : QuantumState :=
  mkQuantumState 3 8
    [Cplx 1 0; RtoC 0; RtoC 0; RtoC 0; RtoC 0; RtoC 0; RtoC 0; RtoC 0] true 1%R.

(** The summed squared magnitude of the amplitudes whose index has bit
    [qubit] equal to [r]: the probability weight of outcome [r]. *)
Definition subspace_prob (s : QuantumState) (qubit r : Z) : R :=
  psum (fun i => if Z.b2z (Z.testbit i qubit) =? r
                 then sqmag (vget (state_vector s) i) else 0%R)
       (Z.to_nat (vector_size s)).

(** The cached [norm] field behind a handle. *)
Definition cached_norm (qs : option QuantumState) : option R := norm <$> qs.

(** Evaluation of the model on concrete states, with the operations on
    reals left as they are. *)
Ltac eval_model :=
  cbv -[Rplus Rmult Rminus Rdiv Ropp Rinv IZR sqrt cos sin exp PI pow Rlt_dec].

(** [get_index], the static helper of [macq.c]: bit [i] of the result is
    set when [qubits[i]] is non-zero.  The [int] array is a [list Z]. *)
Definition get_index (qubits : list Z) (n : Z) : Z :=
  for_upto n
    (fun i index =>
       if negb ((qubits !!! Z.to_nat i) =? 0) then Z.lor index (shl 1 i)
       else index)
    0.

(** The write of [f0 a0 a1] to cell [idx0] and of [f1 a0 a1] to cell
    [idx1], where [(a0, a1)] are the two cells before the writes. *)
Definition pair_update (f0 f1 : cplx -> cplx -> cplx) (v : list cplx)
    (idx0 idx1 : Z) : list cplx :=
  vset (vset v idx0 (f0 (vget v idx0) (vget v idx1)))
       idx1 (f1 (vget v idx0) (vget v idx1)).

(** The buffer of [n] amplitudes with 1 at [index] and 0 elsewhere. *)
Definition basis_vector (n : nat) (index : Z) : list cplx :=
  vset (replicate n (RtoC 0)) index (Cplx 1 0).

(** A bitstring made of the characters '0' and '1' only. *)
Definition binary_string (bits : list ascii) : Prop :=
  Forall (fun c => c = "0"%char \/ c = "1"%char) bits.

(** The value a pair kernel with block [(f0, f1)] on qubit [target]
    leaves in cell [j] of a buffer that was [v0]: cell [j] is the lower
    cell of its pair when bit [target] of [j] is clear and the upper
    cell when it is set. *)
Definition block_value (f0 f1 : cplx -> cplx -> cplx) (v0 : list cplx)
    (target j : Z) : cplx :=
  if Z.testbit j target
  then f1 (vget v0 (j - 2 ^ target)) (vget v0 j)
  else f0 (vget v0 j) (vget v0 (j + 2 ^ target)).

(** [body], run by [block_loop] on qubit [target] of [s], rewrites the
    pair of cells it is given with the block [(f0, f1)]. *)
Definition acts_as_block (s : QuantumState) (target : Z)
    (body : Z -> Z -> Z -> list cplx -> list cplx)
    (f0 f1 : cplx -> cplx -> cplx) : Prop :=
  forall base_idx i v,
    0 <= base_idx -> 0 <= i < 2 ^ target ->
    base_idx + i + 2 ^ target < vector_size s ->
    length v = length (state_vector s) ->
    body base_idx i (2 ^ target) v =
    pair_update f0 f1 v (base_idx + i) (base_idx + i + 2 ^ target).

(** The handle [qs'] points to a well-formed state with the qubit count
    of [s]. *)
Definition same_shape (s : QuantumState) (qs' : option QuantumState) : Prop :=
  exists s', qs' = Some s' /\ wf_state s' /\ num_qubits s' = num_qubits s.

(* ====================================================================== *)
(** * Properties *)
(* ====================================================================== *)

(** ** Machine arithmetic under the qubit bound *)

Lemma size_t_wrap_small (x : Z) : 0 <= x < 2 ^ 64 -> size_t_wrap x = x.
Proof. intros H. unfold size_t_wrap. apply Z.mod_small; exact H. Qed.

Lemma pow2_le_30 (k : Z) : 0 <= k <= 30 -> 0 < 2 ^ k <= 2 ^ 30.
Proof.
  intros H. split.
  - apply Z.pow_pos_nonneg; lia.
  - apply Z.pow_le_mono_r; lia.
Qed.

Lemma shl_1 (k : Z) : 0 <= k <= 30 -> shl 1 k = 2 ^ k.
Proof.
  intros H. unfold shl. rewrite Z.shiftl_1_l.
  apply size_t_wrap_small.
  pose proof (pow2_le_30 k H). change (2 ^ 64) with 18446744073709551616.
  change (2 ^ 30) with 1073741824 in *. lia.
Qed.

Lemma shl_pow2_1 (k : Z) : 0 <= k < 30 -> shl (2 ^ k) 1 = 2 ^ (k + 1).
Proof.
  intros H. unfold shl. rewrite Z.shiftl_mul_pow2 by lia.
  rewrite <- Z.pow_add_r by lia.
  apply size_t_wrap_small.
  pose proof (pow2_le_30 (k + 1) ltac:(lia)).
  change (2 ^ 64) with 18446744073709551616.
  change (2 ^ 30) with 1073741824 in *. lia.
Qed.

Lemma shr_pow2 (n k : Z) : 0 <= k <= n -> shr (2 ^ n) k = 2 ^ (n - k).
Proof.
  intros H. unfold shr. rewrite Z.shiftr_div_pow2 by lia.
  replace n with ((n - k) + k) at 1 by lia.
  rewrite Z.pow_add_r by lia.
  apply Z.div_mul. apply Z.pow_nonzero; lia.
Qed.

(** [i & (1 << q)] is non-zero exactly when bit [q] of [i] is set. *)
Lemma bit_set_testbit (i q : Z) :
  0 <= q -> bit_set i (2 ^ q) = Z.testbit i q.
Proof.
  intros Hq. unfold bit_set.
  destruct (Z.testbit i q) eqn:Hb.
  - destruct (Z.eqb_spec (Z.land i (2 ^ q)) 0) as [E|E]; [|reflexivity].
    exfalso.
    assert (Hq' : Z.testbit (Z.land i (2 ^ q)) q = true).
    { rewrite Z.land_spec, Hb, Z.pow2_bits_true by lia. reflexivity. }
    rewrite E, Z.bits_0 in Hq'. discriminate.
  - destruct (Z.eqb_spec (Z.land i (2 ^ q)) 0) as [E|E]; [reflexivity|].
    exfalso. apply E. apply Z.bits_inj'. intros m Hm.
    rewrite Z.land_spec, Z.bits_0.
    destruct (Z.eq_dec m q) as [->|Hne].
    + rewrite Hb. reflexivity.
    + rewrite Z.pow2_bits_false by lia. apply andb_false_r.
Qed.

(** Flipping bits below [2^n] keeps an index below [2^n]. *)
Lemma lxor_bound (i m n : Z) :
  0 <= n -> 0 <= i < 2 ^ n -> 0 <= m < 2 ^ n -> 0 <= Z.lxor i m < 2 ^ n.
Proof.
  intros Hn Hi Hm.
  assert (H0 : 0 <= Z.lxor i m) by (apply Z.lxor_nonneg; lia).
  split; [exact H0|].
  destruct (Z.eq_dec (Z.lxor i m) 0) as [E|E].
  - rewrite E. apply Z.pow_pos_nonneg; lia.
  - apply Z.log2_lt_pow2; [lia|].
    pose proof (Z.log2_lxor i m ltac:(lia) ltac:(lia)) as Hl.
    assert (Hli : i = 0 \/ Z.log2 i < n).
    { destruct (Z.eq_dec i 0); [left; assumption|right].
      apply Z.log2_lt_pow2; lia. }
    assert (Hlm : m = 0 \/ Z.log2 m < n).
    { destruct (Z.eq_dec m 0); [left; assumption|right].
      apply Z.log2_lt_pow2; lia. }
    assert (Hn0 : 0 < n).
    { destruct (Z.eq_dec n 0) as [->|]; [|lia].
      change (2 ^ 0) with 1 in *. assert (i = 0) by lia. assert (m = 0) by lia.
      subst. rewrite Z.lxor_0_l in E. lia. }
    destruct Hli as [->|Hli], Hlm as [->|Hlm];
      change (Z.log2 0) with 0 in *; lia.
Qed.

(** ** Loop invariants *)

Lemma for_range_inv {A : Type} (P : nat -> A -> Prop) (body : Z -> A -> A)
    (count k0 : nat) (acc : A) :
  P k0 acc ->
  (forall k x, (k0 <= k < k0 + count)%nat -> P k x ->
               P (S k) (body (Z.of_nat k) x)) ->
  P (k0 + count)%nat (for_range (Z.of_nat k0) count body acc).
Proof.
  revert k0 acc. induction count as [|c IH]; intros k0 acc H0 Hstep; simpl.
  - rewrite Nat.add_0_r. exact H0.
  - replace (Z.of_nat k0 + 1) with (Z.of_nat (S k0)) by lia.
    replace (k0 + S c)%nat with (S k0 + c)%nat by lia.
    apply IH.
    + apply Hstep; [lia|exact H0].
    + intros k x Hk. apply Hstep. lia.
Qed.

(** Invariant rule for [for (i = 0; i < n; i++)], with the number of
    completed iterations as index of the invariant. *)
Lemma for_upto_inv {A : Type} (P : nat -> A -> Prop) (n : Z)
    (body : Z -> A -> A) (acc : A) :
  P O acc ->
  (forall k x, (k < Z.to_nat n)%nat -> P k x -> P (S k) (body (Z.of_nat k) x)) ->
  P (Z.to_nat n) (for_upto n body acc).
Proof.
  intros H0 Hstep. unfold for_upto.
  apply (for_range_inv P body (Z.to_nat n) O acc H0).
  intros k x Hk. apply Hstep. lia.
Qed.

(** Invariant rule for a property that does not depend on the counter. *)
Lemma for_upto_ind {A : Type} (P : A -> Prop) (n : Z)
    (body : Z -> A -> A) (acc : A) :
  P acc ->
  (forall i x, 0 <= i < n -> P x -> P (body i x)) ->
  P (for_upto n body acc).
Proof.
  intros H0 Hstep.
  apply (for_upto_inv (fun _ => P) n body acc H0).
  intros k x Hk. apply Hstep. lia.
Qed.

(** ** Sums of squared magnitudes *)

Lemma for_upto_psum (f : Z -> R) (n : Z) :
  for_upto n (fun i acc => (acc + f i)%R) 0%R = psum f (Z.to_nat n).
Proof.
  apply (for_upto_inv (fun k acc => acc = psum f k)).
  - reflexivity.
  - intros k x _ ->. reflexivity.
Qed.

Lemma psum_ext (f g : Z -> R) (n : nat) :
  (forall i, 0 <= i < Z.of_nat n -> f i = g i) -> psum f n = psum g n.
Proof.
  induction n as [|k IH]; intros H; simpl; [reflexivity|].
  rewrite IH by (intros i Hi; apply H; lia).
  rewrite (H (Z.of_nat k)) by lia. reflexivity.
Qed.

Lemma psum_scale (c : R) (f : Z -> R) (n : nat) :
  psum (fun i => (c * f i)%R) n = (c * psum f n)%R.
Proof. induction n as [|k IH]; simpl; [lra|rewrite IH; lra]. Qed.

Lemma psum_plus (f g : Z -> R) (n : nat) :
  psum (fun i => (f i + g i)%R) n = (psum f n + psum g n)%R.
Proof. induction n as [|k IH]; simpl; [lra|rewrite IH; lra]. Qed.

Lemma psum_nonneg (f : Z -> R) (n : nat) :
  (forall i, (0 <= f i)%R) -> (0 <= psum f n)%R.
Proof.
  intros H. induction n as [|k IH]; simpl; [lra|].
  pose proof (H (Z.of_nat k)). lra.
Qed.

Lemma sqmag_nonneg (a : cplx) : (0 <= sqmag a)%R.
Proof. unfold sqmag. nra. Qed.

Lemma norm_squared_sum (s : QuantumState) :
  norm_squared s = sum_sqmag (state_vector s) (Z.to_nat (vector_size s)).
Proof. unfold norm_squared, sum_sqmag. apply for_upto_psum. Qed.

Lemma vget_vset_eq (v : list cplx) (i : Z) (x : cplx) :
  0 <= i < Z.of_nat (length v) -> vget (vset v i x) i = x.
Proof.
  intros H. unfold vget, vset.
  apply list_lookup_total_insert_eq. lia.
Qed.

Lemma vget_vset_ne (v : list cplx) (i j : Z) (x : cplx) :
  0 <= i -> 0 <= j -> i <> j -> vget (vset v i x) j = vget v j.
Proof.
  intros Hi Hj Hne. unfold vget, vset.
  apply list_lookup_total_insert_ne. lia.
Qed.

Lemma length_vset (v : list cplx) (i : Z) (x : cplx) :
  length (vset v i x) = length v.
Proof. unfold vset. apply length_insert. Qed.

Lemma vset_out_of_range (v : list cplx) (i : Z) (x : cplx) :
  Z.of_nat (length v) <= i -> vset v i x = v.
Proof. intros H. unfold vset. apply list_insert_ge. lia. Qed.

(** A write that keeps the squared magnitude of the cell keeps every
    partial sum. *)
Lemma single_update_preserves (v : list cplx) (j : Z) (x : cplx) (n : nat) :
  0 <= j -> sqmag x = sqmag (vget v j) ->
  sum_sqmag (vset v j x) n = sum_sqmag v n.
Proof.
  intros Hj Hx. unfold sum_sqmag. apply psum_ext. intros i Hi.
  destruct (Z.eq_dec i j) as [->|Hne].
  - destruct (Z_lt_le_dec j (Z.of_nat (length v))) as [Hin|Hout].
    + rewrite vget_vset_eq by lia. exact Hx.
    + rewrite vset_out_of_range by lia. reflexivity.
  - rewrite vget_vset_ne by lia. reflexivity.
Qed.

Lemma sum_sqmag_vset (v : list cplx) (j : Z) (x : cplx) (n : nat) :
  0 <= j < Z.of_nat (length v) -> j < Z.of_nat n ->
  sum_sqmag (vset v j x) n = (sum_sqmag v n - sqmag (vget v j) + sqmag x)%R.
Proof.
  intros Hj. unfold sum_sqmag.
  induction n as [|k IH]; intros Hn; [lia|]. simpl.
  destruct (Z.eq_dec j (Z.of_nat k)) as [E|E].
  - rewrite <- E. rewrite vget_vset_eq by lia.
    rewrite (psum_ext (fun i => sqmag (vget (vset v j x) i))
                      (fun i => sqmag (vget v i)) k).
    + lra.
    + intros i Hi. rewrite vget_vset_ne by lia. reflexivity.
  - rewrite IH by lia. rewrite vget_vset_ne by lia. lra.
Qed.

(** Two writes to distinct cells that keep the sum of the two squared
    magnitudes keep the total. *)
Lemma pair_update_preserves (v : list cplx) (i j : Z) (x y : cplx) (n : nat) :
  0 <= i < Z.of_nat (length v) -> 0 <= j < Z.of_nat (length v) -> i <> j ->
  i < Z.of_nat n -> j < Z.of_nat n ->
  (sqmag x + sqmag y = sqmag (vget v i) + sqmag (vget v j))%R ->
  sum_sqmag (vset (vset v i x) j y) n = sum_sqmag v n.
Proof.
  intros Hi Hj Hne Hin Hjn Hsq.
  rewrite sum_sqmag_vset by (rewrite ?length_vset; lia).
  rewrite sum_sqmag_vset by lia.
  rewrite vget_vset_ne by lia. lra.
Qed.

Lemma gate_inv_init (s : QuantumState) : gate_inv s (state_vector s).
Proof. split; reflexivity. Qed.

Lemma gate_inv_norm (s : QuantumState) (v : list cplx) :
  gate_inv s v ->
  qstate_norm (Some (set_state_vector s v)) = qstate_norm (Some s).
Proof.
  intros [_ H]. unfold qstate_norm. rewrite !norm_squared_sum. simpl.
  rewrite H. reflexivity.
Qed.

Lemma gate_inv_single (s : QuantumState) (v : list cplx) (j : Z) (x : cplx) :
  0 <= j -> sqmag x = sqmag (vget v j) ->
  gate_inv s v -> gate_inv s (vset v j x).
Proof.
  intros Hj Hx [Hl Hs]. split.
  - rewrite length_vset. exact Hl.
  - rewrite single_update_preserves by assumption. exact Hs.
Qed.

Lemma gate_inv_pair (s : QuantumState) (v : list cplx) (i j : Z) (x y : cplx) :
  Z.of_nat (length (state_vector s)) = vector_size s ->
  0 <= i < vector_size s -> 0 <= j < vector_size s -> i <> j ->
  (sqmag x + sqmag y = sqmag (vget v i) + sqmag (vget v j))%R ->
  gate_inv s v -> gate_inv s (vset (vset v i x) j y).
Proof.
  intros Hlen Hi Hj Hne Hsq [Hl Hs]. split.
  - rewrite !length_vset. exact Hl.
  - rewrite pair_update_preserves by (rewrite ?Hl; lia || assumption).
    exact Hs.
Qed.

Lemma gate_inv_swap (s : QuantumState) (v : list cplx) (i j : Z) :
  Z.of_nat (length (state_vector s)) = vector_size s ->
  0 <= i < vector_size s -> 0 <= j < vector_size s -> i <> j ->
  gate_inv s v -> gate_inv s (swap_amplitudes v i j).
Proof.
  intros Hlen Hi Hj Hne Hinv. unfold swap_amplitudes.
  apply gate_inv_pair; try assumption. lra.
Qed.

(** ** The block loop *)

Lemma size_add_small (a b : Z) :
  0 <= a -> 0 <= b -> a + b < 2 ^ 64 -> size_add a b = a + b.
Proof. intros. unfold size_add. apply size_t_wrap_small. lia. Qed.

(** Invariant rule for [block_loop]: the body is only run with indices
    [base_idx + i] and [base_idx + i + block_size] inside the buffer. *)
Lemma block_loop_ind (P : list cplx -> Prop) (s : QuantumState) (target : Z)
    (body : Z -> Z -> Z -> list cplx -> list cplx) :
  wf_state s -> 0 <= target < num_qubits s ->
  P (state_vector s) ->
  (forall base_idx i v,
      0 <= base_idx -> 0 <= i < 2 ^ target ->
      base_idx + i + 2 ^ target < vector_size s ->
      P v -> P (body base_idx i (2 ^ target) v)) ->
  P (block_loop s target body).
Proof.
  intros (Hn & Hvs & Hlen) Ht H0 Hstep. unfold MAX_QUBITS in Hn.
  unfold block_loop.
  rewrite shl_1 by lia. rewrite shl_pow2_1 by lia.
  rewrite Hvs. rewrite shr_pow2 by lia.
  set (n := num_qubits s) in *.
  assert (Hsplit : 2 ^ n = 2 ^ (n - (target + 1)) * 2 ^ (target + 1)).
  { rewrite <- Z.pow_add_r by lia. f_equal. lia. }
  assert (Hdouble : 2 ^ (target + 1) = 2 * 2 ^ target).
  { rewrite Z.pow_add_r by lia. lia. }
  pose proof (pow2_le_30 n ltac:(lia)) as Hb.
  pose proof (pow2_le_30 target ltac:(lia)) as Hbt.
  change (2 ^ 30) with 1073741824 in *.
  apply for_upto_ind; [exact H0|].
  intros block v Hblock Hv.
  assert (Hbase : 0 <= block * 2 ^ (target + 1) /\
                  block * 2 ^ (target + 1) + 2 ^ (target + 1) <= 2 ^ n).
  { split; [nia|]. rewrite Hsplit. nia. }
  unfold size_mul. rewrite size_t_wrap_small
    by (change (2 ^ 64) with 18446744073709551616; lia).
  apply for_upto_ind; [exact Hv|].
  intros i w Hi Hw. apply Hstep; try assumption; lia.
Qed.

(** Norm preservation of a single-qubit kernel from a property of its
    loop body. *)
Lemma single_qubit_kernel_norm (s : QuantumState) (target : Z)
    (body : Z -> Z -> Z -> list cplx -> list cplx) :
  wf_state s -> is_valid_qubit_index (Some s) target = true ->
  (forall base_idx i v,
      0 <= base_idx -> 0 <= i ->
      base_idx + i + 2 ^ target < vector_size s ->
      0 < 2 ^ target -> vector_size s <= 2 ^ 30 ->
      gate_inv s v -> gate_inv s (body base_idx i (2 ^ target) v)) ->
  fst (single_qubit_kernel (Some s) target body) = MACQ_SUCCESS /\
  qstate_norm (snd (single_qubit_kernel (Some s) target body)) =
  qstate_norm (Some s).
Proof.
  intros Hwf Hvalid Hbody. unfold single_qubit_kernel. rewrite Hvalid. simpl.
  split; [reflexivity|].
  apply gate_inv_norm.
  simpl in Hvalid. apply andb_prop in Hvalid as [H1 H2].
  apply Z.leb_le in H1. apply Z.ltb_lt in H2.
  pose proof Hwf as (Hn & Hvs & Hlen). unfold MAX_QUBITS in Hn.
  apply block_loop_ind; [exact Hwf|lia|apply gate_inv_init|].
  intros base_idx i v Hb Hi Hlt Hv.
  apply Hbody;
    [ assumption | lia | assumption
    | apply Z.pow_pos_nonneg; lia
    | rewrite Hvs; apply Z.pow_le_mono_r; lia
    | assumption ].
Qed.

(** ** The 2x2 blocks are unitary *)

Lemma inv_sqrt2_sqr : (1 / sqrt 2 * (1 / sqrt 2) = 1 / 2)%R.
Proof.
  assert (H : (sqrt 2 * sqrt 2 = 2)%R) by (apply sqrt_sqrt; lra).
  assert (Hnz : (sqrt 2 <> 0)%R) by (intros E; rewrite E in H; lra).
  replace (1 / sqrt 2 * (1 / sqrt 2))%R with (1 / (sqrt 2 * sqrt 2))%R
    by (field; exact Hnz).
  rewrite H. reflexivity.
Qed.

Lemma sin_cos_sqr (x : R) : (cos x * cos x + sin x * sin x = 1)%R.
Proof. pose proof (sin2_cos2 x) as H. unfold Rsqr in H. lra. Qed.

Lemma y_block_unitary (a0 a1 : cplx) :
  (sqmag (- Ci * a1)%C + sqmag (Ci * a0)%C = sqmag a0 + sqmag a1)%R.
Proof. unfold sqmag; simpl. ring. Qed.

Lemma h_block_unitary (a0 a1 : cplx) :
  (sqmag (Cscale (1 / sqrt 2) (a0 + a1)%C) +
   sqmag (Cscale (1 / sqrt 2) (a0 - a1)%C) = sqmag a0 + sqmag a1)%R.
Proof.
  pose proof inv_sqrt2_sqr as H. set (k := (1 / sqrt 2)%R) in *.
  unfold sqmag; simpl.
  transitivity ((k * k) * (2 * (creal a0 * creal a0 + cimag a0 * cimag a0 +
                                (creal a1 * creal a1 + cimag a1 * cimag a1))))%R;
    [ring|]. rewrite H. field.
Qed.

Lemma rx_block_unitary (c s : R) (a0 a1 : cplx) :
  (c * c + s * s = 1)%R ->
  (sqmag (Cscale c a0 + Cmul_r (- Ci)%C s * a1)%C +
   sqmag (Cmul_r (- Ci)%C s * a0 + Cscale c a1)%C = sqmag a0 + sqmag a1)%R.
Proof.
  intros H. unfold sqmag; simpl.
  transitivity ((c * c + s * s) *
                (creal a0 * creal a0 + cimag a0 * cimag a0 +
                 (creal a1 * creal a1 + cimag a1 * cimag a1)))%R;
    [ring|]. rewrite H. ring.
Qed.

Lemma ry_block_unitary (c s : R) (a0 a1 : cplx) :
  (c * c + s * s = 1)%R ->
  (sqmag (Cscale c a0 - Cscale s a1)%C +
   sqmag (Cscale s a0 + Cscale c a1)%C = sqmag a0 + sqmag a1)%R.
Proof.
  intros H. unfold sqmag; simpl.
  transitivity ((c * c + s * s) *
                (creal a0 * creal a0 + cimag a0 * cimag a0 +
                 (creal a1 * creal a1 + cimag a1 * cimag a1)))%R;
    [ring|]. rewrite H. ring.
Qed.

(** A factor [cexp z] with [z] purely imaginary has modulus one. *)
Lemma sqmag_mul_phase (a z : cplx) :
  creal z = 0%R -> sqmag (a * cexp z)%C = sqmag a.
Proof.
  intros Hz. unfold sqmag, cexp; simpl. rewrite Hz, exp_0.
  pose proof (sin_cos_sqr (cimag z)) as H.
  transitivity ((cos (cimag z) * cos (cimag z) + sin (cimag z) * sin (cimag z)) *
                (creal a * creal a + cimag a * cimag a))%R; [ring|].
  rewrite H. ring.
Qed.

Lemma sqmag_opp (a : cplx) : sqmag (- a)%C = sqmag a.
Proof. unfold sqmag; simpl. ring. Qed.

Lemma sqmag_mul_i (a : cplx) : sqmag (a * Ci)%C = sqmag a.
Proof. unfold sqmag; simpl. ring. Qed.

Lemma t_phase_imaginary : creal (Cdiv_r (Cmul_r Ci PI) 4) = 0%R.
Proof. simpl. unfold Rdiv. ring. Qed.

Lemma rz_phase_neg_imaginary (theta : R) :
  creal (Cdiv_r (Cmul_r (- Ci)%C theta) 2) = 0%R.
Proof. simpl. unfold Rdiv. ring. Qed.

Lemma rz_phase_pos_imaginary (theta : R) :
  creal (Cdiv_r (Cmul_r Ci theta) 2) = 0%R.
Proof. simpl. unfold Rdiv. ring. Qed.

(** ** Loop bodies keep the invariant *)

Section Bodies.

Variable s : QuantumState.
Variables base_idx i block_size : Z.
Variable v : list cplx.
Hypothesis Hlen : Z.of_nat (length (state_vector s)) = vector_size s.
Hypothesis Hbase : 0 <= base_idx.
Hypothesis Hi : 0 <= i.
Hypothesis Hin : base_idx + i + block_size < vector_size s.
Hypothesis Hbs : 0 < block_size.
Hypothesis Hvs : vector_size s <= 2 ^ 30.
Hypothesis Hv : gate_inv s v.

Lemma body_idx0 : size_add base_idx i = base_idx + i.
Proof.
  apply size_add_small; lia.
Qed.

Lemma body_idx1 : size_add (base_idx + i) block_size = base_idx + i + block_size.
Proof.
  apply size_add_small; lia.
Qed.

(** A body that writes [f0 a0 a1] and [f1 a0 a1] over the pair
    [(a0, a1)], where the block [(f0, f1)] is unitary. *)
Lemma pair_body_inv (f0 f1 : cplx -> cplx -> cplx) :
  (forall a0 a1,
      (sqmag (f0 a0 a1) + sqmag (f1 a0 a1) = sqmag a0 + sqmag a1)%R) ->
  gate_inv s
    (vset (vset v (base_idx + i)
                (f0 (vget v (base_idx + i)) (vget v (base_idx + i + block_size))))
          (base_idx + i + block_size)
          (f1 (vget v (base_idx + i)) (vget v (base_idx + i + block_size)))).
Proof.
  intros Hf. apply gate_inv_pair; try assumption; try lia. apply Hf.
Qed.

Lemma x_body_inv : gate_inv s (x_body base_idx i block_size v).
Proof.
  unfold x_body. rewrite body_idx0, body_idx1.
  apply (pair_body_inv (fun a0 a1 => a1) (fun a0 a1 => a0)).
  intros; lra.
Qed.

Lemma y_body_inv : gate_inv s (y_body base_idx i block_size v).
Proof.
  unfold y_body. rewrite body_idx0, body_idx1.
  apply (pair_body_inv (fun a0 a1 => (- Ci * a1)%C) (fun a0 a1 => (Ci * a0)%C)).
  intros a0 a1. apply y_block_unitary.
Qed.

Lemma z_body_inv : gate_inv s (z_body base_idx i block_size v).
Proof.
  unfold z_body. rewrite body_idx0, body_idx1.
  apply gate_inv_single; [lia|apply sqmag_opp|exact Hv].
Qed.

Lemma h_body_inv : gate_inv s (h_body (1 / sqrt 2) base_idx i block_size v).
Proof.
  unfold h_body. rewrite body_idx0, body_idx1.
  apply (pair_body_inv (fun a0 a1 => Cscale (1 / sqrt 2) (a0 + a1)%C)
                       (fun a0 a1 => Cscale (1 / sqrt 2) (a0 - a1)%C)).
  intros a0 a1. apply h_block_unitary.
Qed.

Lemma s_body_inv : gate_inv s (s_body base_idx i block_size v).
Proof.
  unfold s_body. rewrite body_idx0, body_idx1.
  apply gate_inv_single; [lia|apply sqmag_mul_i|exact Hv].
Qed.

Lemma t_body_inv :
  gate_inv s (t_body (cexp (Cdiv_r (Cmul_r Ci PI) 4)) base_idx i block_size v).
Proof.
  unfold t_body. rewrite body_idx0, body_idx1.
  apply gate_inv_single; [lia| |exact Hv].
  apply sqmag_mul_phase, t_phase_imaginary.
Qed.

Lemma rx_body_inv (theta : R) :
  gate_inv s (rx_body (cos (theta / 2)) (sin (theta / 2)) (- Ci)%C
                      base_idx i block_size v).
Proof.
  unfold rx_body. rewrite body_idx0, body_idx1.
  apply (pair_body_inv
           (fun a0 a1 => (Cscale (cos (theta / 2)) a0 +
                          Cmul_r (- Ci)%C (sin (theta / 2)) * a1)%C)
           (fun a0 a1 => (Cmul_r (- Ci)%C (sin (theta / 2)) * a0 +
                          Cscale (cos (theta / 2)) a1)%C)).
  intros a0 a1. apply rx_block_unitary, sin_cos_sqr.
Qed.

Lemma ry_body_inv (theta : R) :
  gate_inv s (ry_body (cos (theta / 2)) (sin (theta / 2))
                      base_idx i block_size v).
Proof.
  unfold ry_body. rewrite body_idx0, body_idx1.
  apply (pair_body_inv
           (fun a0 a1 => (Cscale (cos (theta / 2)) a0 -
                          Cscale (sin (theta / 2)) a1)%C)
           (fun a0 a1 => (Cscale (sin (theta / 2)) a0 +
                          Cscale (cos (theta / 2)) a1)%C)).
  intros a0 a1. apply ry_block_unitary, sin_cos_sqr.
Qed.

Lemma rz_body_inv (theta : R) :
  gate_inv s (rz_body (cexp (Cdiv_r (Cmul_r (- Ci)%C theta) 2))
                      (cexp (Cdiv_r (Cmul_r Ci theta) 2))
                      base_idx i block_size v).
Proof.
  unfold rz_body. rewrite body_idx0, body_idx1.
  apply gate_inv_single; [lia| |].
  - apply sqmag_mul_phase, rz_phase_pos_imaginary.
  - apply gate_inv_single; [lia| |exact Hv].
    apply sqmag_mul_phase, rz_phase_neg_imaginary.
Qed.

End Bodies.

(** ** Norm preservation, kernel by kernel *)

Lemma norm_kept_intro (s : QuantumState) (r : MacQError * option QuantumState) :
  fst r = MACQ_SUCCESS /\ qstate_norm (snd r) = qstate_norm (Some s) ->
  norm_kept s r.
Proof. intros H. exact H. Qed.

Lemma valid_index_range (s : QuantumState) (q : Z) :
  is_valid_qubit_index (Some s) q = true -> 0 <= q < num_qubits s.
Proof.
  simpl. intros H. apply andb_prop in H as [H1 H2].
  apply Z.leb_le in H1. apply Z.ltb_lt in H2. lia.
Qed.

(** A qubit mask of a well-formed state lies inside the index range. *)
Lemma mask_range (s : QuantumState) (q : Z) :
  wf_state s -> 0 <= q < num_qubits s ->
  shl 1 q = 2 ^ q /\ 0 < 2 ^ q < vector_size s.
Proof.
  intros (Hn & Hvs & _) Hq. unfold MAX_QUBITS in Hn.
  rewrite shl_1 by lia. split; [reflexivity|]. rewrite Hvs. split.
  - apply Z.pow_pos_nonneg; lia.
  - apply Z.pow_lt_mono_r; lia.
Qed.

Section KernelNorms.

Variable s : QuantumState.
Hypothesis Hwf : wf_state s.

Ltac single_qubit body_lemma :=
  intros Hq; apply norm_kept_intro;
  apply single_qubit_kernel_norm; [exact Hwf|exact Hq|];
  intros; apply body_lemma; solve [assumption | apply Hwf | lia].

Lemma x_norm q :
  is_valid_qubit_index (Some s) q = true -> norm_kept s (qstate_apply_x (Some s) q).
Proof. single_qubit x_body_inv. Qed.

Lemma y_norm q :
  is_valid_qubit_index (Some s) q = true -> norm_kept s (qstate_apply_y (Some s) q).
Proof. single_qubit y_body_inv. Qed.

Lemma z_norm q :
  is_valid_qubit_index (Some s) q = true -> norm_kept s (qstate_apply_z (Some s) q).
Proof. single_qubit z_body_inv. Qed.

Lemma h_norm q :
  is_valid_qubit_index (Some s) q = true -> norm_kept s (qstate_apply_h (Some s) q).
Proof. single_qubit h_body_inv. Qed.

Lemma s_norm q :
  is_valid_qubit_index (Some s) q = true -> norm_kept s (qstate_apply_s (Some s) q).
Proof. single_qubit s_body_inv. Qed.

Lemma t_norm q :
  is_valid_qubit_index (Some s) q = true -> norm_kept s (qstate_apply_t (Some s) q).
Proof. single_qubit t_body_inv. Qed.

Lemma rx_norm q theta :
  is_valid_qubit_index (Some s) q = true ->
  norm_kept s (qstate_apply_rx (Some s) q theta).
Proof. single_qubit rx_body_inv. Qed.

Lemma ry_norm q theta :
  is_valid_qubit_index (Some s) q = true ->
  norm_kept s (qstate_apply_ry (Some s) q theta).
Proof. single_qubit ry_body_inv. Qed.

Lemma rz_norm q theta :
  is_valid_qubit_index (Some s) q = true ->
  norm_kept s (qstate_apply_rz (Some s) q theta).
Proof. single_qubit rz_body_inv. Qed.

(** The guarded exchange shared by CNOT, SWAP and Toffoli. *)
Lemma guarded_swap_inv (v : list cplx) (i pair_idx : Z) :
  0 <= i < vector_size s -> 0 <= pair_idx < vector_size s ->
  gate_inv s v ->
  gate_inv s (if i <? pair_idx then swap_amplitudes v i pair_idx else v).
Proof.
  intros Hi Hp Hv. destruct (Z.ltb_spec i pair_idx) as [Hlt|_]; [|exact Hv].
  apply gate_inv_swap; try assumption; try lia. apply Hwf.
Qed.

Lemma flip_range (i q : Z) :
  0 <= q < num_qubits s -> 0 <= i < vector_size s ->
  0 <= Z.lxor i (2 ^ q) < vector_size s.
Proof.
  intros Hq Hi. pose proof (mask_range s q Hwf Hq) as [_ Hm].
  destruct Hwf as (Hn & Hvs & _). rewrite Hvs in *.
  apply lxor_bound; lia.
Qed.

Lemma cnot_norm control target :
  is_valid_qubit_index (Some s) control = true ->
  is_valid_qubit_index (Some s) target = true ->
  control <> target ->
  norm_kept s (qstate_apply_cnot (Some s) control target).
Proof.
  intros Hc Ht Hne. apply norm_kept_intro.
  unfold qstate_apply_cnot. rewrite Hc, Ht. simpl.
  destruct (Z.eqb_spec control target) as [E|_]; [contradiction|]. simpl.
  split; [reflexivity|]. apply gate_inv_norm.
  apply valid_index_range in Hc, Ht.
  destruct (mask_range s target Hwf Ht) as [-> _].
  apply for_upto_ind; [apply gate_inv_init|].
  intros i v Hi Hv. destruct (bit_set i (shl 1 control)); [|exact Hv].
  apply guarded_swap_inv; [lia|apply flip_range; lia|exact Hv].
Qed.

Lemma cz_norm control target :
  is_valid_qubit_index (Some s) control = true ->
  is_valid_qubit_index (Some s) target = true ->
  norm_kept s (qstate_apply_cz (Some s) control target).
Proof.
  intros Hc Ht. apply norm_kept_intro.
  unfold qstate_apply_cz. rewrite Hc, Ht. simpl.
  split; [reflexivity|]. apply gate_inv_norm.
  apply for_upto_ind; [apply gate_inv_init|].
  intros i v Hi Hv.
  destruct (bit_set i (shl 1 control) && bit_set i (shl 1 target)); [|exact Hv].
  apply gate_inv_single; [lia|apply sqmag_opp|exact Hv].
Qed.

Lemma swap_norm qubit1 qubit2 :
  is_valid_qubit_index (Some s) qubit1 = true ->
  is_valid_qubit_index (Some s) qubit2 = true ->
  norm_kept s (qstate_apply_swap (Some s) qubit1 qubit2).
Proof.
  intros H1 H2. apply norm_kept_intro.
  unfold qstate_apply_swap. rewrite H1, H2. simpl.
  destruct (Z.eqb_spec qubit1 qubit2) as [_|_]; simpl;
    [split; reflexivity|].
  split; [reflexivity|]. apply gate_inv_norm.
  apply valid_index_range in H1, H2.
  destruct (mask_range s qubit1 Hwf H1) as [-> _].
  destruct (mask_range s qubit2 Hwf H2) as [-> _].
  apply for_upto_ind; [apply gate_inv_init|].
  intros i v Hi Hv.
  destruct (negb (Bool.eqb (bit_set i (2 ^ qubit1)) (bit_set i (2 ^ qubit2))));
    [|exact Hv].
  apply guarded_swap_inv; [lia| |exact Hv].
  apply flip_range; [lia|]. apply flip_range; lia.
Qed.

Lemma toffoli_norm control1 control2 target :
  is_valid_qubit_index (Some s) control1 = true ->
  is_valid_qubit_index (Some s) control2 = true ->
  is_valid_qubit_index (Some s) target = true ->
  norm_kept s (qstate_apply_toffoli (Some s) control1 control2 target).
Proof.
  intros Hc1 Hc2 Ht. apply norm_kept_intro.
  unfold qstate_apply_toffoli. rewrite Hc1, Hc2, Ht. simpl.
  split; [reflexivity|]. apply gate_inv_norm.
  apply valid_index_range in Ht.
  destruct (mask_range s target Hwf Ht) as [-> _].
  apply for_upto_ind; [apply gate_inv_init|].
  intros i v Hi Hv.
  destruct (bit_set i (shl 1 control1) && bit_set i (shl 1 control2));
    [|exact Hv].
  apply guarded_swap_inv; [lia|apply flip_range; lia|exact Hv].
Qed.

End KernelNorms.

(* ====================================================================== *)
(** * The model on the cases of [tests/test_macq.c] *)
(* ====================================================================== *)

(** [test_create_and_free] *)
Example test_create_and_free :
  let qs := qstate_create true 3 in
  num_qubits <$> qs = Some 3 /\ vector_size <$> qs = Some 8 /\
  qstate_get_amplitude qs 0 = Cplx 1 0 /\
  qstate_get_amplitude qs 1 = RtoC 0.
Proof. eval_model. repeat split. Qed.

(** [test_basis_initialization]: "0101" is index 10. *)
Example test_basis_initialization :
  let r := qstate_init_basis (qstate_create true 4) (Some "0101"%string) in
  fst r = MACQ_SUCCESS /\ qstate_get_amplitude (snd r) 10 = Cplx 1 0.
Proof. eval_model. repeat split. Qed.

(** [test_pauli_x_gate] *)
Example test_pauli_x_gate :
  let qs1 := snd (qstate_apply_x (qstate_create true 1) 0) in
  let qs2 := snd (qstate_apply_x qs1 0) in
  qstate_get_amplitude qs1 0 = RtoC 0 /\ qstate_get_amplitude qs1 1 = Cplx 1 0 /\
  qstate_get_amplitude qs2 0 = Cplx 1 0 /\ qstate_get_amplitude qs2 1 = RtoC 0.
Proof. eval_model. repeat split. Qed.

(** [test_cnot_gate]: |00> stays, and "10" (index 1) becomes index 3. *)
Example test_cnot_gate :
  let qs0 := snd (qstate_apply_cnot (qstate_create true 2) 0 1) in
  let qs1 := snd (qstate_init_basis qs0 (Some "10"%string)) in
  let qs2 := snd (qstate_apply_cnot qs1 0 1) in
  qstate_get_amplitude qs0 0 = Cplx 1 0 /\
  qstate_get_amplitude qs2 3 = Cplx 1 0.
Proof. eval_model. repeat split. Qed.

(** [test_toffoli_gate]: "110" becomes index 7, "010" stays index 2. *)
Example test_toffoli_gate :
  let qs0 := qstate_create true 3 in
  let qs1 := snd (qstate_init_basis qs0 (Some "110"%string)) in
  let qs2 := snd (qstate_apply_toffoli qs1 0 1 2) in
  let qs3 := snd (qstate_init_basis qs2 (Some "010"%string)) in
  let qs4 := snd (qstate_apply_toffoli qs3 0 1 2) in
  qstate_get_amplitude qs2 7 = Cplx 1 0 /\
  qstate_get_amplitude qs4 2 = Cplx 1 0.
Proof. eval_model. repeat split. Qed.

(** [test_normalization]: the norm before normalising is [sqrt 8]. *)
Example test_normalization_before :
  let qs0 := qstate_create true 2 in
  let qs1 := snd (qstate_set_amplitude qs0 0 (RtoC 2)) in
  let qs2 := snd (qstate_set_amplitude qs1 1 (RtoC 2)) in
  qstate_norm qs2 = sqrt 8.
Proof. eval_model. f_equal. ring. Qed.

(* ====================================================================== *)
(** * The claims *)
(* ====================================================================== *)

(** ** Basis initialisation *)

Lemma init_basis_index_invalid (bits : list ascii) (i index : Z) :
  (exists c, In c bits /\ c <> "0"%char /\ c <> "1"%char) ->
  init_basis_index bits i index = None.
Proof.
  revert i index. induction bits as [|c rest IH]; intros i index (d & Hin & H0 & H1).
  - destruct Hin.
  - simpl. destruct (Ascii.eqb_spec c "1"%char) as [E1|E1].
    + apply IH. destruct Hin as [->|Hin]; [contradiction|]. eauto.
    + destruct (Ascii.eqb_spec c "0"%char) as [E0|E0]; [|reflexivity].
      simpl. apply IH. destruct Hin as [->|Hin]; [contradiction|]. eauto.
Qed.

Lemma length_list_ascii (str : string) :
  length (list_ascii_of_string str) = String.length str.
Proof. induction str as [|c str IH]; simpl; [reflexivity|rewrite IH; reflexivity]. Qed.

Lemma int_of_size_t_small (x : Z) :
  0 <= x <= INT_MAX -> int_of_size_t x = x.
Proof.
  unfold int_of_size_t, INT_MAX. intros H.
  rewrite Z.mod_small by lia. lia.
Qed.

(** For a string of at most [INT_MAX] characters the cast keeps the
    length and the index loop reads the whole string. *)
(** Above [INT_MAX] the cast forgets multiples of [2^32]. *)
Lemma int_of_size_t_wraps (x : Z) :
  int_of_size_t (x + 2 ^ 32) = int_of_size_t x.
Proof.
  unfold int_of_size_t.
  replace (x + 2 ^ 32 + 2 ^ 31) with (x + 2 ^ 31 + 1 * 2 ^ 32) by ring.
  rewrite Z.mod_add by lia. reflexivity.
Qed.

Lemma init_basis_short_string (str : string) :
  Z.of_nat (String.length str) <= INT_MAX ->
  int_of_size_t (Z.of_nat (String.length str)) = Z.of_nat (String.length str) /\
  take (Z.to_nat (int_of_size_t (Z.of_nat (String.length str))))
       (list_ascii_of_string str) = list_ascii_of_string str.
Proof.
  intros H. rewrite int_of_size_t_small by lia. split; [reflexivity|].
  rewrite Nat2Z.id, <- length_list_ascii. apply firstn_all.
Qed.

(** On a string of the right length (at most [INT_MAX]) with a character
    other than '0' and '1', [qstate_init_basis] returns the invalid-index
    error after the buffer has been cleared. *)
Lemma init_basis_invalid_char (s : QuantumState) (str : string) :
  Z.of_nat (String.length str) = num_qubits s ->
  num_qubits s <= INT_MAX ->
  (exists c, In c (list_ascii_of_string str) /\ c <> "0"%char /\ c <> "1"%char) ->
  qstate_init_basis (Some s) (Some str) =
  (MACQ_ERROR_INVALID_INDEX,
   Some (set_state_vector s (replicate (Z.to_nat (vector_size s)) (RtoC 0)))).
Proof.
  intros Hlen Hsmall Hbad. unfold qstate_init_basis.
  destruct (init_basis_short_string str ltac:(lia)) as [-> ->].
  rewrite Hlen, Z.eqb_refl. simpl.
  rewrite init_basis_index_invalid by exact Hbad. reflexivity.
Qed.

(** C1, at the failing input: on the fresh one-qubit state and the
    bitstring "2" (right length, invalid character) [qstate_init_basis]
    returns the invalid-index error, but the amplitude at index 0, which
    was 1 before the call, is 0 after it: the buffer was cleared before
    the character was checked. *)
Theorem init_basis_invalid_char_clears_state :
  let qs := qstate_create true 1 in
  let r := qstate_init_basis qs (Some "2"%string) in
  fst r = MACQ_ERROR_INVALID_INDEX /\
  qstate_get_amplitude qs 0 = Cplx 1 0 /\
  qstate_get_amplitude (snd r) 0 = RtoC 0 /\
  qstate_get_amplitude (snd r) 0 <> qstate_get_amplitude qs 0.
Proof.
  eval_model. repeat split.
  intros E. injection E as E. lra.
Qed.

(** ** Duplicate qubit indices *)

(** C2, as stated, fails: SWAP of qubit 0 with itself on the fresh
    one-qubit state is not rejected, it returns success. *)
Lemma swap_same_qubit_not_rejected :
  ~ rejected_unchanged (qstate_create true 1)
      (qstate_apply_swap (qstate_create true 1) 0 0).
Proof.
  intros [[H|H] _]; vm_compute in H; discriminate H.
Qed.

(** C2, amended: with both arguments equal to [q], CNOT returns the
    invalid-gate error (invalid-index when [q] is not a valid qubit of
    the handle) and SWAP returns success (invalid-index when [q] is not
    valid); in every case the state is left as it was. *)
Theorem duplicate_qubits_cnot_swap (qs : option QuantumState) (q : Z) :
  qstate_apply_cnot qs q q =
    (if is_valid_qubit_index qs q then MACQ_ERROR_INVALID_GATE
     else MACQ_ERROR_INVALID_INDEX, qs) /\
  qstate_apply_swap qs q q =
    (if is_valid_qubit_index qs q then MACQ_SUCCESS
     else MACQ_ERROR_INVALID_INDEX, qs).
Proof.
  unfold qstate_apply_cnot, qstate_apply_swap.
  destruct (is_valid_qubit_index qs q); simpl.
  - rewrite Z.eqb_refl. split; reflexivity.
  - split; reflexivity.
Qed.

(** CZ has no check for [control == target]: on the one-qubit state
    with amplitudes (0, 1) it returns success and negates the amplitude
    at index 1. *)
Example cz_same_qubit_mutates :
  let qs := snd (qstate_apply_x (qstate_create true 1) 0) in
  let r := qstate_apply_cz qs 0 0 in
  fst r = MACQ_SUCCESS /\
  qstate_get_amplitude qs 1 = Cplx 1 0 /\
  qstate_get_amplitude (snd r) 1 = Cplx (- 1) (- 0).
Proof. eval_model. repeat split. Qed.

(** Toffoli has no check for coincident qubits: with both controls on
    qubit 0 it acts as CNOT(0, 1) and returns success. *)
Example toffoli_same_controls_mutates :
  let qs := snd (qstate_apply_x (qstate_create true 2) 0) in
  let r := qstate_apply_toffoli qs 0 0 1 in
  fst r = MACQ_SUCCESS /\
  qstate_get_amplitude qs 1 = Cplx 1 0 /\
  qstate_get_amplitude (snd r) 1 = RtoC 0 /\
  qstate_get_amplitude (snd r) 3 = Cplx 1 0.
Proof. eval_model. repeat split. Qed.

(** ** Bell state *)

(** C3: from the fresh two-qubit state, H on qubit 0 and then
    CNOT(0, 1) both succeed and leave amplitude 1/sqrt 2 at indices 0
    and 3 and amplitude 0 at indices 1 and 2. *)
Theorem bell_state :
  let r1 := qstate_apply_h (qstate_create true 2) 0 in
  let r2 := qstate_apply_cnot (snd r1) 0 1 in
  fst r1 = MACQ_SUCCESS /\ fst r2 = MACQ_SUCCESS /\
  qstate_get_amplitude (snd r2) 0 = RtoC (1 / sqrt 2) /\
  qstate_get_amplitude (snd r2) 3 = RtoC (1 / sqrt 2) /\
  qstate_get_amplitude (snd r2) 1 = RtoC 0 /\
  qstate_get_amplitude (snd r2) 2 = RtoC 0.
Proof.
  eval_model. repeat split; f_equal; ring.
Qed.

(** ** Toffoli truth table *)

(** C5: each of the 8 basis states of three qubits has its single
    amplitude 1 at index [b0 + 2 b1 + 4 b2], and Toffoli(0, 1, 2) maps it
    to the basis state with qubit 2 flipped when qubits 0 and 1 are both
    1 and to itself otherwise. *)
Theorem toffoli_truth_table (b0 b1 b2 : bool) :
  state_vector <$> basis3 b0 b1 b2 =
    Some (vset (replicate 8 (RtoC 0))
               (Z.b2z b0 + 2 * Z.b2z b1 + 4 * Z.b2z b2) (Cplx 1 0)) /\
  qstate_apply_toffoli (basis3 b0 b1 b2) 0 1 2 =
    (MACQ_SUCCESS, basis3 b0 b1 (xorb b2 (b0 && b1))).
Proof.
  destruct b0, b1, b2; split; vm_compute; reflexivity.
Qed.

(** ** Amplitude accessor *)

(** C7, as stated, fails: neither for the null handle nor for index 2
    of the fresh one-qubit state does the accessor return -1.0. *)
Lemma get_amplitude_null_not_minus_one :
  qstate_get_amplitude None 0 <> RtoC (- 1) /\
  qstate_get_amplitude (qstate_create true 1) 2 <> RtoC (- 1).
Proof.
  split; eval_model; intros E; injection E as E; lra.
Qed.

(** C7, amended: for a null handle or a basis index at or beyond
    [vector_size] the accessor returns the complex number 0, which is
    also an ordinary amplitude value. *)
Theorem get_amplitude_invalid_is_zero (qs : option QuantumState) (basis_index : Z) :
  qs = None \/ (exists s, qs = Some s /\ vector_size s <= basis_index) ->
  qstate_get_amplitude qs basis_index = RtoC 0.
Proof.
  intros [->|(s & -> & H)]; [reflexivity|].
  unfold qstate_get_amplitude.
  destruct (Z.geb_spec basis_index (vector_size s)) as [_|Hlt]; [reflexivity|lia].
Qed.

(** [get_amplitude_invalid_is_zero] at index 2 of the fresh one-qubit
    state. *)
Lemma get_amplitude_invalid_is_zero_witness :
  (qstate_create true 1 = None \/
   exists s, qstate_create true 1 = Some s /\ vector_size s <= 2) /\
  qstate_get_amplitude (qstate_create true 1) 2 = RtoC 0.
Proof.
  assert (H : qstate_create true 1 = None \/
              exists s, qstate_create true 1 = Some s /\ vector_size s <= 2).
  { right. eexists. split; [reflexivity|]. vm_compute. discriminate. }
  split; [exact H|].
  apply (get_amplitude_invalid_is_zero (qstate_create true 1) 2 H).
Defined.

(** ** Pointwise loops *)

(** A loop that rewrites cell [i] from its own old value in iteration
    [i] yields the buffer mapped cell by cell over the first [n]
    indices. *)
Lemma for_upto_pointwise (body : Z -> list cplx -> list cplx)
    (g : Z -> cplx -> cplx) (v0 : list cplx) (n : Z) :
  (forall i v, body i v = vset v i (g i (vget v i))) ->
  0 <= n <= Z.of_nat (length v0) ->
  length (for_upto n body v0) = length v0 /\
  forall j, 0 <= j < n -> vget (for_upto n body v0) j = g j (vget v0 j).
Proof.
  intros Hbody Hn.
  assert (H : length (for_upto n body v0) = length v0 /\
              forall j, 0 <= j ->
                vget (for_upto n body v0) j =
                if j <? Z.of_nat (Z.to_nat n) then g j (vget v0 j) else vget v0 j).
  { apply (for_upto_inv
             (fun k v => length v = length v0 /\
                forall j, 0 <= j ->
                  vget v j = if j <? Z.of_nat k then g j (vget v0 j)
                             else vget v0 j)).
    - split; [reflexivity|]. intros j Hj.
      destruct (Z.ltb_spec j (Z.of_nat 0)); [lia|reflexivity].
    - intros k x Hk [Hl Hx]. rewrite Hbody. split.
      + rewrite length_vset. exact Hl.
      + intros j Hj. destruct (Z.eq_dec j (Z.of_nat k)) as [->|Hne].
        * rewrite vget_vset_eq by lia.
          rewrite Hx by lia.
          destruct (Z.ltb_spec (Z.of_nat k) (Z.of_nat k)); [lia|].
          destruct (Z.ltb_spec (Z.of_nat k) (Z.of_nat (S k))); [reflexivity|lia].
        * rewrite vget_vset_ne by lia. rewrite Hx by lia.
          destruct (Z.ltb_spec j (Z.of_nat k)), (Z.ltb_spec j (Z.of_nat (S k)));
            solve [reflexivity | lia]. }
  destruct H as [Hl Hv]. split; [exact Hl|].
  intros j Hj. rewrite Hv by lia.
  destruct (Z.ltb_spec j (Z.of_nat (Z.to_nat n))); [reflexivity|lia].
Qed.

(** ** Normalisation *)

Lemma create_1 : qstate_create true 1 = Some ket0.
Proof. reflexivity. Qed.

Lemma wf_ket0 : wf_state ket0.
Proof. unfold wf_state, MAX_QUBITS; simpl. repeat split; lia. Qed.

Lemma norm_ket0 : qstate_norm (Some ket0) = 1%R.
Proof.
  eval_model.
  replace (0 + (1 * 1 + 0 * 0) + (0 * 0 + 0 * 0))%R with 1%R by ring.
  apply sqrt_1.
Qed.

(** C8: on a well-formed state, [qstate_normalize] fails with the
    invalid-gate error and leaves the state as it was when the norm is
    below [1e-10]; otherwise it succeeds and every amplitude of the
    result is the old amplitude divided by the norm. *)
Theorem normalize_spec (s : QuantumState) :
  wf_state s ->
  ((qstate_norm (Some s) < 1 / 10 ^ 10)%R ->
   qstate_normalize (Some s) = (MACQ_ERROR_INVALID_GATE, Some s)) /\
  ((qstate_norm (Some s) >= 1 / 10 ^ 10)%R ->
   exists s',
     qstate_normalize (Some s) = (MACQ_SUCCESS, Some s') /\
     length (state_vector s') = length (state_vector s) /\
     forall i, 0 <= i < vector_size s ->
       vget (state_vector s') i =
       Cdiv_r (vget (state_vector s) i) (qstate_norm (Some s))).
Proof.
  intros (Hn & Hvs & Hlen). unfold qstate_normalize. split; intros Hnorm.
  - destruct (Rlt_dec (qstate_norm (Some s)) (1 / 10 ^ 10)) as [_|Hge];
      [reflexivity|contradiction].
  - destruct (Rlt_dec (qstate_norm (Some s)) (1 / 10 ^ 10)) as [Hlt|_];
      [lra|].
    eexists. split; [reflexivity|]. simpl.
    apply (for_upto_pointwise _ (fun _ a => Cdiv_r a (qstate_norm (Some s)))).
    + intros i v. reflexivity.
    + unfold MAX_QUBITS in Hn. rewrite Hlen, Hvs.
      pose proof (pow2_le_30 (num_qubits s) ltac:(lia)). lia.
Qed.

Lemma wf_zero1 : wf_state zero1.
Proof. unfold wf_state, MAX_QUBITS; simpl. repeat split; lia. Qed.

Lemma norm_zero1 : qstate_norm (Some zero1) = 0%R.
Proof.
  eval_model.
  replace (0 + (0 * 0 + 0 * 0) + (0 * 0 + 0 * 0))%R with 0%R by ring.
  apply sqrt_0.
Qed.

(** [normalize_spec] at |0> (norm 1, success) and at the zero buffer
    (norm 0, failure without mutation). *)
Lemma normalize_spec_witness :
  wf_state ket0 /\ wf_state zero1 /\
  (exists s',
     qstate_normalize (Some ket0) = (MACQ_SUCCESS, Some s') /\
     length (state_vector s') = 2%nat /\
     forall i, 0 <= i < 2 ->
       vget (state_vector s') i = Cdiv_r (vget (state_vector ket0) i) 1) /\
  qstate_normalize (Some zero1) = (MACQ_ERROR_INVALID_GATE, Some zero1).
Proof.
  split; [exact wf_ket0|]. split; [exact wf_zero1|]. split.
  - destruct (normalize_spec ket0 wf_ket0) as [_ H].
    rewrite norm_ket0 in H. apply H.
    cbv [pow]. lra.
  - destruct (normalize_spec zero1 wf_zero1) as [H _].
    rewrite norm_zero1 in H. apply H.
    cbv [pow]. lra.
Defined.

(** ** Measurement and collapse *)

Lemma measure_probs_spec (s : QuantumState) (qubit : Z) :
  0 <= qubit ->
  measure_probs s (2 ^ qubit) = (subspace_prob s qubit 0, subspace_prob s qubit 1).
Proof.
  intros Hq. unfold measure_probs, subspace_prob.
  apply (for_upto_inv
           (fun k p =>
              p = (psum (fun i => if Z.b2z (Z.testbit i qubit) =? 0
                                  then sqmag (vget (state_vector s) i) else 0%R) k,
                   psum (fun i => if Z.b2z (Z.testbit i qubit) =? 1
                                  then sqmag (vget (state_vector s) i) else 0%R) k))).
  - reflexivity.
  - intros k p _ ->. rewrite bit_set_testbit by exact Hq. simpl.
    destruct (Z.testbit (Z.of_nat k) qubit); simpl; f_equal; lra.
Qed.

Lemma subspace_prob_nonneg (s : QuantumState) (qubit r : Z) :
  (0 <= subspace_prob s qubit r)%R.
Proof.
  apply psum_nonneg. intros i.
  destruct (Z.b2z (Z.testbit i qubit) =? r); [apply sqmag_nonneg|lra].
Qed.

Lemma measure_outcome_binary (prob_0 prob_1 rand_val : R) :
  measure_outcome prob_0 prob_1 rand_val = 0 \/
  measure_outcome prob_0 prob_1 rand_val = 1.
Proof.
  unfold measure_outcome.
  destruct (Rlt_dec rand_val (prob_0 / (prob_0 + prob_1))); [left|right];
    reflexivity.
Qed.

(** For an outcome in {0, 1} the collapse loop keeps exactly the indices
    whose measured bit equals the outcome. *)
Lemma collapse_keeps_spec (r i qubit : Z) :
  0 <= qubit -> r = 0 \/ r = 1 ->
  collapse_keeps r i (2 ^ qubit) = (Z.b2z (Z.testbit i qubit) =? r).
Proof.
  intros Hq Hr. unfold collapse_keeps. rewrite bit_set_testbit by exact Hq.
  destruct Hr as [-> | ->]; destruct (Z.testbit i qubit); reflexivity.
Qed.

Lemma sqmag_div (a : cplx) (p : R) :
  (0 < p)%R -> sqmag (Cdiv_r a (sqrt p)) = (/ p * sqmag a)%R.
Proof.
  intros Hp.
  assert (Hs : (sqrt p * sqrt p = p)%R) by (apply sqrt_sqrt; lra).
  assert (Hnz : (sqrt p <> 0)%R) by (intros E; rewrite E in Hs; lra).
  unfold sqmag; simpl.
  replace (/ p)%R with (/ (sqrt p * sqrt p))%R by (rewrite Hs; reflexivity).
  field. exact Hnz.
Qed.

(** C6: on a well-formed state and a valid qubit, whatever [rand()]
    returns, [qstate_measure] returns an outcome [r] in {0, 1}; every
    amplitude at an index whose measured bit differs from [r] becomes 0,
    every other amplitude is divided by the square root of the weight of
    outcome [r], and when that weight is positive the resulting state
    has norm 1. *)
Theorem measure_collapse_spec (RAND_MAX rand : Z) (s : QuantumState) (qubit : Z) :
  wf_state s ->
  is_valid_qubit_index (Some s) qubit = true ->
  let res := qstate_measure RAND_MAX rand (Some s) qubit in
  let r := fst res in
  let prob_r := subspace_prob s qubit r in
  (r = 0 \/ r = 1) /\
  exists s',
    snd res = Some s' /\
    (forall i, 0 <= i < vector_size s ->
       Z.b2z (Z.testbit i qubit) <> r -> vget (state_vector s') i = RtoC 0) /\
    (forall i, 0 <= i < vector_size s ->
       Z.b2z (Z.testbit i qubit) = r ->
       vget (state_vector s') i = Cdiv_r (vget (state_vector s) i) (sqrt prob_r)) /\
    ((0 < prob_r)%R -> qstate_norm (Some s') = 1%R).
Proof.
  intros Hwf Hvalid.
  pose proof (valid_index_range s qubit Hvalid) as Hq.
  destruct (mask_range s qubit Hwf Hq) as [Hmask _].
  pose proof Hwf as (Hn & Hvs & Hlen). unfold MAX_QUBITS in Hn.
  unfold qstate_measure. rewrite Hvalid. simpl negb. cbv iota. rewrite Hmask.
  rewrite measure_probs_spec by lia. simpl fst. simpl snd.
  set (r := measure_outcome (subspace_prob s qubit 0) (subspace_prob s qubit 1)
                            (measure_rand_val RAND_MAX rand)).
  assert (Hr : r = 0 \/ r = 1) by apply measure_outcome_binary.
  assert (Hnf : measure_norm_factor (subspace_prob s qubit 0)
                  (subspace_prob s qubit 1) r = sqrt (subspace_prob s qubit r)).
  { unfold measure_norm_factor. destruct Hr as [-> | ->]; reflexivity. }
  rewrite Hnf.
  set (nf := sqrt (subspace_prob s qubit r)).
  split; [exact Hr|]. eexists. split; [reflexivity|]. simpl state_vector.
  assert (Hvs0 : 0 <= vector_size s <= Z.of_nat (length (state_vector s))).
  { rewrite Hlen, Hvs. pose proof (pow2_le_30 (num_qubits s) ltac:(lia)). lia. }
  destruct (for_upto_pointwise
              (fun i v => if collapse_keeps r i (2 ^ qubit)
                          then vset v i (Cdiv_r (vget v i) nf)
                          else vset v i (RtoC 0))
              (fun i a => if Z.b2z (Z.testbit i qubit) =? r
                          then Cdiv_r a nf else RtoC 0)
              (state_vector s) (vector_size s)) as [Hl Hpt].
  { intros i v. rewrite collapse_keeps_spec by (lia || exact Hr).
    destruct (Z.b2z (Z.testbit i qubit) =? r); reflexivity. }
  { exact Hvs0. }
  unfold measure_collapse. split; [|split].
  - intros i Hi Hbit. rewrite Hpt by exact Hi.
    destruct (Z.eqb_spec (Z.b2z (Z.testbit i qubit)) r); [contradiction|reflexivity].
  - intros i Hi Hbit. rewrite Hpt by exact Hi.
    destruct (Z.eqb_spec (Z.b2z (Z.testbit i qubit)) r); [reflexivity|contradiction].
  - intros Hpos. unfold qstate_norm. rewrite norm_squared_sum. simpl.
    unfold sum_sqmag.
    rewrite (psum_ext _
               (fun i => (/ subspace_prob s qubit r *
                          (if Z.b2z (Z.testbit i qubit) =? r
                           then sqmag (vget (state_vector s) i) else 0))%R)).
    + rewrite psum_scale. fold (subspace_prob s qubit r).
      rewrite Rinv_l by lra. apply sqrt_1.
    + intros i Hi. rewrite Hpt by lia.
      destruct (Z.b2z (Z.testbit i qubit) =? r).
      * apply sqmag_div. exact Hpos.
      * unfold sqmag; simpl. ring.
Qed.

Lemma valid_ket0 : is_valid_qubit_index (Some ket0) 0 = true.
Proof. reflexivity. Qed.

(** [measure_collapse_spec] at |0>, qubit 0, with [rand() = 0]. *)
Lemma measure_collapse_spec_witness :
  wf_state ket0 /\
  is_valid_qubit_index (Some ket0) 0 = true /\
  let res := qstate_measure 2147483647 0 (Some ket0) 0 in
  let r := fst res in
  let prob_r := subspace_prob ket0 0 r in
  (r = 0 \/ r = 1) /\
  exists s',
    snd res = Some s' /\
    (forall i, 0 <= i < vector_size ket0 ->
       Z.b2z (Z.testbit i 0) <> r -> vget (state_vector s') i = RtoC 0) /\
    (forall i, 0 <= i < vector_size ket0 ->
       Z.b2z (Z.testbit i 0) = r ->
       vget (state_vector s') i = Cdiv_r (vget (state_vector ket0) i) (sqrt prob_r)) /\
    ((0 < prob_r)%R -> qstate_norm (Some s') = 1%R).
Proof.
  split; [exact wf_ket0|]. split; [exact valid_ket0|].
  exact (measure_collapse_spec 2147483647 0 ket0 0 wf_ket0 valid_ket0).
Defined.

Lemma measure_probs_ket0 : measure_probs ket0 (shl 1 0) = (1%R, 0%R).
Proof. eval_model. f_equal; ring. Qed.

(** ** Division by zero in the collapse *)

Section CollapseDivision.

Import PrimFloat.

(** C9: in binary64 arithmetic there are a state and a draw for which
    [qstate_measure] divides by zero.  With [RAND_MAX = 2147483647], on
    the fresh one-qubit state |0> (norm 1), qubit 0 and the draw
    [rand() = RAND_MAX]: the weights are [prob_0 = 1.0] and
    [prob_1 = 0.0], [rand_val] is 1.0, the test
    [rand_val < prob_0 / (prob_0 + prob_1)] fails so the outcome is 1,
    [norm_factor] is [sqrt(0.0) = 0.0], and the collapse loop keeps
    index 1, whose amplitude [0.0 + 0.0i] it divides by that zero.  The
    amplitude left at index 1 is NaN + NaN i, index 0 is zeroed, and
    [qstate_norm] of the state afterwards is NaN. *)
Theorem measure_divides_by_zero :
  let RAND_MAX := 2147483647 in
  let qs := Double.qstate_create true 1 in
  let res := Double.qstate_measure RAND_MAX RAND_MAX qs 0 in
  exists s,
    qs = Some s /\
    Double.qstate_norm qs = 1%float /\
    Double.is_valid_qubit_index qs 0 = true /\
    Double.measure_probs s (shl 1 0) = (1%float, 0%float) /\
    Double.measure_rand_val RAND_MAX RAND_MAX = 1%float /\
    fst res = 1 /\
    Double.measure_norm_factor 1 0 (fst res) = 0%float /\
    collapse_keeps (fst res) 1 (shl 1 0) = true /\
    Double.qstate_get_amplitude qs 1 = Double.RtoC 0 /\
    Double.qstate_get_amplitude (snd res) 1 =
      Double.Cdiv_r (Double.qstate_get_amplitude qs 1) 0 /\
    Double.qstate_get_amplitude (snd res) 1 = Double.Cplx nan nan /\
    Double.qstate_get_amplitude (snd res) 0 = Double.RtoC 0 /\
    Double.qstate_norm (snd res) = nan.
Proof.
  cbv zeta.
  exists (Double.mkQuantumState 1 2 [Double.Cplx 1 0; Double.RtoC 0] true 1).
  split; [reflexivity|].
  repeat match goal with |- _ /\ _ => split end; vm_compute; reflexivity.
Qed.

(** The same run with [RAND_MAX = 32767]. *)
Example measure_nan_with_short_rand_max :
  let res := Double.qstate_measure 32767 32767 (Double.qstate_create true 1) 0 in
  fst res = 1 /\
  Double.qstate_get_amplitude (snd res) 1 = Double.Cplx nan nan.
Proof. split; vm_compute; reflexivity. Qed.

(** A draw below [RAND_MAX] on the same state selects outcome 0 and
    divides by [sqrt(1.0)]: the state is left as it was. *)
Example measure_ket0_ordinary_draw :
  let qs := Double.qstate_create true 1 in
  Double.qstate_measure 2147483647 12345 qs 0 = (0, qs).
Proof. vm_compute. reflexivity. Qed.

End CollapseDivision.

(** ** Unitarity *)


Lemma create_3 : qstate_create true 3 = Some ket000.
Proof. reflexivity. Qed.

Lemma wf_ket000 : wf_state ket000.
Proof. unfold wf_state, MAX_QUBITS; simpl. repeat split; lia. Qed.

Lemma wf_ket00 : wf_state ket00.
Proof. unfold wf_state, MAX_QUBITS; simpl. repeat split; lia. Qed.


Section Rounding.

Import PrimFloat.


(** On the fresh one-qubit state, of norm 1, the same gate keeps the
    computed norm within the tolerance. *)
Example hadamard_fresh_state_within_tolerance :
  let qs := Double.qstate_create true 1 in
  let r := Double.qstate_apply_h qs 0 in
  ltb (abs (Double.qstate_norm (snd r) - Double.qstate_norm qs))
      Double.tolerance = true.
Proof. vm_compute. reflexivity. Qed.

(** [Double.tolerance] is the [double] next to 1e-9: times 1e9 it
    rounds to 1. *)
Example tolerance_value : (Double.tolerance * 1000000000 = 1)%float.
Proof. vm_compute. reflexivity. Qed.

End Rounding.

(** ** The cached norm *)

Lemma single_qubit_kernel_cache (qs : option QuantumState) (target : Z)
    (body : Z -> Z -> Z -> list cplx -> list cplx) :
  cached_norm (snd (single_qubit_kernel qs target body)) = cached_norm qs.
Proof.
  unfold single_qubit_kernel.
  destruct (is_valid_qubit_index qs target); simpl; [|reflexivity].
  destruct qs; reflexivity.
Qed.

(** C10: [qstate_set_amplitude], the thirteen gate kernels and
    [qstate_measure] all leave the cached [norm] field as it was;
    [qstate_norm] does not depend on that field; and after
    [qstate_set_amplitude(qs, 0, 2.0)] on the fresh one-qubit state the
    cached value is 1 while [qstate_norm] computes 2. *)
Theorem cached_norm_frame :
  (forall qs basis_index amplitude,
      cached_norm (snd (qstate_set_amplitude qs basis_index amplitude)) =
      cached_norm qs) /\
  (forall qs target theta,
      cached_norm (snd (qstate_apply_x qs target)) = cached_norm qs /\
      cached_norm (snd (qstate_apply_y qs target)) = cached_norm qs /\
      cached_norm (snd (qstate_apply_z qs target)) = cached_norm qs /\
      cached_norm (snd (qstate_apply_h qs target)) = cached_norm qs /\
      cached_norm (snd (qstate_apply_s qs target)) = cached_norm qs /\
      cached_norm (snd (qstate_apply_t qs target)) = cached_norm qs /\
      cached_norm (snd (qstate_apply_rx qs target theta)) = cached_norm qs /\
      cached_norm (snd (qstate_apply_ry qs target theta)) = cached_norm qs /\
      cached_norm (snd (qstate_apply_rz qs target theta)) = cached_norm qs) /\
  (forall qs control control2 target,
      cached_norm (snd (qstate_apply_cnot qs control target)) = cached_norm qs /\
      cached_norm (snd (qstate_apply_cz qs control target)) = cached_norm qs /\
      cached_norm (snd (qstate_apply_swap qs control target)) = cached_norm qs /\
      cached_norm (snd (qstate_apply_toffoli qs control control2 target)) =
      cached_norm qs) /\
  (forall RAND_MAX rand qs qubit,
      cached_norm (snd (qstate_measure RAND_MAX rand qs qubit)) = cached_norm qs) /\
  (forall s x, qstate_norm (Some (set_norm s x)) = qstate_norm (Some s)) /\
  (let qs := snd (qstate_set_amplitude (qstate_create true 1) 0 (RtoC 2)) in
   cached_norm qs = Some 1%R /\ qstate_norm qs = 2%R).
Proof.
  repeat apply conj.
  - intros qs basis_index amplitude. unfold qstate_set_amplitude.
    destruct qs as [s|]; [|reflexivity].
    destruct (basis_index >=? vector_size s); reflexivity.
  - intros qs target theta.
    repeat apply conj; apply single_qubit_kernel_cache.
  - intros qs control control2 target. repeat apply conj.
    + unfold qstate_apply_cnot.
      destruct (negb (is_valid_qubit_index qs control)
                || negb (is_valid_qubit_index qs target)); [reflexivity|].
      destruct (control =? target); [reflexivity|]. destruct qs; reflexivity.
    + unfold qstate_apply_cz.
      destruct (negb (is_valid_qubit_index qs control)
                || negb (is_valid_qubit_index qs target)); [reflexivity|].
      destruct qs; reflexivity.
    + unfold qstate_apply_swap.
      destruct (negb (is_valid_qubit_index qs control)
                || negb (is_valid_qubit_index qs target)); [reflexivity|].
      destruct (control =? target); [reflexivity|]. destruct qs; reflexivity.
    + unfold qstate_apply_toffoli.
      destruct (negb (is_valid_qubit_index qs control)
                || negb (is_valid_qubit_index qs control2)
                || negb (is_valid_qubit_index qs target)); [reflexivity|].
      destruct qs; reflexivity.
  - intros RAND_MAX rand qs qubit. unfold qstate_measure.
    destruct (negb (is_valid_qubit_index qs qubit)); [reflexivity|].
    destruct qs; reflexivity.
  - intros s x. reflexivity.
  - reflexivity.
  - eval_model.
    replace (0 + (2 * 2 + 0 * 0) + (0 * 0 + 0 * 0))%R with (2 * 2)%R by ring.
    apply sqrt_square. lra.
Qed.

(** The four functions that assign the cached field: [qstate_create]
    and a successful [qstate_init_basis] or [qstate_normalize] set it to
    1, [qstate_clone] copies it from the source. *)
Lemma cached_norm_writers (s : QuantumState) (str : string) :
  wf_state s ->
  cached_norm (qstate_create true (num_qubits s)) = Some 1%R /\
  cached_norm (qstate_clone true (Some s)) = Some (norm s) /\
  (fst (qstate_init_basis (Some s) (Some str)) = MACQ_SUCCESS ->
   cached_norm (snd (qstate_init_basis (Some s) (Some str))) = Some 1%R) /\
  (fst (qstate_normalize (Some s)) = MACQ_SUCCESS ->
   cached_norm (snd (qstate_normalize (Some s))) = Some 1%R).
Proof.
  intros (Hn & _ & _). unfold MAX_QUBITS in Hn.
  assert (Hc : exists s0, qstate_create true (num_qubits s) = Some s0 /\
                          norm s0 = 1%R).
  { unfold qstate_create, MAX_QUBITS.
    destruct (Z.ltb_spec (num_qubits s) 1); [lia|].
    destruct (Z.gtb_spec (num_qubits s) 30); [lia|].
    simpl. eexists. split; reflexivity. }
  destruct Hc as (s0 & Hs0 & Hnorm0).
  repeat match goal with |- _ /\ _ => split end.
  - rewrite Hs0. simpl. rewrite Hnorm0. reflexivity.
  - unfold qstate_clone. rewrite Hs0. reflexivity.
  - unfold qstate_init_basis. cbv zeta.
    destruct (negb (int_of_size_t (Z.of_nat (String.length str)) =? num_qubits s));
      [discriminate|].
    destruct (init_basis_index _ 0 0); [reflexivity|discriminate].
  - unfold qstate_normalize.
    destruct (Rlt_dec (qstate_norm (Some s)) (1 / 10 ^ 10));
      [discriminate|reflexivity].
Qed.


(* ====================================================================== *)
(** * Further properties of the engine *)
(* ====================================================================== *)

(** ** Buffers and states *)

Lemma for_range_ext {A : Type} (f g : Z -> A -> A) (count : nat) (start : Z)
    (acc : A) :
  (forall i x, start <= i < start + Z.of_nat count -> f i x = g i x) ->
  for_range start count f acc = for_range start count g acc.
Proof.
  revert start acc. induction count as [|c IH]; intros start acc H; simpl.
  - reflexivity.
  - rewrite (H start acc) by lia. apply IH. intros i x Hi. apply H. lia.
Qed.

(** Two loop bodies that agree on the index range give the same loop. *)
Lemma for_upto_ext {A : Type} (f g : Z -> A -> A) (n : Z) (acc : A) :
  (forall i x, 0 <= i < n -> f i x = g i x) ->
  for_upto n f acc = for_upto n g acc.
Proof.
  intros H. unfold for_upto. apply for_range_ext.
  intros i x Hi. apply H. lia.
Qed.

(** Two buffers of the same length with the same cells are equal. *)
Lemma buffer_ext (v w : list cplx) :
  length v = length w ->
  (forall j, 0 <= j < Z.of_nat (length v) -> vget v j = vget w j) ->
  v = w.
Proof.
  intros Hlen H. apply (list_eq_same_length v w (length v)); [congruence|reflexivity|].
  intros k x y Hk Hx Hy.
  specialize (H (Z.of_nat k) ltac:(lia)). unfold vget in H.
  rewrite Nat2Z.id in H.
  rewrite (list_lookup_total_correct _ _ _ Hx) in H.
  rewrite (list_lookup_total_correct _ _ _ Hy) in H. exact H.
Qed.

(** Writing a cell's own value back changes nothing. *)
Lemma vset_same (v : list cplx) (i : Z) : vset v i (vget v i) = v.
Proof.
  unfold vset, vget.
  destruct (v !! Z.to_nat i) as [x|] eqn:E.
  - rewrite (list_lookup_total_correct _ _ _ E). apply list_insert_id. exact E.
  - apply list_insert_ge. apply lookup_ge_None. exact E.
Qed.

Lemma set_state_vector_same (s : QuantumState) :
  set_state_vector s (state_vector s) = s.
Proof. destruct s. reflexivity. Qed.

Lemma set_state_vector_twice (s : QuantumState) (v w : list cplx) :
  set_state_vector (set_state_vector s v) w = set_state_vector s w.
Proof. reflexivity. Qed.

Lemma wf_set_state_vector (s : QuantumState) (v : list cplx) :
  wf_state s -> length v = length (state_vector s) ->
  wf_state (set_state_vector s v).
Proof.
  intros (Hn & Hvs & Hlen) Hl. unfold wf_state. simpl.
  rewrite Hl. repeat split; assumption || lia.
Qed.

Lemma wf_vector_size (s : QuantumState) :
  wf_state s -> 2 <= vector_size s <= 2 ^ 30.
Proof.
  intros (Hn & Hvs & _). unfold MAX_QUBITS in Hn. rewrite Hvs. split.
  - change 2 with (2 ^ 1) at 1. apply Z.pow_le_mono_r; lia.
  - apply Z.pow_le_mono_r; lia.
Qed.

Lemma pair_update_length f0 f1 (v : list cplx) (idx0 idx1 : Z) :
  length (pair_update f0 f1 v idx0 idx1) = length v.
Proof. unfold pair_update. rewrite !length_vset. reflexivity. Qed.

Lemma pair_update_get f0 f1 (v : list cplx) (idx0 idx1 j : Z) :
  0 <= idx0 < Z.of_nat (length v) -> 0 <= idx1 < Z.of_nat (length v) ->
  idx0 <> idx1 -> 0 <= j ->
  vget (pair_update f0 f1 v idx0 idx1) j =
  if j =? idx1 then f1 (vget v idx0) (vget v idx1)
  else if j =? idx0 then f0 (vget v idx0) (vget v idx1)
  else vget v j.
Proof.
  intros H0 H1 Hne Hj. unfold pair_update.
  destruct (Z.eqb_spec j idx1) as [->|E1].
  - apply vget_vset_eq. rewrite length_vset. lia.
  - rewrite vget_vset_ne by lia.
    destruct (Z.eqb_spec j idx0) as [->|E0].
    + apply vget_vset_eq. lia.
    + apply vget_vset_ne; lia.
Qed.

(** ** What the block loop computes *)

Lemma testbit_block_low (b r t : Z) :
  0 <= t -> 0 <= r < 2 ^ t -> Z.testbit (b * 2 ^ (t + 1) + r) t = false.
Proof.
  intros Ht Hr. apply Z.testbit_false; [exact Ht|].
  rewrite Z.pow_add_r by lia. change (2 ^ 1) with 2.
  replace (b * (2 ^ t * 2) + r) with (r + (2 * b) * 2 ^ t) by ring.
  rewrite Z.div_add by lia. rewrite Z.div_small by lia.
  rewrite Z.add_0_l, Z.mul_comm. apply Z.mod_mul. lia.
Qed.

Lemma testbit_block_high (b r t : Z) :
  0 <= t -> 0 <= r < 2 ^ t ->
  Z.testbit (b * 2 ^ (t + 1) + 2 ^ t + r) t = true.
Proof.
  intros Ht Hr. apply Z.testbit_true; [exact Ht|].
  rewrite Z.pow_add_r by lia. change (2 ^ 1) with 2.
  replace (b * (2 ^ t * 2) + 2 ^ t + r) with (r + (2 * b + 1) * 2 ^ t) by ring.
  rewrite Z.div_add by lia. rewrite Z.div_small by lia.
  rewrite Z.add_0_l, Z.add_comm, Z.mul_comm. rewrite Z.mod_add by lia.
  reflexivity.
Qed.

Ltac ltb_cases :=
  repeat match goal with
         | |- context [Z.ltb ?a ?b] => destruct (Z.ltb_spec a b)
         end.

(** The inner loop of [block_loop] on the block starting at [base]:
    after [i] iterations the first [i] pairs of the block are
    rewritten. *)
Lemma block_inner_pointwise (f0 f1 : cplx -> cplx -> cplx)
    (body : Z -> Z -> Z -> list cplx -> list cplx)
    (v0 v : list cplx) (base T : Z) :
  0 <= base -> 0 < T -> base + 2 * T <= Z.of_nat (length v0) ->
  length v = length v0 ->
  (forall j, base <= j < base + 2 * T -> vget v j = vget v0 j) ->
  (forall i w, 0 <= i < T -> length w = length v0 ->
     body base i T w = pair_update f0 f1 w (base + i) (base + i + T)) ->
  let w := for_upto T (fun i w => body base i T w) v in
  length w = length v0 /\
  forall j, 0 <= j ->
    vget w j =
    if j <? base then vget v j
    else if j <? base + T then f0 (vget v0 j) (vget v0 (j + T))
    else if j <? base + 2 * T then f1 (vget v0 (j - T)) (vget v0 j)
    else vget v j.
Proof.
  intros Hbase HT Hfit Hlen Hblock Hbody w.
  assert (H : length w = length v0 /\
              forall j, 0 <= j ->
                vget w j =
                if j <? base then vget v j
                else if j <? base + Z.of_nat (Z.to_nat T)
                     then f0 (vget v0 j) (vget v0 (j + T))
                else if j <? base + T then vget v j
                else if j <? base + T + Z.of_nat (Z.to_nat T)
                     then f1 (vget v0 (j - T)) (vget v0 j)
                else vget v j).
  { subst w.
    apply (for_upto_inv
             (fun k w =>
                length w = length v0 /\
                forall j, 0 <= j ->
                  vget w j =
                  if j <? base then vget v j
                  else if j <? base + Z.of_nat k
                       then f0 (vget v0 j) (vget v0 (j + T))
                  else if j <? base + T then vget v j
                  else if j <? base + T + Z.of_nat k
                       then f1 (vget v0 (j - T)) (vget v0 j)
                  else vget v j)).
    - split; [exact Hlen|]. intros j Hj. ltb_cases; reflexivity || lia.
    - intros k x Hk [Hl Hx].
      rewrite Hbody by (lia || exact Hl).
      split; [rewrite pair_update_length; exact Hl|].
      intros j Hj.
      assert (E0 : vget x (base + Z.of_nat k) = vget v0 (base + Z.of_nat k)).
      { rewrite Hx by lia. rewrite <- Hblock by lia. ltb_cases; reflexivity || lia. }
      assert (E1 : vget x (base + Z.of_nat k + T) = vget v0 (base + Z.of_nat k + T)).
      { rewrite Hx by lia. rewrite <- Hblock by lia. ltb_cases; reflexivity || lia. }
      rewrite pair_update_get by lia. rewrite E0, E1.
      destruct (Z.eqb_spec j (base + Z.of_nat k + T)) as [->|N1].
      + replace (base + Z.of_nat k + T - T) with (base + Z.of_nat k) by lia.
        ltb_cases; reflexivity || lia.
      + destruct (Z.eqb_spec j (base + Z.of_nat k)) as [->|N0].
        * ltb_cases; reflexivity || lia.
        * rewrite Hx by lia. ltb_cases; reflexivity || lia. }
  destruct H as [Hl Hw]. split; [exact Hl|].
  intros j Hj. rewrite Hw by exact Hj.
  rewrite Z2Nat.id by lia. ltb_cases; reflexivity || lia.
Qed.

(** Every pair kernel written around [block_loop] visits each pair of
    cells that differ in bit [target] exactly once: cell [j] of the
    result is the block applied to the pair of [j] in the buffer before
    the call. *)
Lemma block_loop_pointwise (s : QuantumState) (target : Z)
    (body : Z -> Z -> Z -> list cplx -> list cplx)
    (f0 f1 : cplx -> cplx -> cplx) :
  wf_state s -> 0 <= target < num_qubits s ->
  (forall base_idx i v,
      0 <= base_idx -> 0 <= i < 2 ^ target ->
      base_idx + i + 2 ^ target < vector_size s ->
      length v = length (state_vector s) ->
      body base_idx i (2 ^ target) v =
      pair_update f0 f1 v (base_idx + i) (base_idx + i + 2 ^ target)) ->
  length (block_loop s target body) = length (state_vector s) /\
  forall j, 0 <= j < vector_size s ->
    vget (block_loop s target body) j =
    block_value f0 f1 (state_vector s) target j.
Proof.
  intros (Hn & Hvs & Hlen) Ht Hbody. unfold MAX_QUBITS in Hn.
  unfold block_loop.
  rewrite shl_1 by lia. rewrite shl_pow2_1 by lia.
  rewrite Hvs in *. rewrite shr_pow2 by lia.
  set (n := num_qubits s) in *. set (v0 := state_vector s) in *.
  assert (Hsplit : 2 ^ n = 2 ^ (n - (target + 1)) * 2 ^ (target + 1)).
  { rewrite <- Z.pow_add_r by lia. f_equal. lia. }
  assert (Hdouble : 2 ^ (target + 1) = 2 * 2 ^ target).
  { rewrite Z.pow_add_r by lia. lia. }
  pose proof (pow2_le_30 n ltac:(lia)) as Hb.
  pose proof (pow2_le_30 target ltac:(lia)) as Hbt.
  pose proof (pow2_le_30 (n - (target + 1)) ltac:(lia)) as Hbn.
  change (2 ^ 30) with 1073741824 in *.
  set (T := 2 ^ target) in *. set (B := 2 ^ (target + 1)) in *.
  set (NB := 2 ^ (n - (target + 1))) in *.
  assert (H : length (for_upto NB
                (fun block v =>
                   let base_idx := size_mul block B in
                   for_upto T (fun i v1 => body base_idx i T v1) v) v0)
              = length v0 /\
              forall j, 0 <= j ->
                vget (for_upto NB
                  (fun block v =>
                     let base_idx := size_mul block B in
                     for_upto T (fun i v1 => body base_idx i T v1) v) v0) j =
                if j <? Z.of_nat (Z.to_nat NB) * B
                then block_value f0 f1 v0 target j else vget v0 j).
  { apply (for_upto_inv
             (fun k v =>
                length v = length v0 /\
                forall j, 0 <= j ->
                  vget v j = if j <? Z.of_nat k * B
                             then block_value f0 f1 v0 target j else vget v0 j)).
    - split; [reflexivity|]. intros j Hj. ltb_cases; reflexivity || lia.
    - intros k v Hk [Hl Hv]. cbv zeta.
      assert (Hkb : 0 <= Z.of_nat k * B /\ Z.of_nat k * B + B <= NB * B) by nia.
      unfold size_mul. rewrite size_t_wrap_small
        by (change (2 ^ 64) with 18446744073709551616; lia).
      destruct (block_inner_pointwise f0 f1 body v0 v (Z.of_nat k * B) T)
        as [Hl' Hw].
      + lia.
      + lia.
      + lia.
      + exact Hl.
      + intros j Hj. rewrite Hv by lia. ltb_cases; reflexivity || lia.
      + intros i w Hi Hw. apply Hbody; lia || exact Hw.
      + split; [exact Hl'|]. intros j Hj. rewrite Hw by exact Hj.
        rewrite Hv by exact Hj. unfold block_value.
        destruct (Z.ltb_spec j (Z.of_nat k * B)) as [C1|C1].
        * ltb_cases; reflexivity || lia.
        * destruct (Z.ltb_spec j (Z.of_nat k * B + T)) as [C2|C2].
          -- assert (Hbit : Z.testbit j target = false).
             { replace j with (Z.of_nat k * 2 ^ (target + 1)
                               + (j - Z.of_nat k * B)) by (unfold B; ring).
               apply testbit_block_low; [lia|].
               change (2 ^ target) with T. lia. }
             rewrite Hbit. ltb_cases; reflexivity || lia.
          -- destruct (Z.ltb_spec j (Z.of_nat k * B + 2 * T)) as [C3|C3].
             ++ assert (Hbit : Z.testbit j target = true).
                { replace j with (Z.of_nat k * 2 ^ (target + 1) + 2 ^ target
                                  + (j - Z.of_nat k * B - T))
                    by (unfold B, T; ring).
                  apply testbit_block_high; [lia|].
                  change (2 ^ target) with T. lia. }
                rewrite Hbit. ltb_cases; reflexivity || lia.
             ++ ltb_cases; reflexivity || lia. }
  destruct H as [Hl Hv]. split; [exact Hl|].
  intros j Hj. rewrite Hv by lia.
  rewrite Z2Nat.id by lia. ltb_cases; reflexivity || lia.
Qed.

(** ** The block of each single-qubit kernel *)

Section Blocks.

Variable s : QuantumState.
Variable target : Z.
Hypothesis Hwf : wf_state s.

Ltac block_indices :=
  intros base_idx i v Hbase Hi Hin Hlen;
  pose proof (wf_vector_size s Hwf) as Hsize;
  change (2 ^ 30) with 1073741824 in Hsize;
  rewrite !(size_add_small base_idx i) by lia;
  rewrite !(size_add_small (base_idx + i) (2 ^ target)) by lia.

Lemma x_body_block :
  acts_as_block s target x_body (fun a0 a1 => a1) (fun a0 a1 => a0).
Proof. unfold x_body. block_indices. reflexivity. Qed.

Lemma y_body_block :
  acts_as_block s target y_body
    (fun a0 a1 => (- Ci * a1)%C) (fun a0 a1 => (Ci * a0)%C).
Proof. unfold y_body. block_indices. reflexivity. Qed.

Lemma z_body_block :
  acts_as_block s target z_body (fun a0 a1 => a0) (fun a0 a1 => (- a1)%C).
Proof.
  unfold z_body. block_indices. unfold pair_update.
  rewrite vset_same. reflexivity.
Qed.

Lemma h_body_block :
  acts_as_block s target (h_body (1 / sqrt 2))
    (fun a0 a1 => Cscale (1 / sqrt 2) (a0 + a1)%C)
    (fun a0 a1 => Cscale (1 / sqrt 2) (a0 - a1)%C).
Proof. unfold h_body. block_indices. reflexivity. Qed.

Lemma s_body_block :
  acts_as_block s target s_body (fun a0 a1 => a0) (fun a0 a1 => (a1 * Ci)%C).
Proof.
  unfold s_body. block_indices. unfold pair_update.
  rewrite vset_same. reflexivity.
Qed.

Lemma t_body_block (t_phase : cplx) :
  acts_as_block s target (t_body t_phase)
    (fun a0 a1 => a0) (fun a0 a1 => (a1 * t_phase)%C).
Proof.
  unfold t_body. block_indices. unfold pair_update.
  rewrite vset_same. reflexivity.
Qed.

Lemma rx_body_block (cos_half sin_half : R) (neg_i : cplx) :
  acts_as_block s target (rx_body cos_half sin_half neg_i)
    (fun a0 a1 => (Cscale cos_half a0 + Cmul_r neg_i sin_half * a1)%C)
    (fun a0 a1 => (Cmul_r neg_i sin_half * a0 + Cscale cos_half a1)%C).
Proof. unfold rx_body. block_indices. reflexivity. Qed.

Lemma ry_body_block (cos_half sin_half : R) :
  acts_as_block s target (ry_body cos_half sin_half)
    (fun a0 a1 => (Cscale cos_half a0 - Cscale sin_half a1)%C)
    (fun a0 a1 => (Cscale sin_half a0 + Cscale cos_half a1)%C).
Proof. unfold ry_body. block_indices. reflexivity. Qed.

Lemma rz_body_block (phase_neg phase_pos : cplx) :
  acts_as_block s target (rz_body phase_neg phase_pos)
    (fun a0 a1 => (a0 * phase_neg)%C) (fun a0 a1 => (a1 * phase_pos)%C).
Proof.
  unfold rz_body. block_indices. unfold pair_update.
  rewrite vget_vset_ne by lia. reflexivity.
Qed.

End Blocks.

(** The result of a single-qubit kernel on a valid target, cell by
    cell. *)
Lemma single_qubit_kernel_pointwise (s : QuantumState) (target : Z)
    (body : Z -> Z -> Z -> list cplx -> list cplx)
    (f0 f1 : cplx -> cplx -> cplx) :
  wf_state s -> is_valid_qubit_index (Some s) target = true ->
  acts_as_block s target body f0 f1 ->
  exists v,
    single_qubit_kernel (Some s) target body =
      (MACQ_SUCCESS, Some (set_state_vector s v)) /\
    length v = length (state_vector s) /\
    forall j, 0 <= j < vector_size s ->
      vget v j = block_value f0 f1 (state_vector s) target j.
Proof.
  intros Hwf Hvalid Hbody. unfold single_qubit_kernel. rewrite Hvalid. simpl.
  eexists. split; [reflexivity|].
  apply block_loop_pointwise; [exact Hwf| |exact Hbody].
  apply valid_index_range. exact Hvalid.
Qed.

(** ** Pairs of indices *)

Lemma lxor_twice (j m : Z) : Z.lxor (Z.lxor j m) m = j.
Proof. rewrite Z.lxor_assoc, Z.lxor_nilpotent. apply Z.lxor_0_r. Qed.

Lemma testbit_flip_same (j t : Z) :
  0 <= t -> Z.testbit (Z.lxor j (2 ^ t)) t = negb (Z.testbit j t).
Proof.
  intros Ht. rewrite Z.lxor_spec, Z.pow2_bits_true by lia.
  apply xorb_true_r.
Qed.

Lemma testbit_flip_other (j t q : Z) :
  0 <= t -> t <> q -> Z.testbit (Z.lxor j (2 ^ t)) q = Z.testbit j q.
Proof.
  intros Ht Hne. rewrite Z.lxor_spec, Z.pow2_bits_false by lia.
  apply xorb_false_r.
Qed.

(** Flipping a clear bit adds its weight, flipping a set bit removes it. *)
Lemma flip_bit_clear (j t : Z) :
  0 <= t -> Z.testbit j t = false -> Z.lxor j (2 ^ t) = j + 2 ^ t.
Proof.
  intros Ht Hb. symmetry. apply Z.add_nocarry_lxor.
  pose proof (bit_set_testbit j t Ht) as H. rewrite Hb in H.
  unfold bit_set in H. destruct (Z.eqb_spec (Z.land j (2 ^ t)) 0) as [E|E];
    [exact E|discriminate H].
Qed.

Lemma flip_bit_set (j t : Z) :
  0 <= t -> Z.testbit j t = true -> Z.lxor j (2 ^ t) = j - 2 ^ t.
Proof.
  intros Ht Hb.
  assert (Hk : Z.testbit (Z.lxor j (2 ^ t)) t = false).
  { rewrite testbit_flip_same, Hb by exact Ht. reflexivity. }
  pose proof (flip_bit_clear _ t Ht Hk) as H.
  rewrite lxor_twice in H. lia.
Qed.

Lemma pair_partner_low (j t n : Z) :
  0 <= t < n -> 0 <= j < 2 ^ n -> Z.testbit j t = false ->
  j + 2 ^ t < 2 ^ n /\ Z.testbit (j + 2 ^ t) t = true.
Proof.
  intros Ht Hj Hb. rewrite <- flip_bit_clear by (lia || exact Hb). split.
  - apply lxor_bound; [lia|exact Hj|]. split.
    + apply Z.pow_nonneg. lia.
    + apply Z.pow_lt_mono_r; lia.
  - rewrite testbit_flip_same, Hb by lia. reflexivity.
Qed.

Lemma pair_partner_high (j t : Z) :
  0 <= t -> 0 <= j -> Z.testbit j t = true ->
  0 <= j - 2 ^ t /\ Z.testbit (j - 2 ^ t) t = false.
Proof.
  intros Ht Hj Hb. rewrite <- flip_bit_set by (lia || exact Hb). split.
  - apply Z.lxor_nonneg. split; intros _; [|exact Hj].
    apply Z.pow_nonneg. lia.
  - rewrite testbit_flip_same, Hb by lia. reflexivity.
Qed.

(** ** Amplitudes after a single-qubit kernel *)

(** The amplitude a pair kernel leaves at [j], read through the
    accessor: the block applied to the pair [(a0, a1)] that [j] belongs
    to, first component for the lower cell, second for the upper. *)
Lemma kernel_amplitude (s : QuantumState) (target : Z)
    (body : Z -> Z -> Z -> list cplx -> list cplx)
    (f0 f1 : cplx -> cplx -> cplx) (j : Z) :
  wf_state s -> is_valid_qubit_index (Some s) target = true ->
  acts_as_block s target body f0 f1 ->
  0 <= j < vector_size s ->
  let lo := if Z.testbit j target then j - 2 ^ target else j in
  let a0 := vget (state_vector s) lo in
  let a1 := vget (state_vector s) (lo + 2 ^ target) in
  qstate_get_amplitude (snd (single_qubit_kernel (Some s) target body)) j =
  if Z.testbit j target then f1 a0 a1 else f0 a0 a1.
Proof.
  intros Hwf Hvalid Hbody Hj.
  destruct (single_qubit_kernel_pointwise s target body f0 f1 Hwf Hvalid Hbody)
    as (v & Heq & Hl & Hv).
  rewrite Heq. simpl.
  destruct (Z.geb_spec j (vector_size s)); [lia|].
  rewrite Hv by exact Hj. unfold block_value.
  destruct (Z.testbit j target); [|reflexivity].
  replace (j - 2 ^ target + 2 ^ target) with j by lia. reflexivity.
Qed.

(** Two pair kernels on the same qubit, one after the other, act as
    one pair kernel with the composed block. *)
Lemma kernel_twice_pointwise (s : QuantumState) (target : Z)
    (body1 body2 : Z -> Z -> Z -> list cplx -> list cplx)
    (f0 f1 g0 g1 : cplx -> cplx -> cplx) :
  wf_state s -> is_valid_qubit_index (Some s) target = true ->
  acts_as_block s target body1 f0 f1 ->
  (forall s', wf_state s' -> acts_as_block s' target body2 g0 g1) ->
  exists v,
    single_qubit_kernel (snd (single_qubit_kernel (Some s) target body1))
      target body2 = (MACQ_SUCCESS, Some (set_state_vector s v)) /\
    length v = length (state_vector s) /\
    forall j, 0 <= j < vector_size s ->
      vget v j =
      block_value (fun a b => g0 (f0 a b) (f1 a b))
                  (fun a b => g1 (f0 a b) (f1 a b)) (state_vector s) target j.
Proof.
  intros Hwf Hvalid H1 H2.
  destruct (single_qubit_kernel_pointwise s target body1 f0 f1 Hwf Hvalid H1)
    as (v1 & Heq1 & Hl1 & Hv1).
  rewrite Heq1. simpl snd.
  assert (Hwf1 : wf_state (set_state_vector s v1))
    by (apply wf_set_state_vector; assumption).
  destruct (single_qubit_kernel_pointwise (set_state_vector s v1) target body2
              g0 g1 Hwf1 Hvalid (H2 _ Hwf1)) as (v2 & Heq2 & Hl2 & Hv2).
  exists v2. split; [rewrite Heq2; reflexivity|].
  simpl in Hl2, Hv2. split; [congruence|].
  intros j Hj. rewrite Hv2 by exact Hj. unfold block_value.
  pose proof (valid_index_range s target Hvalid) as Ht.
  pose proof Hwf as (_ & Hvs & _).
  destruct (Z.testbit j target) eqn:Hb.
  - destruct (pair_partner_high j target ltac:(lia) ltac:(lia) Hb) as [Hlo Hblo].
    rewrite !Hv1 by lia. unfold block_value. rewrite Hb, Hblo.
    replace (j - 2 ^ target + 2 ^ target) with j by lia. reflexivity.
  - rewrite Hvs in Hj.
    destruct (pair_partner_low j target (num_qubits s) Ht Hj Hb) as [Hhi Hbhi].
    rewrite !Hv1 by lia. unfold block_value. rewrite Hb, Hbhi.
    replace (j + 2 ^ target - 2 ^ target) with j by lia. reflexivity.
Qed.

(** A second kernel whose block undoes the block of the first gives
    the state back. *)
Lemma kernel_inverse (s : QuantumState) (target : Z)
    (body1 body2 : Z -> Z -> Z -> list cplx -> list cplx)
    (f0 f1 g0 g1 : cplx -> cplx -> cplx) :
  wf_state s -> is_valid_qubit_index (Some s) target = true ->
  acts_as_block s target body1 f0 f1 ->
  (forall s', wf_state s' -> acts_as_block s' target body2 g0 g1) ->
  (forall a b, g0 (f0 a b) (f1 a b) = a) ->
  (forall a b, g1 (f0 a b) (f1 a b) = b) ->
  single_qubit_kernel (snd (single_qubit_kernel (Some s) target body1))
    target body2 = (MACQ_SUCCESS, Some s).
Proof.
  intros Hwf Hvalid H1 H2 Hg0 Hg1.
  destruct (kernel_twice_pointwise s target body1 body2 f0 f1 g0 g1
              Hwf Hvalid H1 H2) as (v & Heq & Hl & Hv).
  rewrite Heq. f_equal. f_equal.
  rewrite <- (set_state_vector_same s) at 2. f_equal.
  apply buffer_ext; [exact Hl|].
  intros j Hj. destruct Hwf as (_ & _ & Hlen).
  rewrite Hv by lia. unfold block_value.
  destruct (Z.testbit j target); [apply Hg1|apply Hg0].
Qed.

(** A second kernel that composes with the first into the block of a
    third gives the result of the third. *)
Lemma kernel_compose (s : QuantumState) (target : Z)
    (body1 body2 body3 : Z -> Z -> Z -> list cplx -> list cplx)
    (f0 f1 g0 g1 h0 h1 : cplx -> cplx -> cplx) :
  wf_state s -> is_valid_qubit_index (Some s) target = true ->
  acts_as_block s target body1 f0 f1 ->
  (forall s', wf_state s' -> acts_as_block s' target body2 g0 g1) ->
  acts_as_block s target body3 h0 h1 ->
  (forall a b, g0 (f0 a b) (f1 a b) = h0 a b) ->
  (forall a b, g1 (f0 a b) (f1 a b) = h1 a b) ->
  single_qubit_kernel (snd (single_qubit_kernel (Some s) target body1))
    target body2 = single_qubit_kernel (Some s) target body3.
Proof.
  intros Hwf Hvalid H1 H2 H3 Hg0 Hg1.
  destruct (kernel_twice_pointwise s target body1 body2 f0 f1 g0 g1
              Hwf Hvalid H1 H2) as (v & Heq & Hl & Hv).
  destruct (single_qubit_kernel_pointwise s target body3 h0 h1 Hwf Hvalid H3)
    as (v3 & Heq3 & Hl3 & Hv3).
  rewrite Heq, Heq3. f_equal. f_equal. f_equal.
  apply buffer_ext; [congruence|].
  intros j Hj. destruct Hwf as (_ & _ & Hlen).
  rewrite Hv, Hv3 by lia. unfold block_value.
  destruct (Z.testbit j target); [apply Hg1|apply Hg0].
Qed.

(** ** Gate table and gate algebra *)

Lemma cplx_eq (a b : cplx) : creal a = creal b -> cimag a = cimag b -> a = b.
Proof. destruct a, b. simpl. intros -> ->. reflexivity. Qed.

(** The phase of the T gate is (1 + i) / sqrt 2. *)
Lemma t_phase_value :
  cexp (Cdiv_r (Cmul_r Ci PI) 4) = Cplx (1 / sqrt 2) (1 / sqrt 2).
Proof.
  unfold cexp. simpl.
  replace (0 * PI / 4)%R with 0%R by (unfold Rdiv; ring).
  replace (1 * PI / 4)%R with (PI / 4)%R by (unfold Rdiv; ring).
  rewrite exp_0, cos_PI4, sin_PI4. f_equal; ring.
Qed.

(** The two phases of Rz are cos(theta/2) -/+ i sin(theta/2). *)
Lemma rz_phase_pos_value (theta : R) :
  cexp (Cdiv_r (Cmul_r Ci theta) 2) = Cplx (cos (theta / 2)) (sin (theta / 2)).
Proof.
  unfold cexp. simpl.
  replace (0 * theta / 2)%R with 0%R by (unfold Rdiv; ring).
  replace (1 * theta / 2)%R with (theta / 2)%R by (unfold Rdiv; ring).
  rewrite exp_0. f_equal; ring.
Qed.

Lemma rz_phase_neg_value (theta : R) :
  cexp (Cdiv_r (Cmul_r (- Ci)%C theta) 2) =
  Cplx (cos (theta / 2)) (- sin (theta / 2)).
Proof.
  unfold cexp. simpl.
  replace (- 0 * theta / 2)%R with 0%R by (unfold Rdiv; ring).
  replace (- (1) * theta / 2)%R with (- (theta / 2))%R by (unfold Rdiv; ring).
  rewrite exp_0, cos_neg, sin_neg. f_equal; ring.
Qed.

Lemma half_angle_sum (a b : R) : ((a + b) / 2 = a / 2 + b / 2)%R.
Proof. field. Qed.

(** X1: on a well-formed state and a valid target, every single-qubit
    kernel leaves at each index [j] the entry of its 2x2
    matrix applied to the pair [(a0, a1)] of old amplitudes that [j]
    belongs to ([a0] at the index with bit [target] clear, [a1] at the
    index with it set): X swaps, Y gives (-i a1, i a0), Z gives
    (a0, -a1), H gives ((a0 + a1)/sqrt 2, (a0 - a1)/sqrt 2), S gives
    (a0, i a1), T gives (a0, e^(i pi/4) a1), and Rx, Ry, Rz their
    rotation matrices. *)
Theorem single_qubit_gate_table (s : QuantumState) (target j : Z) (theta : R) :
  wf_state s -> is_valid_qubit_index (Some s) target = true ->
  0 <= j < vector_size s ->
  let lo := if Z.testbit j target then j - 2 ^ target else j in
  let a0 := vget (state_vector s) lo in
  let a1 := vget (state_vector s) (lo + 2 ^ target) in
  let amp (r : MacQError * option QuantumState) :=
    qstate_get_amplitude (snd r) j in
  let pick (x0 x1 : cplx) := if Z.testbit j target then x1 else x0 in
  let c := cos (theta / 2) in
  let sn := sin (theta / 2) in
  amp (qstate_apply_x (Some s) target) = pick a1 a0 /\
  amp (qstate_apply_y (Some s) target) = pick (- Ci * a1)%C (Ci * a0)%C /\
  amp (qstate_apply_z (Some s) target) = pick a0 (- a1)%C /\
  amp (qstate_apply_h (Some s) target) =
    pick (Cscale (1 / sqrt 2) (a0 + a1)%C) (Cscale (1 / sqrt 2) (a0 - a1)%C) /\
  amp (qstate_apply_s (Some s) target) = pick a0 (a1 * Ci)%C /\
  amp (qstate_apply_t (Some s) target) =
    pick a0 (a1 * Cplx (1 / sqrt 2) (1 / sqrt 2))%C /\
  amp (qstate_apply_rx (Some s) target theta) =
    pick (Cscale c a0 + Cplx 0 (- sn) * a1)%C
         (Cplx 0 (- sn) * a0 + Cscale c a1)%C /\
  amp (qstate_apply_ry (Some s) target theta) =
    pick (Cscale c a0 - Cscale sn a1)%C (Cscale sn a0 + Cscale c a1)%C /\
  amp (qstate_apply_rz (Some s) target theta) =
    pick (a0 * Cplx c (- sn))%C (a1 * Cplx c sn)%C.
Proof.
  intros Hwf Hvalid Hj. cbv zeta.
  repeat match goal with |- _ /\ _ => split end.
  - unfold qstate_apply_x.
    rewrite (kernel_amplitude s target _ _ _ j Hwf Hvalid (x_body_block s target Hwf) Hj).
    destruct (Z.testbit j target); reflexivity.
  - unfold qstate_apply_y.
    rewrite (kernel_amplitude s target _ _ _ j Hwf Hvalid (y_body_block s target Hwf) Hj).
    destruct (Z.testbit j target); reflexivity.
  - unfold qstate_apply_z.
    rewrite (kernel_amplitude s target _ _ _ j Hwf Hvalid (z_body_block s target Hwf) Hj).
    destruct (Z.testbit j target); reflexivity.
  - unfold qstate_apply_h.
    rewrite (kernel_amplitude s target _ _ _ j Hwf Hvalid (h_body_block s target Hwf) Hj).
    destruct (Z.testbit j target); reflexivity.
  - unfold qstate_apply_s.
    rewrite (kernel_amplitude s target _ _ _ j Hwf Hvalid (s_body_block s target Hwf) Hj).
    destruct (Z.testbit j target); reflexivity.
  - unfold qstate_apply_t.
    rewrite (kernel_amplitude s target _ _ _ j Hwf Hvalid
               (t_body_block s target Hwf _) Hj).
    rewrite t_phase_value. destruct (Z.testbit j target); reflexivity.
  - unfold qstate_apply_rx.
    rewrite (kernel_amplitude s target _ _ _ j Hwf Hvalid
               (rx_body_block s target Hwf _ _ _) Hj).
    assert (E : Cmul_r (- Ci)%C (sin (theta / 2)) = Cplx 0 (- sin (theta / 2))).
    { apply cplx_eq; simpl; ring. }
    rewrite E. destruct (Z.testbit j target); reflexivity.
  - unfold qstate_apply_ry.
    rewrite (kernel_amplitude s target _ _ _ j Hwf Hvalid
               (ry_body_block s target Hwf _ _) Hj).
    destruct (Z.testbit j target); reflexivity.
  - unfold qstate_apply_rz.
    rewrite (kernel_amplitude s target _ _ _ j Hwf Hvalid
               (rz_body_block s target Hwf _ _) Hj).
    rewrite rz_phase_neg_value, rz_phase_pos_value.
    destruct (Z.testbit j target); reflexivity.
Qed.

(** [single_qubit_gate_table] at |000>, target 1 and index 2. *)
Lemma single_qubit_gate_table_witness :
  wf_state ket000 /\ is_valid_qubit_index (Some ket000) 1 = true /\
  0 <= 2 < vector_size ket000 /\
  qstate_get_amplitude (snd (qstate_apply_x (Some ket000) 1)) 2 =
    vget (state_vector ket000) (2 - 2 ^ 1) /\
  qstate_get_amplitude (snd (qstate_apply_h (Some ket000) 1)) 2 =
    Cscale (1 / sqrt 2)
      (vget (state_vector ket000) (2 - 2 ^ 1) -
       vget (state_vector ket000) (2 - 2 ^ 1 + 2 ^ 1))%C.
Proof.
  assert (Hj : 0 <= 2 < vector_size ket000) by (simpl; lia).
  pose proof (single_qubit_gate_table ket000 1 2 0%R wf_ket000 eq_refl Hj) as H.
  cbv zeta in H. change (Z.testbit 2 1) with true in H. cbv iota in H.
  split; [exact wf_ket000|]. split; [reflexivity|]. split; [exact Hj|].
  split; [apply H|]. apply H.
Defined.

(** X2: on a well-formed state and a valid target, applying X, Y, Z or
    H twice succeeds and gives back the state, amplitude by
    amplitude. *)
Theorem self_inverse_gates (s : QuantumState) (target : Z) :
  wf_state s -> is_valid_qubit_index (Some s) target = true ->
  qstate_apply_x (snd (qstate_apply_x (Some s) target)) target =
    (MACQ_SUCCESS, Some s) /\
  qstate_apply_y (snd (qstate_apply_y (Some s) target)) target =
    (MACQ_SUCCESS, Some s) /\
  qstate_apply_z (snd (qstate_apply_z (Some s) target)) target =
    (MACQ_SUCCESS, Some s) /\
  qstate_apply_h (snd (qstate_apply_h (Some s) target)) target =
    (MACQ_SUCCESS, Some s).
Proof.
  intros Hwf Hvalid. repeat match goal with |- _ /\ _ => split end.
  - unfold qstate_apply_x.
    apply (kernel_inverse s target _ _ _ _ _ _ Hwf Hvalid
             (x_body_block s target Hwf)
             (fun s' H' => x_body_block s' target H')); reflexivity.
  - unfold qstate_apply_y.
    apply (kernel_inverse s target _ _ _ _ _ _ Hwf Hvalid
             (y_body_block s target Hwf)
             (fun s' H' => y_body_block s' target H'));
      intros a b; apply cplx_eq; simpl; ring.
  - unfold qstate_apply_z.
    apply (kernel_inverse s target _ _ _ _ _ _ Hwf Hvalid
             (z_body_block s target Hwf)
             (fun s' H' => z_body_block s' target H'));
      intros a b; try reflexivity; apply cplx_eq; simpl; ring.
  - unfold qstate_apply_h.
    pose proof inv_sqrt2_sqr as Hk.
    apply (kernel_inverse s target _ _ _ _ _ _ Hwf Hvalid
             (h_body_block s target Hwf)
             (fun s' H' => h_body_block s' target H'));
      intros a b; apply cplx_eq; simpl.
    + transitivity ((1 / sqrt 2 * (1 / sqrt 2)) * (2 * creal a))%R; [ring|].
      rewrite Hk. field.
    + transitivity ((1 / sqrt 2 * (1 / sqrt 2)) * (2 * cimag a))%R; [ring|].
      rewrite Hk. field.
    + transitivity ((1 / sqrt 2 * (1 / sqrt 2)) * (2 * creal b))%R; [ring|].
      rewrite Hk. field.
    + transitivity ((1 / sqrt 2 * (1 / sqrt 2)) * (2 * cimag b))%R; [ring|].
      rewrite Hk. field.
Qed.

(** [self_inverse_gates] at |000> and target 2. *)
Lemma self_inverse_gates_witness :
  wf_state ket000 /\ is_valid_qubit_index (Some ket000) 2 = true /\
  qstate_apply_x (snd (qstate_apply_x (Some ket000) 2)) 2 =
    (MACQ_SUCCESS, Some ket000) /\
  qstate_apply_h (snd (qstate_apply_h (Some ket000) 2)) 2 =
    (MACQ_SUCCESS, Some ket000).
Proof.
  pose proof (self_inverse_gates ket000 2 wf_ket000 eq_refl) as H.
  split; [exact wf_ket000|]. split; [reflexivity|]. split; apply H.
Defined.

(** X3: on a well-formed state and a valid target, S applied twice
    gives the result of Z, and T applied twice gives the result of S. *)
Theorem phase_gate_squares (s : QuantumState) (target : Z) :
  wf_state s -> is_valid_qubit_index (Some s) target = true ->
  qstate_apply_s (snd (qstate_apply_s (Some s) target)) target =
    qstate_apply_z (Some s) target /\
  qstate_apply_t (snd (qstate_apply_t (Some s) target)) target =
    qstate_apply_s (Some s) target.
Proof.
  intros Hwf Hvalid. split.
  - unfold qstate_apply_s, qstate_apply_z.
    apply (kernel_compose s target _ _ _ _ _ _ _ _ _ Hwf Hvalid
             (s_body_block s target Hwf)
             (fun s' H' => s_body_block s' target H')
             (z_body_block s target Hwf));
      intros a b; try reflexivity; apply cplx_eq; simpl; ring.
  - unfold qstate_apply_t, qstate_apply_s. cbv zeta.
    apply (kernel_compose s target _ _ _ _ _ _ _ _ _ Hwf Hvalid
             (t_body_block s target Hwf _)
             (fun s' H' => t_body_block s' target H' _)
             (s_body_block s target Hwf));
      intros a b; try reflexivity.
    rewrite t_phase_value. pose proof inv_sqrt2_sqr as Hk.
    apply cplx_eq; simpl.
    + transitivity (- ((1 / sqrt 2 * (1 / sqrt 2)) * (2 * cimag b)))%R; [ring|].
      rewrite Hk. field.
    + transitivity ((1 / sqrt 2 * (1 / sqrt 2)) * (2 * creal b))%R; [ring|].
      rewrite Hk. field.
Qed.

(** [phase_gate_squares] at |000> and target 0. *)
Lemma phase_gate_squares_witness :
  wf_state ket000 /\ is_valid_qubit_index (Some ket000) 0 = true /\
  qstate_apply_s (snd (qstate_apply_s (Some ket000) 0)) 0 =
    qstate_apply_z (Some ket000) 0 /\
  qstate_apply_t (snd (qstate_apply_t (Some ket000) 0)) 0 =
    qstate_apply_s (Some ket000) 0.
Proof.
  split; [exact wf_ket000|]. split; [reflexivity|].
  exact (phase_gate_squares ket000 0 wf_ket000 eq_refl).
Defined.

(** X4: on a well-formed state and a valid target, a rotation by [a]
    followed by a rotation by [b] about the same axis gives the result
    of the rotation by [a + b], for each of Rx, Ry and Rz. *)
Theorem rotations_add (s : QuantumState) (target : Z) (a b : R) :
  wf_state s -> is_valid_qubit_index (Some s) target = true ->
  qstate_apply_rx (snd (qstate_apply_rx (Some s) target a)) target b =
    qstate_apply_rx (Some s) target (a + b) /\
  qstate_apply_ry (snd (qstate_apply_ry (Some s) target a)) target b =
    qstate_apply_ry (Some s) target (a + b) /\
  qstate_apply_rz (snd (qstate_apply_rz (Some s) target a)) target b =
    qstate_apply_rz (Some s) target (a + b).
Proof.
  intros Hwf Hvalid.
  assert (Hc : cos ((a + b) / 2) =
               (cos (a / 2) * cos (b / 2) - sin (a / 2) * sin (b / 2))%R).
  { rewrite half_angle_sum. apply cos_plus. }
  assert (Hs : sin ((a + b) / 2) =
               (sin (a / 2) * cos (b / 2) + cos (a / 2) * sin (b / 2))%R).
  { rewrite half_angle_sum. apply sin_plus. }
  repeat match goal with |- _ /\ _ => split end.
  - unfold qstate_apply_rx. cbv zeta.
    apply (kernel_compose s target _ _ _ _ _ _ _ _ _ Hwf Hvalid
             (rx_body_block s target Hwf _ _ _)
             (fun s' H' => rx_body_block s' target H' _ _ _)
             (rx_body_block s target Hwf _ _ _));
      intros x y; apply cplx_eq; simpl; rewrite Hc, Hs; ring.
  - unfold qstate_apply_ry. cbv zeta.
    apply (kernel_compose s target _ _ _ _ _ _ _ _ _ Hwf Hvalid
             (ry_body_block s target Hwf _ _)
             (fun s' H' => ry_body_block s' target H' _ _)
             (ry_body_block s target Hwf _ _));
      intros x y; apply cplx_eq; simpl; rewrite Hc, Hs; ring.
  - unfold qstate_apply_rz. cbv zeta.
    apply (kernel_compose s target _ _ _ _ _ _ _ _ _ Hwf Hvalid
             (rz_body_block s target Hwf _ _)
             (fun s' H' => rz_body_block s' target H' _ _)
             (rz_body_block s target Hwf _ _));
      intros x y; rewrite ?rz_phase_neg_value, ?rz_phase_pos_value;
      apply cplx_eq; simpl; rewrite Hc, Hs; ring.
Qed.

(** [rotations_add] at |000>, target 1 and angles 1 and 2. *)
Lemma rotations_add_witness :
  wf_state ket000 /\ is_valid_qubit_index (Some ket000) 1 = true /\
  qstate_apply_rx (snd (qstate_apply_rx (Some ket000) 1 1)) 1 2 =
    qstate_apply_rx (Some ket000) 1 (1 + 2) /\
  qstate_apply_ry (snd (qstate_apply_ry (Some ket000) 1 1)) 1 2 =
    qstate_apply_ry (Some ket000) 1 (1 + 2) /\
  qstate_apply_rz (snd (qstate_apply_rz (Some ket000) 1 1)) 1 2 =
    qstate_apply_rz (Some ket000) 1 (1 + 2).
Proof.
  split; [exact wf_ket000|]. split; [reflexivity|].
  exact (rotations_add ket000 1 1%R 2%R wf_ket000 eq_refl).
Defined.

(** ** What the guarded exchange loop computes *)

Lemma lxor_ne_self (i m : Z) : m <> 0 -> Z.lxor i m <> i.
Proof.
  intros Hm E. apply Hm.
  rewrite <- (lxor_twice m i), (Z.lxor_comm m i), E.
  apply Z.lxor_nilpotent.
Qed.

Lemma swap_amplitudes_get (v : list cplx) (i p j : Z) :
  0 <= i < Z.of_nat (length v) -> 0 <= p < Z.of_nat (length v) ->
  i <> p -> 0 <= j ->
  vget (swap_amplitudes v i p) j =
  if j =? p then vget v i else if j =? i then vget v p else vget v j.
Proof.
  intros Hi Hp Hne Hj.
  apply (pair_update_get (fun a0 a1 => a1) (fun a0 a1 => a0) v i p j);
    assumption.
Qed.

(** The loop shared by CNOT, SWAP and Toffoli: over all indices [i], when
    [cond i] holds and [i] is below its partner [i xor m], the two cells
    are exchanged.  When [cond] does not distinguish an index from its
    partner, every cell that satisfies [cond] ends with the old value of
    its partner and every other cell is unchanged. *)
Lemma guarded_swap_loop_pointwise (cond : Z -> bool) (m n : Z) (v0 : list cplx) :
  0 <= n -> Z.of_nat (length v0) = 2 ^ n -> 0 < m < 2 ^ n ->
  (forall i, 0 <= i < 2 ^ n -> cond (Z.lxor i m) = cond i) ->
  let v := for_upto (2 ^ n)
             (fun i v =>
                if cond i then
                  let pair_idx := Z.lxor i m in
                  if i <? pair_idx then swap_amplitudes v i pair_idx else v
                else v) v0 in
  length v = length v0 /\
  forall j, 0 <= j < 2 ^ n ->
    vget v j = if cond j then vget v0 (Z.lxor j m) else vget v0 j.
Proof.
  intros Hn Hlen Hm Hcond v.
  assert (Hpartner : forall j, 0 <= j < 2 ^ n ->
            0 <= Z.lxor j m < 2 ^ n /\ Z.lxor j m <> j /\
            Z.lxor (Z.lxor j m) m = j).
  { intros j Hj. split; [apply lxor_bound; lia|]. split.
    - apply lxor_ne_self. lia.
    - apply lxor_twice. }
  assert (H : length v = length v0 /\
              forall j, 0 <= j < 2 ^ n ->
                vget v j =
                if cond j && (Z.min j (Z.lxor j m) <? Z.of_nat (Z.to_nat (2 ^ n)))
                then vget v0 (Z.lxor j m) else vget v0 j).
  { subst v.
    apply (for_upto_inv
             (fun k v =>
                length v = length v0 /\
                forall j, 0 <= j < 2 ^ n ->
                  vget v j =
                  if cond j && (Z.min j (Z.lxor j m) <? Z.of_nat k)
                  then vget v0 (Z.lxor j m) else vget v0 j)).
    - split; [reflexivity|]. intros j Hj.
      destruct (Hpartner j Hj) as (Hq & _ & _).
      destruct (Z.ltb_spec (Z.min j (Z.lxor j m)) (Z.of_nat 0)); [lia|].
      rewrite andb_false_r. reflexivity.
    - intros k x Hk [Hl Hx].
      remember (Z.of_nat k) as i eqn:Eik.
      assert (Hi : 0 <= i < 2 ^ n) by lia.
      destruct (Hpartner i Hi) as (Hp & Hpne & Hpp).
      remember (Z.lxor i m) as p eqn:Epi.
      assert (Hside : forall j, 0 <= j < 2 ^ n ->
                (Z.lxor j m = i -> j = p) /\ (j = p -> Z.lxor j m = i)).
      { intros j Hj. split.
        - intros E. rewrite Epi, <- E. symmetry. apply lxor_twice.
        - intros ->. exact Hpp. }
      destruct (cond i) eqn:Hci.
      + cbv zeta. destruct (Z.ltb_spec i p) as [Hlt|Hge].
        * split; [unfold swap_amplitudes; rewrite !length_vset; exact Hl|].
          intros j Hj.
          destruct (Hpartner j Hj) as (Hq & Hqne & Hqq).
          destruct (Hside j Hj) as [Hs1 Hs2].
          rewrite swap_amplitudes_get by lia.
          assert (Ei : vget x i = vget v0 i).
          { rewrite Hx by lia. rewrite <- Epi.
            destruct (Z.ltb_spec (Z.min i p) i); [lia|].
            rewrite andb_false_r. reflexivity. }
          assert (Ep : vget x p = vget v0 p).
          { rewrite Hx by lia. rewrite Hpp.
            destruct (Z.ltb_spec (Z.min p i) i); [lia|].
            rewrite andb_false_r. reflexivity. }
          destruct (Z.eqb_spec j p) as [->|Njp].
          -- assert (Hcp : cond p = true)
               by (rewrite Epi, (Hcond i Hi); exact Hci).
             rewrite Ei, Hpp, Hcp.
             destruct (Z.ltb_spec (Z.min p i) (Z.of_nat (S k)));
               [reflexivity|lia].
          -- destruct (Z.eqb_spec j i) as [->|Nji].
             ++ rewrite Ep, Hci. rewrite <- Epi.
                destruct (Z.ltb_spec (Z.min i p) (Z.of_nat (S k)));
                  [reflexivity|lia].
             ++ rewrite Hx by lia.
                assert (Nq : Z.lxor j m <> i) by (intros E; apply Njp, Hs1, E).
                destruct (Z.ltb_spec (Z.min j (Z.lxor j m)) i),
                         (Z.ltb_spec (Z.min j (Z.lxor j m)) (Z.of_nat (S k)));
                  solve [reflexivity | lia].
        * split; [exact Hl|]. intros j Hj.
          destruct (Hpartner j Hj) as (Hq & Hqne & Hqq).
          destruct (Hside j Hj) as [Hs1 Hs2].
          rewrite Hx by lia.
          assert (Nmin : Z.min j (Z.lxor j m) <> i).
          { intros E.
            destruct (Z.eq_dec j i) as [->|Nji]; [rewrite <- Epi in E; lia|].
            assert (Z.lxor j m = i) as E' by lia.
            specialize (Hs1 E'). subst j. lia. }
          destruct (Z.ltb_spec (Z.min j (Z.lxor j m)) i),
                   (Z.ltb_spec (Z.min j (Z.lxor j m)) (Z.of_nat (S k)));
            solve [reflexivity | lia].
      + split; [exact Hl|]. intros j Hj.
        destruct (Hpartner j Hj) as (Hq & Hqne & Hqq).
        destruct (Hside j Hj) as [Hs1 Hs2].
        rewrite Hx by lia.
        destruct (cond j) eqn:Hcj; [|reflexivity]. simpl.
        assert (Nmin : Z.min j (Z.lxor j m) <> i).
        { intros E.
          destruct (Z.eq_dec j i) as [->|Nji]; [congruence|].
          assert (Z.lxor j m = i) as E' by lia.
          specialize (Hs1 E'). subst j.
          rewrite Epi, (Hcond i Hi) in Hcj. congruence. }
        destruct (Z.ltb_spec (Z.min j (Z.lxor j m)) i),
                 (Z.ltb_spec (Z.min j (Z.lxor j m)) (Z.of_nat (S k)));
          solve [reflexivity | lia]. }
  destruct H as [Hl Hv]. split; [exact Hl|].
  intros j Hj. rewrite Hv by exact Hj.
  destruct (Hpartner j Hj) as (Hq & _ & _).
  rewrite Z2Nat.id by lia.
  destruct (Z.ltb_spec (Z.min j (Z.lxor j m)) (2 ^ n)); [|lia].
  rewrite andb_true_r. reflexivity.
Qed.

(** ** Controlled kernels, cell by cell *)

Lemma bit_set_flip_other (i c t : Z) :
  0 <= c -> 0 <= t -> t <> c ->
  bit_set (Z.lxor i (2 ^ t)) (2 ^ c) = bit_set i (2 ^ c).
Proof.
  intros Hc Ht Hne. rewrite !bit_set_testbit by exact Hc.
  apply testbit_flip_other; assumption.
Qed.

Section Controlled.

Variable s : QuantumState.
Hypothesis Hwf : wf_state s.

Lemma mask_is_pow2 (q : Z) :
  is_valid_qubit_index (Some s) q = true ->
  shl 1 q = 2 ^ q /\ 0 <= q < num_qubits s /\ 0 < 2 ^ q < 2 ^ num_qubits s.
Proof.
  intros Hq. apply valid_index_range in Hq.
  destruct (mask_range s q Hwf Hq) as [E Hm].
  destruct Hwf as (_ & Hvs & _). rewrite Hvs in Hm. auto.
Qed.

Lemma cnot_pointwise (control target : Z) :
  is_valid_qubit_index (Some s) control = true ->
  is_valid_qubit_index (Some s) target = true ->
  control <> target ->
  exists v,
    qstate_apply_cnot (Some s) control target =
      (MACQ_SUCCESS, Some (set_state_vector s v)) /\
    length v = length (state_vector s) /\
    forall j, 0 <= j < vector_size s ->
      vget v j = if Z.testbit j control
                 then vget (state_vector s) (Z.lxor j (2 ^ target))
                 else vget (state_vector s) j.
Proof.
  intros Hc Ht Hne. unfold qstate_apply_cnot. rewrite Hc, Ht. simpl.
  destruct (Z.eqb_spec control target) as [E|_]; [contradiction|].
  destruct (mask_is_pow2 control Hc) as (-> & Hcr & _).
  destruct (mask_is_pow2 target Ht) as (-> & Htr & Htm).
  pose proof Hwf as (Hn & Hvs & Hlen). rewrite Hvs in *.
  eexists. split; [reflexivity|].
  destruct (guarded_swap_loop_pointwise (fun i => bit_set i (2 ^ control))
              (2 ^ target) (num_qubits s) (state_vector s)) as [Hl Hv].
  - lia.
  - exact Hlen.
  - exact Htm.
  - intros i Hi. apply bit_set_flip_other; lia.
  - split; [exact Hl|]. intros j Hj. rewrite Hv by exact Hj.
    rewrite bit_set_testbit by lia. reflexivity.
Qed.

Lemma toffoli_pointwise (control1 control2 target : Z) :
  is_valid_qubit_index (Some s) control1 = true ->
  is_valid_qubit_index (Some s) control2 = true ->
  is_valid_qubit_index (Some s) target = true ->
  control1 <> target -> control2 <> target ->
  exists v,
    qstate_apply_toffoli (Some s) control1 control2 target =
      (MACQ_SUCCESS, Some (set_state_vector s v)) /\
    length v = length (state_vector s) /\
    forall j, 0 <= j < vector_size s ->
      vget v j = if Z.testbit j control1 && Z.testbit j control2
                 then vget (state_vector s) (Z.lxor j (2 ^ target))
                 else vget (state_vector s) j.
Proof.
  intros Hc1 Hc2 Ht Hne1 Hne2. unfold qstate_apply_toffoli.
  rewrite Hc1, Hc2, Ht. simpl.
  destruct (mask_is_pow2 control1 Hc1) as (-> & Hcr1 & _).
  destruct (mask_is_pow2 control2 Hc2) as (-> & Hcr2 & _).
  destruct (mask_is_pow2 target Ht) as (-> & Htr & Htm).
  pose proof Hwf as (Hn & Hvs & Hlen). rewrite Hvs in *.
  eexists. split; [reflexivity|].
  destruct (guarded_swap_loop_pointwise
              (fun i => bit_set i (2 ^ control1) && bit_set i (2 ^ control2))
              (2 ^ target) (num_qubits s) (state_vector s)) as [Hl Hv].
  - lia.
  - exact Hlen.
  - exact Htm.
  - intros i Hi. rewrite !bit_set_flip_other by lia. reflexivity.
  - split; [exact Hl|]. intros j Hj. rewrite Hv by exact Hj.
    rewrite !bit_set_testbit by lia. reflexivity.
Qed.

(** The mask [2^q1 xor 2^q2] of two distinct qubits. *)
Lemma swap_mask (qubit1 qubit2 : Z) :
  0 <= qubit1 < num_qubits s -> 0 <= qubit2 < num_qubits s ->
  qubit1 <> qubit2 ->
  0 < Z.lxor (2 ^ qubit1) (2 ^ qubit2) < 2 ^ num_qubits s /\
  forall i, Z.testbit (Z.lxor i (Z.lxor (2 ^ qubit1) (2 ^ qubit2))) qubit1 =
            negb (Z.testbit i qubit1) /\
            Z.testbit (Z.lxor i (Z.lxor (2 ^ qubit1) (2 ^ qubit2))) qubit2 =
            negb (Z.testbit i qubit2).
Proof.
  intros H1 H2 Hne.
  assert (Hp1 : 0 < 2 ^ qubit1 < 2 ^ num_qubits s).
  { split; [apply Z.pow_pos_nonneg; lia|apply Z.pow_lt_mono_r; lia]. }
  assert (Hp2 : 0 < 2 ^ qubit2 < 2 ^ num_qubits s).
  { split; [apply Z.pow_pos_nonneg; lia|apply Z.pow_lt_mono_r; lia]. }
  split.
  - pose proof (lxor_bound (2 ^ qubit1) (2 ^ qubit2) (num_qubits s)
                  ltac:(lia) ltac:(lia) ltac:(lia)) as Hb.
    assert (Z.lxor (2 ^ qubit1) (2 ^ qubit2) <> 0).
    { intros E. apply Z.lxor_eq in E.
      apply Z.pow_inj_r in E; lia. }
    lia.
  - intros i. rewrite <- Z.lxor_assoc. split.
    + rewrite testbit_flip_other by lia. apply testbit_flip_same. lia.
    + rewrite testbit_flip_same by lia. rewrite testbit_flip_other by lia.
      reflexivity.
Qed.

Lemma swap_pointwise (qubit1 qubit2 : Z) :
  is_valid_qubit_index (Some s) qubit1 = true ->
  is_valid_qubit_index (Some s) qubit2 = true ->
  qubit1 <> qubit2 ->
  exists v,
    qstate_apply_swap (Some s) qubit1 qubit2 =
      (MACQ_SUCCESS, Some (set_state_vector s v)) /\
    length v = length (state_vector s) /\
    forall j, 0 <= j < vector_size s ->
      vget v j =
      if negb (Bool.eqb (Z.testbit j qubit1) (Z.testbit j qubit2))
      then vget (state_vector s) (Z.lxor (Z.lxor j (2 ^ qubit1)) (2 ^ qubit2))
      else vget (state_vector s) j.
Proof.
  intros H1 H2 Hne. unfold qstate_apply_swap. rewrite H1, H2. simpl.
  destruct (Z.eqb_spec qubit1 qubit2) as [E|_]; [contradiction|].
  destruct (mask_is_pow2 qubit1 H1) as (-> & Hr1 & _).
  destruct (mask_is_pow2 qubit2 H2) as (-> & Hr2 & _).
  destruct (swap_mask qubit1 qubit2 Hr1 Hr2 Hne) as [Hm Hbits].
  pose proof Hwf as (Hn & Hvs & Hlen). rewrite Hvs in *.
  eexists. split; [reflexivity|].
  rewrite (for_upto_ext _
             (fun i v =>
                if negb (Bool.eqb (bit_set i (2 ^ qubit1)) (bit_set i (2 ^ qubit2)))
                then let pair_idx := Z.lxor i (Z.lxor (2 ^ qubit1) (2 ^ qubit2)) in
                     if i <? pair_idx then swap_amplitudes v i pair_idx else v
                else v))
    by (intros i x _; cbv zeta; rewrite Z.lxor_assoc; reflexivity).
  destruct (guarded_swap_loop_pointwise
              (fun i => negb (Bool.eqb (bit_set i (2 ^ qubit1))
                                       (bit_set i (2 ^ qubit2))))
              (Z.lxor (2 ^ qubit1) (2 ^ qubit2)) (num_qubits s) (state_vector s))
    as [Hl Hv].
  - lia.
  - exact Hlen.
  - exact Hm.
  - intros i Hi. rewrite !bit_set_testbit by lia.
    destruct (Hbits i) as [-> ->].
    destruct (Z.testbit i qubit1), (Z.testbit i qubit2); reflexivity.
  - split; [exact Hl|]. intros j Hj. rewrite Hv by exact Hj.
    rewrite !bit_set_testbit by lia. rewrite Z.lxor_assoc. reflexivity.
Qed.

Lemma cz_pointwise (control target : Z) :
  is_valid_qubit_index (Some s) control = true ->
  is_valid_qubit_index (Some s) target = true ->
  exists v,
    qstate_apply_cz (Some s) control target =
      (MACQ_SUCCESS, Some (set_state_vector s v)) /\
    length v = length (state_vector s) /\
    forall j, 0 <= j < vector_size s ->
      vget v j = if Z.testbit j control && Z.testbit j target
                 then (- vget (state_vector s) j)%C
                 else vget (state_vector s) j.
Proof.
  intros Hc Ht. unfold qstate_apply_cz. rewrite Hc, Ht. simpl.
  destruct (mask_is_pow2 control Hc) as (-> & Hcr & _).
  destruct (mask_is_pow2 target Ht) as (-> & Htr & _).
  pose proof (wf_vector_size s Hwf) as Hsize.
  pose proof Hwf as (Hn & Hvs & Hlen).
  eexists. split; [reflexivity|].
  destruct (for_upto_pointwise
              (fun i v => if bit_set i (2 ^ control) && bit_set i (2 ^ target)
                          then vset v i (- vget v i)%C else v)
              (fun i a => if bit_set i (2 ^ control) && bit_set i (2 ^ target)
                          then (- a)%C else a)
              (state_vector s) (vector_size s)) as [Hl Hv].
  - intros i v.
    destruct (bit_set i (2 ^ control) && bit_set i (2 ^ target));
      [reflexivity|symmetry; apply vset_same].
  - lia.
  - split; [exact Hl|]. intros j Hj. rewrite Hv by exact Hj.
    rewrite !bit_set_testbit by lia. reflexivity.
Qed.

End Controlled.

Lemma lxor_pair_twice (j a b : Z) :
  Z.lxor (Z.lxor (Z.lxor (Z.lxor j a) b) a) b = j.
Proof.
  apply Z.bits_inj'. intros k _. rewrite !Z.lxor_spec.
  destruct (Z.testbit j k), (Z.testbit a k), (Z.testbit b k); reflexivity.
Qed.

Lemma get_amplitude_in_range (s : QuantumState) (v : list cplx) (j : Z) :
  j < vector_size s ->
  qstate_get_amplitude (Some (set_state_vector s v)) j = vget v j.
Proof.
  intros Hj. unfold qstate_get_amplitude. simpl.
  destruct (Z.geb_spec j (vector_size s)); [lia|reflexivity].
Qed.

Lemma flip_in_range (s : QuantumState) (j q : Z) :
  wf_state s -> is_valid_qubit_index (Some s) q = true ->
  0 <= j < vector_size s -> 0 <= Z.lxor j (2 ^ q) < vector_size s.
Proof.
  intros Hwf Hq Hj. apply flip_range; [exact Hwf| |exact Hj].
  apply valid_index_range. exact Hq.
Qed.

(** X5: on a well-formed state, for valid and distinct control and
    target, CNOT succeeds; the amplitude it leaves at index [j] is the
    old amplitude at [j] with bit [target] flipped when bit [control]
    of [j] is set, and the old amplitude at [j] otherwise; and a second
    CNOT on the same qubits gives the state back. *)
Theorem cnot_semantics (s : QuantumState) (control target : Z) :
  wf_state s ->
  is_valid_qubit_index (Some s) control = true ->
  is_valid_qubit_index (Some s) target = true ->
  control <> target ->
  let r := qstate_apply_cnot (Some s) control target in
  fst r = MACQ_SUCCESS /\
  (forall j, 0 <= j < vector_size s ->
     qstate_get_amplitude (snd r) j =
     if Z.testbit j control
     then vget (state_vector s) (Z.lxor j (2 ^ target))
     else vget (state_vector s) j) /\
  qstate_apply_cnot (snd r) control target = (MACQ_SUCCESS, Some s).
Proof.
  intros Hwf Hc Ht Hne. cbv zeta.
  destruct (cnot_pointwise s Hwf control target Hc Ht Hne) as (v & Heq & Hl & Hv).
  rewrite Heq. simpl fst. simpl snd.
  split; [reflexivity|]. split.
  - intros j Hj. rewrite get_amplitude_in_range by lia. apply Hv, Hj.
  - assert (Hwf1 : wf_state (set_state_vector s v))
      by (apply wf_set_state_vector; assumption).
    destruct (cnot_pointwise _ Hwf1 control target Hc Ht Hne)
      as (v2 & Heq2 & Hl2 & Hv2).
    rewrite Heq2, set_state_vector_twice. f_equal. f_equal.
    rewrite <- (set_state_vector_same s) at 2. f_equal.
    simpl in Hl2, Hv2. apply buffer_ext; [congruence|].
    intros j Hj. pose proof Hwf as (Hn & Hvs & Hlen).
    assert (Hj' : 0 <= j < vector_size s) by lia.
    pose proof (valid_index_range s control Hc) as Hcr.
    pose proof (valid_index_range s target Ht) as Htr.
    rewrite Hv2 by exact Hj'.
    destruct (Z.testbit j control) eqn:Hb.
    + rewrite Hv by (apply flip_in_range; assumption).
      rewrite testbit_flip_other, Hb by lia. rewrite lxor_twice. reflexivity.
    + rewrite Hv, Hb by exact Hj'. reflexivity.
Qed.

(** [cnot_semantics] at |000> with control 0 and target 2. *)
Lemma cnot_semantics_witness :
  wf_state ket000 /\
  is_valid_qubit_index (Some ket000) 0 = true /\
  is_valid_qubit_index (Some ket000) 2 = true /\ 0 <> 2 /\
  qstate_apply_cnot (snd (qstate_apply_cnot (Some ket000) 0 2)) 0 2 =
    (MACQ_SUCCESS, Some ket000).
Proof.
  assert (H02 : 0 <> 2) by lia.
  split; [exact wf_ket000|]. split; [reflexivity|]. split; [reflexivity|].
  split; [exact H02|].
  apply (cnot_semantics ket000 0 2 wf_ket000 eq_refl eq_refl H02).
Defined.

(** X6: on a well-formed state, for valid qubits with both controls
    different from the target, Toffoli succeeds; the amplitude it leaves
    at index [j] is the old amplitude at [j] with bit [target] flipped
    when bits [control1] and [control2] of [j] are both set, and the old
    amplitude at [j] otherwise; and a second Toffoli on the same qubits
    gives the state back. *)
Theorem toffoli_semantics (s : QuantumState) (control1 control2 target : Z) :
  wf_state s ->
  is_valid_qubit_index (Some s) control1 = true ->
  is_valid_qubit_index (Some s) control2 = true ->
  is_valid_qubit_index (Some s) target = true ->
  control1 <> target -> control2 <> target ->
  let r := qstate_apply_toffoli (Some s) control1 control2 target in
  fst r = MACQ_SUCCESS /\
  (forall j, 0 <= j < vector_size s ->
     qstate_get_amplitude (snd r) j =
     if Z.testbit j control1 && Z.testbit j control2
     then vget (state_vector s) (Z.lxor j (2 ^ target))
     else vget (state_vector s) j) /\
  qstate_apply_toffoli (snd r) control1 control2 target = (MACQ_SUCCESS, Some s).
Proof.
  intros Hwf Hc1 Hc2 Ht Hne1 Hne2. cbv zeta.
  destruct (toffoli_pointwise s Hwf control1 control2 target Hc1 Hc2 Ht Hne1 Hne2)
    as (v & Heq & Hl & Hv).
  rewrite Heq. simpl fst. simpl snd.
  split; [reflexivity|]. split.
  - intros j Hj. rewrite get_amplitude_in_range by lia. apply Hv, Hj.
  - assert (Hwf1 : wf_state (set_state_vector s v))
      by (apply wf_set_state_vector; assumption).
    destruct (toffoli_pointwise _ Hwf1 control1 control2 target
                Hc1 Hc2 Ht Hne1 Hne2) as (v2 & Heq2 & Hl2 & Hv2).
    rewrite Heq2, set_state_vector_twice. f_equal. f_equal.
    rewrite <- (set_state_vector_same s) at 2. f_equal.
    simpl in Hl2, Hv2. apply buffer_ext; [congruence|].
    intros j Hj. pose proof Hwf as (Hn & Hvs & Hlen).
    assert (Hj' : 0 <= j < vector_size s) by lia.
    pose proof (valid_index_range s control1 Hc1) as Hcr1.
    pose proof (valid_index_range s control2 Hc2) as Hcr2.
    pose proof (valid_index_range s target Ht) as Htr.
    rewrite Hv2 by exact Hj'.
    destruct (Z.testbit j control1 && Z.testbit j control2) eqn:Hb.
    + rewrite Hv by (apply flip_in_range; assumption).
      rewrite !testbit_flip_other, Hb by lia. rewrite lxor_twice. reflexivity.
    + rewrite Hv, Hb by exact Hj'. reflexivity.
Qed.

(** [toffoli_semantics] at |000> with controls 0, 1 and target 2. *)
Lemma toffoli_semantics_witness :
  wf_state ket000 /\
  is_valid_qubit_index (Some ket000) 0 = true /\
  is_valid_qubit_index (Some ket000) 1 = true /\
  is_valid_qubit_index (Some ket000) 2 = true /\ 0 <> 2 /\ 1 <> 2 /\
  qstate_apply_toffoli (snd (qstate_apply_toffoli (Some ket000) 0 1 2)) 0 1 2 =
    (MACQ_SUCCESS, Some ket000).
Proof.
  assert (H02 : 0 <> 2) by lia. assert (H12 : 1 <> 2) by lia.
  split; [exact wf_ket000|]. do 3 (split; [reflexivity|]).
  split; [exact H02|]. split; [exact H12|].
  apply (toffoli_semantics ket000 0 1 2 wf_ket000 eq_refl eq_refl eq_refl H02 H12).
Defined.

(** X7: on a well-formed state, for valid and distinct qubits, SWAP
    succeeds; the amplitude it leaves at index [j] is the old amplitude
    at the index with bits [qubit1] and [qubit2] both flipped when the
    two bits of [j] differ (that is, with the two bits exchanged), and
    the old amplitude at [j] when they agree; the order of the two
    arguments does not matter; and a second SWAP gives the state back. *)
Theorem swap_semantics (s : QuantumState) (qubit1 qubit2 : Z) :
  wf_state s ->
  is_valid_qubit_index (Some s) qubit1 = true ->
  is_valid_qubit_index (Some s) qubit2 = true ->
  qubit1 <> qubit2 ->
  let r := qstate_apply_swap (Some s) qubit1 qubit2 in
  fst r = MACQ_SUCCESS /\
  (forall j, 0 <= j < vector_size s ->
     qstate_get_amplitude (snd r) j =
     if negb (Bool.eqb (Z.testbit j qubit1) (Z.testbit j qubit2))
     then vget (state_vector s) (Z.lxor (Z.lxor j (2 ^ qubit1)) (2 ^ qubit2))
     else vget (state_vector s) j) /\
  qstate_apply_swap (Some s) qubit2 qubit1 = r /\
  qstate_apply_swap (snd r) qubit1 qubit2 = (MACQ_SUCCESS, Some s).
Proof.
  intros Hwf H1 H2 Hne. cbv zeta.
  destruct (swap_pointwise s Hwf qubit1 qubit2 H1 H2 Hne) as (v & Heq & Hl & Hv).
  assert (Hne' : qubit2 <> qubit1) by congruence.
  destruct (swap_pointwise s Hwf qubit2 qubit1 H2 H1 Hne') as (v' & Heq' & Hl' & Hv').
  rewrite Heq. simpl fst. simpl snd.
  pose proof (valid_index_range s qubit1 H1) as Hr1.
  pose proof (valid_index_range s qubit2 H2) as Hr2.
  pose proof Hwf as (Hn & Hvs & Hlen).
  split; [reflexivity|]. split; [|split].
  - intros j Hj. rewrite get_amplitude_in_range by lia. apply Hv, Hj.
  - rewrite Heq'. f_equal. f_equal. f_equal.
    apply buffer_ext; [congruence|].
    intros j Hj. rewrite Hv, Hv' by lia.
    rewrite (Z.lxor_assoc j (2 ^ qubit2)), (Z.lxor_comm (2 ^ qubit2)),
      <- Z.lxor_assoc.
    destruct (Z.testbit j qubit1), (Z.testbit j qubit2); reflexivity.
  - assert (Hwf1 : wf_state (set_state_vector s v))
      by (apply wf_set_state_vector; assumption).
    destruct (swap_pointwise _ Hwf1 qubit1 qubit2 H1 H2 Hne)
      as (v2 & Heq2 & Hl2 & Hv2).
    rewrite Heq2, set_state_vector_twice. f_equal. f_equal.
    rewrite <- (set_state_vector_same s) at 2. f_equal.
    simpl in Hl2, Hv2. apply buffer_ext; [congruence|].
    intros j Hj. assert (Hj' : 0 <= j < vector_size s) by lia.
    rewrite Hv2 by exact Hj'.
    destruct (negb (Bool.eqb (Z.testbit j qubit1) (Z.testbit j qubit2))) eqn:Hb.
    + assert (Hin : 0 <= Z.lxor (Z.lxor j (2 ^ qubit1)) (2 ^ qubit2)
                    < vector_size s).
      { apply flip_in_range; [exact Hwf|exact H2|].
        apply flip_in_range; assumption. }
      rewrite Hv by exact Hin.
      rewrite (testbit_flip_other _ qubit2 qubit1) by lia.
      rewrite (testbit_flip_same _ qubit1) by lia.
      rewrite (testbit_flip_same _ qubit2) by lia.
      rewrite (testbit_flip_other _ qubit1 qubit2) by lia.
      replace (negb (Bool.eqb (negb (Z.testbit j qubit1))
                              (negb (Z.testbit j qubit2)))) with true
        by (destruct (Z.testbit j qubit1), (Z.testbit j qubit2);
            simpl in Hb |- *; congruence).
      rewrite lxor_pair_twice. reflexivity.
    + rewrite Hv, Hb by exact Hj'. reflexivity.
Qed.

(** [swap_semantics] at |000> with qubits 0 and 2. *)
Lemma swap_semantics_witness :
  wf_state ket000 /\
  is_valid_qubit_index (Some ket000) 0 = true /\
  is_valid_qubit_index (Some ket000) 2 = true /\ 0 <> 2 /\
  qstate_apply_swap (Some ket000) 2 0 = qstate_apply_swap (Some ket000) 0 2 /\
  qstate_apply_swap (snd (qstate_apply_swap (Some ket000) 0 2)) 0 2 =
    (MACQ_SUCCESS, Some ket000).
Proof.
  assert (H02 : 0 <> 2) by lia.
  split; [exact wf_ket000|]. split; [reflexivity|]. split; [reflexivity|].
  split; [exact H02|].
  apply (swap_semantics ket000 0 2 wf_ket000 eq_refl eq_refl H02).
Defined.

(** X8: on a well-formed state and valid qubits (equal or not), CZ
    succeeds; it negates the amplitude at every index whose [control]
    and [target] bits are both set and leaves the others; the order of
    the two arguments does not matter; and a second CZ gives the state
    back. *)
Theorem cz_semantics (s : QuantumState) (control target : Z) :
  wf_state s ->
  is_valid_qubit_index (Some s) control = true ->
  is_valid_qubit_index (Some s) target = true ->
  let r := qstate_apply_cz (Some s) control target in
  fst r = MACQ_SUCCESS /\
  (forall j, 0 <= j < vector_size s ->
     qstate_get_amplitude (snd r) j =
     if Z.testbit j control && Z.testbit j target
     then (- vget (state_vector s) j)%C
     else vget (state_vector s) j) /\
  qstate_apply_cz (Some s) target control = r /\
  qstate_apply_cz (snd r) control target = (MACQ_SUCCESS, Some s).
Proof.
  intros Hwf Hc Ht. cbv zeta.
  destruct (cz_pointwise s Hwf control target Hc Ht) as (v & Heq & Hl & Hv).
  destruct (cz_pointwise s Hwf target control Ht Hc) as (v' & Heq' & Hl' & Hv').
  rewrite Heq. simpl fst. simpl snd.
  pose proof Hwf as (Hn & Hvs & Hlen).
  split; [reflexivity|]. split; [|split].
  - intros j Hj. rewrite get_amplitude_in_range by lia. apply Hv, Hj.
  - rewrite Heq'. f_equal. f_equal. f_equal.
    apply buffer_ext; [congruence|].
    intros j Hj. rewrite Hv, Hv' by lia. rewrite andb_comm. reflexivity.
  - assert (Hwf1 : wf_state (set_state_vector s v))
      by (apply wf_set_state_vector; assumption).
    destruct (cz_pointwise _ Hwf1 control target Hc Ht)
      as (v2 & Heq2 & Hl2 & Hv2).
    rewrite Heq2, set_state_vector_twice. f_equal. f_equal.
    rewrite <- (set_state_vector_same s) at 2. f_equal.
    simpl in Hl2, Hv2. apply buffer_ext; [congruence|].
    intros j Hj. assert (Hj' : 0 <= j < vector_size s) by lia.
    rewrite Hv2, Hv by exact Hj'.
    destruct (Z.testbit j control && Z.testbit j target); [|reflexivity].
    apply cplx_eq; simpl; ring.
Qed.

(** [cz_semantics] at |000> with control 0 and target 1. *)
Lemma cz_semantics_witness :
  wf_state ket000 /\
  is_valid_qubit_index (Some ket000) 0 = true /\
  is_valid_qubit_index (Some ket000) 1 = true /\
  qstate_apply_cz (Some ket000) 1 0 = qstate_apply_cz (Some ket000) 0 1 /\
  qstate_apply_cz (snd (qstate_apply_cz (Some ket000) 0 1)) 0 1 =
    (MACQ_SUCCESS, Some ket000).
Proof.
  split; [exact wf_ket000|]. split; [reflexivity|]. split; [reflexivity|].
  apply (cz_semantics ket000 0 1 wf_ket000 eq_refl eq_refl).
Defined.

(** ** Creation and basis states *)

Lemma psum_zero (f : Z -> R) (n : nat) :
  (forall i, 0 <= i < Z.of_nat n -> f i = 0%R) -> psum f n = 0%R.
Proof.
  induction n as [|k IH]; intros H; simpl; [reflexivity|].
  rewrite IH by (intros i Hi; apply H; lia).
  rewrite (H (Z.of_nat k)) by lia. ring.
Qed.

Lemma vget_replicate_zero (n : nat) (j : Z) :
  0 <= j < Z.of_nat n -> vget (replicate n (RtoC 0)) j = RtoC 0.
Proof.
  intros Hj. unfold vget. apply lookup_total_replicate_2. lia.
Qed.

Lemma basis_vector_length (n : nat) (index : Z) :
  length (basis_vector n index) = n.
Proof. unfold basis_vector. rewrite length_vset. apply length_replicate. Qed.

Lemma basis_vector_get (n : nat) (index j : Z) :
  0 <= index < Z.of_nat n -> 0 <= j < Z.of_nat n ->
  vget (basis_vector n index) j = if j =? index then Cplx 1 0 else RtoC 0.
Proof.
  intros Hi Hj. unfold basis_vector.
  destruct (Z.eqb_spec j index) as [->|Hne].
  - apply vget_vset_eq. rewrite length_replicate. lia.
  - rewrite vget_vset_ne by lia. apply vget_replicate_zero. lia.
Qed.

Lemma basis_vector_sum (n : nat) (index : Z) :
  0 <= index < Z.of_nat n -> sum_sqmag (basis_vector n index) n = 1%R.
Proof.
  intros Hi. unfold basis_vector.
  rewrite sum_sqmag_vset by (rewrite ?length_replicate; lia).
  rewrite vget_replicate_zero by lia.
  unfold sum_sqmag. rewrite psum_zero.
  - unfold sqmag; simpl. ring.
  - intros i Hi'. rewrite vget_replicate_zero by lia. unfold sqmag; simpl. ring.
Qed.

Lemma basis_state_norm (s : QuantumState) (index : Z) :
  0 <= index < vector_size s ->
  qstate_norm
    (Some (set_state_vector s (basis_vector (Z.to_nat (vector_size s)) index)))
  = 1%R.
Proof.
  intros Hi. unfold qstate_norm. rewrite norm_squared_sum. simpl.
  rewrite basis_vector_sum by lia. apply sqrt_1.
Qed.

(** X9: [qstate_create] returns NULL whenever the qubit count is
    outside 1..30, before anything is allocated.  For a count inside
    1..30 and allocations that succeed it returns a well-formed state
    of that many qubits whose buffer holds 1 at index 0 and 0
    elsewhere, with the acceleration flag set, the cached norm 1 and a
    computed norm of 1; so, allocations succeeding, the result is NULL
    exactly for the counts outside 1..30. *)
Theorem create_spec (n : Z) :
  (n < 1 \/ MAX_QUBITS < n ->
   forall alloc_ok, qstate_create alloc_ok n = None) /\
  (1 <= n <= MAX_QUBITS ->
   exists s,
     qstate_create true n = Some s /\
     wf_state s /\ num_qubits s = n /\
     state_vector s = basis_vector (Z.to_nat (2 ^ n)) 0 /\
     use_accelerate s = true /\ norm s = 1%R /\
     qstate_norm (Some s) = 1%R) /\
  (qstate_create true n = None <-> n < 1 \/ MAX_QUBITS < n).
Proof.
  assert (Hout : n < 1 \/ MAX_QUBITS < n ->
                 forall alloc_ok, qstate_create alloc_ok n = None).
  { unfold qstate_create, MAX_QUBITS. intros H alloc_ok.
    destruct (Z.ltb_spec n 1) as [Hlo|Hlo]; simpl; [reflexivity|].
    destruct (Z.gtb_spec n 30) as [Hhi|Hhi]; simpl; [reflexivity|lia]. }
  assert (Hin : 1 <= n <= MAX_QUBITS ->
                qstate_create true n =
                Some (mkQuantumState n (2 ^ n)
                        (basis_vector (Z.to_nat (2 ^ n)) 0) true 1)).
  { unfold qstate_create, MAX_QUBITS. intros H.
    destruct (Z.ltb_spec n 1) as [Hlo|Hlo]; simpl; [lia|].
    destruct (Z.gtb_spec n 30) as [Hhi|Hhi]; simpl; [lia|].
    rewrite shl_1 by lia. reflexivity. }
  split; [exact Hout|]. split.
  - intros H. eexists. split; [apply Hin; exact H|].
    unfold MAX_QUBITS in H.
    pose proof (pow2_le_30 n ltac:(lia)) as Hp.
    assert (Hwf : wf_state (mkQuantumState n (2 ^ n)
                              (basis_vector (Z.to_nat (2 ^ n)) 0) true 1)).
    { unfold wf_state, MAX_QUBITS, basis_vector. simpl.
      rewrite length_vset, length_replicate. repeat split; lia. }
    repeat match goal with |- _ /\ _ => split end;
      try reflexivity; try exact Hwf.
    apply (basis_state_norm (mkQuantumState n (2 ^ n) [] true 1) 0). simpl. lia.
  - split; [|intros H; apply Hout; exact H].
    intros Hnone.
    destruct (Z.lt_ge_cases n 1) as [Hlo|Hlo]; [left; exact Hlo|].
    destruct (Z.lt_ge_cases MAX_QUBITS n) as [Hhi|Hhi]; [right; exact Hhi|].
    rewrite Hin in Hnone by lia. discriminate Hnone.
Qed.

(** [create_spec] at 0 qubits (rejected) and at 3 qubits (|000>). *)
Lemma create_spec_witness :
  (0 < 1 \/ MAX_QUBITS < 0) /\ 1 <= 3 <= MAX_QUBITS /\
  qstate_create false 0 = None /\ qstate_create true 0 = None /\
  exists s, qstate_create true 3 = Some s /\ wf_state s /\ num_qubits s = 3.
Proof.
  assert (H0 : 0 < 1 \/ MAX_QUBITS < 0) by (left; lia).
  assert (H3 : 1 <= 3 <= MAX_QUBITS) by (unfold MAX_QUBITS; lia).
  split; [exact H0|]. split; [exact H3|].
  split; [exact (proj1 (create_spec 0) H0 false)|].
  split; [exact (proj1 (create_spec 0) H0 true)|].
  destruct (proj1 (proj2 (create_spec 3)) H3) as (s & Hs & Hwf & Hn & _).
  exists s. split; [exact Hs|]. split; [exact Hwf|exact Hn].
Defined.

Lemma testbit_above (a i q : Z) :
  0 <= a < 2 ^ i -> 0 <= i <= q -> Z.testbit a q = false.
Proof.
  intros Ha Hq. rewrite <- (Z.mod_small a (2 ^ i)) by exact Ha.
  apply Z.mod_pow2_bits_high. exact Hq.
Qed.

Lemma lor_fresh_bit (a i : Z) :
  0 <= i -> 0 <= a < 2 ^ i ->
  Z.lor a (2 ^ i) = a + 2 ^ i /\ 0 <= Z.lor a (2 ^ i) < 2 ^ (i + 1).
Proof.
  intros Hi Ha.
  assert (Hb : Z.testbit a i = false) by (apply (testbit_above a i i); lia).
  assert (E : Z.lor a (2 ^ i) = a + 2 ^ i).
  { rewrite <- flip_bit_clear by assumption.
    symmetry. apply Z.lxor_lor.
    pose proof (bit_set_testbit a i Hi) as H. rewrite Hb in H.
    unfold bit_set in H.
    destruct (Z.eqb_spec (Z.land a (2 ^ i)) 0); [assumption|discriminate]. }
  split; [exact E|]. rewrite E, Z.pow_add_r by lia. change (2 ^ 1) with 2. lia.
Qed.

(** The index loop of [qstate_init_basis] on a binary string: it runs to
    the end, and bit [q] of the index it returns is set exactly when
    the character for position [q] is '1'. *)
Lemma init_basis_index_bits (bits : list ascii) (i acc : Z) :
  binary_string bits -> 0 <= i -> i + Z.of_nat (length bits) <= 30 ->
  0 <= acc < 2 ^ i ->
  exists r,
    init_basis_index bits i acc = Some r /\
    0 <= r < 2 ^ (i + Z.of_nat (length bits)) /\
    forall q, 0 <= q ->
      Z.testbit r q =
      if q <? i then Z.testbit acc q
      else Ascii.eqb (nth (Z.to_nat (q - i)) bits "0"%char) "1"%char.
Proof.
  intros Hbin. revert i acc.
  induction Hbin as [|c rest Hc _ IH]; intros i acc Hi Hlen Hacc.
  - exists acc. simpl. split; [reflexivity|]. split.
    + rewrite Z.add_0_r. exact Hacc.
    + intros q Hq. destruct (Z.ltb_spec q i); [reflexivity|].
      rewrite (testbit_above acc i q) by lia.
      destruct (Z.to_nat (q - i)); reflexivity.
  - simpl length in Hlen. simpl init_basis_index.
    destruct (lor_fresh_bit acc i Hi Hacc) as [_ Hlor].
    destruct Hc as [-> | ->]; simpl.
    + destruct (IH (i + 1) acc ltac:(lia) ltac:(lia)) as (r & Hr & Hb & Hbits).
      { rewrite Z.pow_add_r by lia. change (2 ^ 1) with 2. lia. }
      exists r. split; [exact Hr|]. split.
      * replace (i + Z.of_nat (S (length rest)))
          with (i + 1 + Z.of_nat (length rest)) by lia. exact Hb.
      * intros q Hq. rewrite Hbits by exact Hq.
        destruct (Z.ltb_spec q (i + 1)), (Z.ltb_spec q i); try lia.
        -- reflexivity.
        -- assert (q = i) by lia. subst q.
           rewrite (testbit_above acc i i) by lia.
           rewrite Z.sub_diag. reflexivity.
        -- replace (Z.to_nat (q - i)) with (S (Z.to_nat (q - (i + 1)))) by lia.
           reflexivity.
    + rewrite shl_1 by lia.
      destruct (IH (i + 1) (Z.lor acc (2 ^ i)) ltac:(lia) ltac:(lia) Hlor)
        as (r & Hr & Hb & Hbits).
      exists r. split; [exact Hr|]. split.
      * replace (i + Z.of_nat (S (length rest)))
          with (i + 1 + Z.of_nat (length rest)) by lia. exact Hb.
      * intros q Hq. rewrite Hbits by exact Hq.
        destruct (Z.ltb_spec q (i + 1)), (Z.ltb_spec q i); try lia.
        -- rewrite Z.lor_spec, Z.pow2_bits_false by lia. apply orb_false_r.
        -- assert (q = i) by lia. subst q.
           rewrite Z.lor_spec, Z.pow2_bits_true by lia.
           rewrite Z.sub_diag, orb_true_r. reflexivity.
        -- replace (Z.to_nat (q - i)) with (S (Z.to_nat (q - (i + 1)))) by lia.
           reflexivity.
Qed.

(** X10: on a well-formed state and a bitstring of [num_qubits]
    characters, all '0' or '1', [qstate_init_basis] succeeds and leaves
    the buffer with 1 at one index and 0 elsewhere; bit [q] of that
    index is set exactly when character [q] of the string is '1'; the
    resulting state is well formed, its cached norm is 1 and its
    computed norm is 1. *)
Theorem init_basis_spec (s : QuantumState) (str : string) :
  wf_state s ->
  Z.of_nat (String.length str) = num_qubits s ->
  binary_string (list_ascii_of_string str) ->
  exists index s',
    qstate_init_basis (Some s) (Some str) = (MACQ_SUCCESS, Some s') /\
    0 <= index < vector_size s /\
    (forall q, 0 <= q ->
       Z.testbit index q =
       Ascii.eqb (nth (Z.to_nat q) (list_ascii_of_string str) "0"%char) "1"%char) /\
    state_vector s' = basis_vector (Z.to_nat (vector_size s)) index /\
    wf_state s' /\ norm s' = 1%R /\ qstate_norm (Some s') = 1%R.
Proof.
  intros Hwf Hlen Hbin. pose proof Hwf as (Hn & Hvs & Hl). unfold MAX_QUBITS in Hn.
  destruct (init_basis_index_bits (list_ascii_of_string str) 0 0 Hbin)
    as (index & Hidx & Hrange & Hbits).
  { lia. }
  { rewrite length_list_ascii. lia. }
  { simpl. lia. }
  rewrite length_list_ascii, Hlen, Z.add_0_l, <- Hvs in Hrange.
  unfold qstate_init_basis.
  destruct (init_basis_short_string str ltac:(unfold INT_MAX; lia)) as [-> ->].
  rewrite Hlen, Z.eqb_refl. simpl negb. cbv iota.
  rewrite Hidx. eexists index, _. split; [reflexivity|].
  split; [exact Hrange|]. split.
  { intros q Hq. rewrite Hbits by exact Hq.
    destruct (Z.ltb_spec q 0); [lia|]. rewrite Z.sub_0_r. reflexivity. }
  simpl. split; [reflexivity|]. split; [|split; [reflexivity|]].
  - unfold wf_state. simpl. rewrite length_vset, length_replicate.
    unfold MAX_QUBITS. repeat split; lia.
  - apply (basis_state_norm
             (mkQuantumState (num_qubits s) (vector_size s) [] true 1) index).
    exact Hrange.
Qed.

(** [init_basis_spec] at |000> and the bitstring "101" (index 5). *)
Lemma init_basis_spec_witness :
  wf_state ket000 /\
  Z.of_nat (String.length "101") = num_qubits ket000 /\
  binary_string (list_ascii_of_string "101") /\
  exists index s',
    qstate_init_basis (Some ket000) (Some "101"%string) = (MACQ_SUCCESS, Some s') /\
    0 <= index < vector_size ket000 /\
    (forall q, 0 <= q ->
       Z.testbit index q =
       Ascii.eqb (nth (Z.to_nat q) (list_ascii_of_string "101") "0"%char) "1"%char) /\
    state_vector s' = basis_vector (Z.to_nat (vector_size ket000)) index /\
    wf_state s' /\ norm s' = 1%R /\ qstate_norm (Some s') = 1%R.
Proof.
  assert (Hbin : binary_string (list_ascii_of_string "101")).
  { unfold binary_string. simpl.
    repeat (constructor; [first [left; reflexivity|right; reflexivity]|]).
    constructor. }
  split; [exact wf_ket000|]. split; [reflexivity|]. split; [exact Hbin|].
  exact (init_basis_spec ket000 "101" wf_ket000 eq_refl Hbin).
Defined.

Lemma binary_or_invalid (bits : list ascii) :
  binary_string bits \/
  exists c, In c bits /\ c <> "0"%char /\ c <> "1"%char.
Proof.
  induction bits as [|c rest IH].
  - left. constructor.
  - destruct IH as [Hb|(d & Hin & Hd)].
    + destruct (Ascii.eqb_spec c "0"%char) as [E0|N0].
      * left. constructor; [left; exact E0|exact Hb].
      * destruct (Ascii.eqb_spec c "1"%char) as [E1|N1].
        -- left. constructor; [right; exact E1|exact Hb].
        -- right. exists c. split; [left; reflexivity|split; assumption].
    + right. exists d. split; [right; exact Hin|exact Hd].
Qed.

Lemma binary_not_invalid (bits : list ascii) :
  binary_string bits ->
  ~ exists c, In c bits /\ c <> "0"%char /\ c <> "1"%char.
Proof.
  intros Hb (c & Hin & H0 & H1). unfold binary_string in Hb.
  rewrite List.Forall_forall in Hb. destruct (Hb c Hin); contradiction.
Qed.

(** X11: on a well-formed state and a string of at most [INT_MAX]
    characters (so that [(int)strlen] is the length),
    [qstate_init_basis] succeeds exactly when the string has
    [num_qubits] characters that are all '0' or '1'; in every other case
    it returns the invalid-index error, and on a length mismatch the
    state is left as it was.  A null state or a null string gives the
    null-pointer error with nothing changed. *)
Theorem init_basis_outcomes (s : QuantumState) (str : string) :
  wf_state s ->
  Z.of_nat (String.length str) <= INT_MAX ->
  let r := qstate_init_basis (Some s) (Some str) in
  let right_length := Z.of_nat (String.length str) = num_qubits s in
  (fst r = MACQ_SUCCESS <->
   right_length /\ binary_string (list_ascii_of_string str)) /\
  (fst r <> MACQ_SUCCESS -> fst r = MACQ_ERROR_INVALID_INDEX) /\
  (~ right_length -> r = (MACQ_ERROR_INVALID_INDEX, Some s)) /\
  qstate_init_basis None (Some str) = (MACQ_ERROR_NULL_POINTER, None) /\
  qstate_init_basis (Some s) None = (MACQ_ERROR_NULL_POINTER, Some s).
Proof.
  intros Hwf Hshort. cbv zeta.
  destruct (init_basis_short_string str Hshort) as [Ecast Etake].
  destruct (Z.eq_dec (Z.of_nat (String.length str)) (num_qubits s)) as [Hlen|Hlen].
  - destruct (binary_or_invalid (list_ascii_of_string str)) as [Hb|Hbad].
    + assert (Hfit : 0 + Z.of_nat (length (list_ascii_of_string str)) <= 30).
      { rewrite length_list_ascii, Hlen.
        destruct Hwf as (Hn & _). unfold MAX_QUBITS in Hn. lia. }
      destruct (init_basis_index_bits (list_ascii_of_string str) 0 0 Hb
                  ltac:(lia) Hfit ltac:(simpl; lia)) as (index & Hidx & _).
      unfold qstate_init_basis. cbv zeta. rewrite Etake, Ecast.
      destruct (Z.eqb_spec (Z.of_nat (String.length str)) (num_qubits s))
        as [_|N]; [|contradiction].
      simpl negb. cbv iota. rewrite Hidx. simpl.
      split; [split; [intros _; split; assumption|reflexivity]|].
      split; [intros H; exfalso; apply H; reflexivity|].
      split; [intros H; contradiction|]. split; reflexivity.
    + rewrite (init_basis_invalid_char s str Hlen ltac:(lia) Hbad). simpl.
      split; [split; [intros H; discriminate H|]|].
      { intros [_ Hb]. exfalso. exact (binary_not_invalid _ Hb Hbad). }
      split; [reflexivity|].
      split; [intros H; contradiction|]. split; reflexivity.
  - assert (Heq : qstate_init_basis (Some s) (Some str) =
                  (MACQ_ERROR_INVALID_INDEX, Some s)).
    { unfold qstate_init_basis. rewrite Ecast.
      destruct (Z.eqb_spec (Z.of_nat (String.length str)) (num_qubits s));
        [contradiction|reflexivity]. }
    rewrite Heq. simpl.
    split; [split; [intros H; discriminate H|intros [H _]; contradiction]|].
    split; [reflexivity|]. split; [reflexivity|]. split; reflexivity.
Qed.

(** [init_basis_outcomes] at |000>: "101" succeeds, "10" is rejected
    with the state untouched. *)
Lemma init_basis_outcomes_witness :
  wf_state ket000 /\
  Z.of_nat (String.length "101") <= INT_MAX /\
  Z.of_nat (String.length "10") <= INT_MAX /\
  fst (qstate_init_basis (Some ket000) (Some "101"%string)) = MACQ_SUCCESS /\
  qstate_init_basis (Some ket000) (Some "10"%string) =
    (MACQ_ERROR_INVALID_INDEX, Some ket000).
Proof.
  assert (H3 : Z.of_nat (String.length "101") <= INT_MAX)
    by (unfold INT_MAX; simpl; lia).
  assert (H2 : Z.of_nat (String.length "10") <= INT_MAX)
    by (unfold INT_MAX; simpl; lia).
  split; [exact wf_ket000|]. split; [exact H3|]. split; [exact H2|]. split.
  - apply (init_basis_outcomes ket000 "101" wf_ket000 H3). split; [reflexivity|].
    unfold binary_string. simpl.
    repeat (constructor; [first [left; reflexivity|right; reflexivity]|]).
    constructor.
  - apply (init_basis_outcomes ket000 "10" wf_ket000 H2). simpl. lia.
Defined.

(** ** Amplitude access, cloning, normalisation *)

(** X12: on a state whose buffer has [vector_size] cells,
    [qstate_set_amplitude] at an index in range succeeds, after which
    [qstate_get_amplitude] returns the written value at that index and
    the old value at every other index; at an index beyond the range it
    returns the invalid-index error and changes nothing. *)
Theorem set_get_amplitude (s : QuantumState) (i j : Z) (a : cplx) :
  Z.of_nat (length (state_vector s)) = vector_size s ->
  0 <= i -> 0 <= j ->
  let r := qstate_set_amplitude (Some s) i a in
  (i < vector_size s ->
   fst r = MACQ_SUCCESS /\
   qstate_get_amplitude (snd r) i = a /\
   (j <> i -> qstate_get_amplitude (snd r) j = qstate_get_amplitude (Some s) j)) /\
  (vector_size s <= i -> r = (MACQ_ERROR_INVALID_INDEX, Some s)).
Proof.
  intros Hlen Hi Hj. cbv zeta. unfold qstate_set_amplitude.
  destruct (Z.geb_spec i (vector_size s)) as [Hge|Hlt]; split; try lia.
  - intros _. reflexivity.
  - intros _. split; [reflexivity|]. simpl snd. split.
    + rewrite get_amplitude_in_range by lia. apply vget_vset_eq. lia.
    + intros Hne. unfold qstate_get_amplitude. simpl.
      destruct (j >=? vector_size s); [reflexivity|].
      apply vget_vset_ne; lia.
Qed.

(** [set_get_amplitude] on |0>: writing index 1 and reading 1 and 0. *)
Lemma set_get_amplitude_witness :
  Z.of_nat (length (state_vector ket0)) = vector_size ket0 /\
  0 <= 1 /\ 0 <= 0 /\
  qstate_get_amplitude (snd (qstate_set_amplitude (Some ket0) 1 Ci)) 1 = Ci /\
  qstate_get_amplitude (snd (qstate_set_amplitude (Some ket0) 1 Ci)) 0 =
    qstate_get_amplitude (Some ket0) 0.
Proof.
  assert (Hl : Z.of_nat (length (state_vector ket0)) = vector_size ket0)
    by reflexivity.
  assert (H1 : 0 <= 1) by lia. assert (H0 : 0 <= 0) by lia.
  destruct (set_get_amplitude ket0 1 0 Ci Hl H1 H0) as [H _].
  destruct (H ltac:(simpl; lia)) as (_ & Hsame & Hother).
  split; [exact Hl|]. split; [exact H1|]. split; [exact H0|].
  split; [exact Hsame|]. apply Hother. lia.
Defined.

(** X13: [qstate_clone] of a well-formed state, when the allocations
    succeed, is a state with the same qubit count, vector size,
    amplitudes and cached norm and with the acceleration flag set (the
    flag is not copied from the source); the clone has the same computed
    norm.  It is NULL for a null source. *)
Theorem clone_spec (s : QuantumState) :
  wf_state s ->
  qstate_clone true (Some s) =
    Some (mkQuantumState (num_qubits s) (vector_size s) (state_vector s)
                         true (norm s)) /\
  qstate_norm (qstate_clone true (Some s)) = qstate_norm (Some s) /\
  (forall j, qstate_get_amplitude (qstate_clone true (Some s)) j =
             qstate_get_amplitude (Some s) j) /\
  (forall alloc_ok, qstate_clone alloc_ok None = None).
Proof.
  intros (Hn & Hvs & Hlen).
  assert (E : qstate_clone true (Some s) =
              Some (mkQuantumState (num_qubits s) (vector_size s)
                      (state_vector s) true (norm s))).
  { unfold qstate_clone, qstate_create. unfold MAX_QUBITS in *.
    destruct (Z.ltb_spec (num_qubits s) 1); [lia|].
    destruct (Z.gtb_spec (num_qubits s) 30); [lia|]. simpl.
    rewrite shl_1 by lia. unfold set_norm, set_state_vector. simpl.
    rewrite Hvs. reflexivity. }
  split; [exact E|]. rewrite E. split; [reflexivity|]. split; reflexivity.
Qed.

(** [clone_spec] on the one-qubit state with amplitudes 3 and 4, the
    acceleration flag cleared and a cached norm of 7: the clone has the
    amplitudes and the cached norm, and the flag set. *)
Lemma clone_spec_witness :
  let s := mkQuantumState 1 2 [Cplx 3 0; Cplx 4 0] false 7 in
  wf_state s /\
  qstate_clone true (Some s) =
    Some (mkQuantumState 1 2 [Cplx 3 0; Cplx 4 0] true 7).
Proof.
  cbv zeta.
  assert (Hwf : wf_state (mkQuantumState 1 2 [Cplx 3 0; Cplx 4 0] false 7))
    by (unfold wf_state, MAX_QUBITS; simpl; repeat split; lia).
  split; [exact Hwf|].
  exact (proj1 (clone_spec _ Hwf)).
Defined.

Lemma sqrt_pos_arg (x : R) : (0 < sqrt x)%R -> (0 < x)%R.
Proof.
  intros H. destruct (Rle_or_lt x 0) as [Hle|Hlt]; [|exact Hlt].
  rewrite (sqrt_neg_0 x Hle) in H. lra.
Qed.

(** The successful run of [qstate_normalize], cell by cell. *)
Lemma normalize_pointwise (s : QuantumState) :
  wf_state s -> ~ (qstate_norm (Some s) < 1 / 10 ^ 10)%R ->
  exists v,
    qstate_normalize (Some s) =
      (MACQ_SUCCESS, Some (set_norm (set_state_vector s v) 1)) /\
    length v = length (state_vector s) /\
    forall i, 0 <= i < vector_size s ->
      vget v i = Cdiv_r (vget (state_vector s) i) (qstate_norm (Some s)).
Proof.
  intros Hwf Hnorm. pose proof (wf_vector_size s Hwf) as Hsize.
  pose proof Hwf as (_ & _ & Hlen). unfold qstate_normalize.
  destruct (Rlt_dec (qstate_norm (Some s)) (1 / 10 ^ 10)); [contradiction|].
  eexists. split; [reflexivity|].
  apply (for_upto_pointwise _ (fun _ a => Cdiv_r a (qstate_norm (Some s)))).
  - intros i v. reflexivity.
  - lia.
Qed.

(** X14: on a well-formed state whose norm is at least [1e-10],
    [qstate_normalize] succeeds and the resulting state has computed
    norm 1 and cached norm 1. *)
Theorem normalize_unit_norm (s : QuantumState) :
  wf_state s -> (qstate_norm (Some s) >= 1 / 10 ^ 10)%R ->
  let r := qstate_normalize (Some s) in
  fst r = MACQ_SUCCESS /\
  qstate_norm (snd r) = 1%R /\
  cached_norm (snd r) = Some 1%R.
Proof.
  intros Hwf Hnorm. cbv zeta.
  destruct (normalize_pointwise s Hwf ltac:(lra)) as (v & Heq & Hl & Hv).
  rewrite Heq. simpl fst. simpl snd.
  split; [reflexivity|]. split; [|reflexivity].
  assert (Hpos : (0 < qstate_norm (Some s))%R).
  { apply Rlt_le_trans with (1 / 10 ^ 10)%R; [|lra].
    apply Rdiv_lt_0_compat; [lra|]. apply pow_lt. lra. }
  unfold qstate_norm in *. apply sqrt_pos_arg in Hpos.
  rewrite norm_squared_sum. simpl. unfold sum_sqmag.
  rewrite (psum_ext _ (fun i => (/ norm_squared s *
                                 sqmag (vget (state_vector s) i))%R)).
  - rewrite psum_scale. fold (sum_sqmag (state_vector s) (Z.to_nat (vector_size s))).
    rewrite <- norm_squared_sum. rewrite Rinv_l by lra. apply sqrt_1.
  - intros i Hi. pose proof (wf_vector_size s Hwf).
    rewrite Hv by lia. apply sqmag_div. exact Hpos.
Qed.

(** [normalize_unit_norm] at |0>. *)
Lemma normalize_unit_norm_witness :
  wf_state ket0 /\ (qstate_norm (Some ket0) >= 1 / 10 ^ 10)%R /\
  qstate_norm (snd (qstate_normalize (Some ket0))) = 1%R.
Proof.
  assert (H : (qstate_norm (Some ket0) >= 1 / 10 ^ 10)%R).
  { rewrite norm_ket0. cbv [pow]. lra. }
  split; [exact wf_ket0|]. split; [exact H|].
  apply (normalize_unit_norm ket0 wf_ket0 H).
Defined.

(** ** Well-formedness is kept *)

Lemma same_shape_refl (s : QuantumState) : wf_state s -> same_shape s (Some s).
Proof. intros H. exists s. auto. Qed.

Lemma same_shape_vector (s : QuantumState) (v : list cplx) :
  wf_state s -> length v = length (state_vector s) ->
  same_shape s (Some (set_state_vector s v)).
Proof.
  intros Hwf Hl. eexists. split; [reflexivity|]. split; [|reflexivity].
  apply wf_set_state_vector; assumption.
Qed.

Lemma same_shape_norm (s : QuantumState) (v : list cplx) (x : R) :
  wf_state s -> length v = length (state_vector s) ->
  same_shape s (Some (set_norm (set_state_vector s v) x)).
Proof.
  intros Hwf Hl. eexists. split; [reflexivity|]. split; [|reflexivity].
  apply (wf_set_state_vector s v Hwf Hl).
Qed.

Lemma swap_amplitudes_length (v : list cplx) (i p : Z) :
  length (swap_amplitudes v i p) = length v.
Proof. unfold swap_amplitudes. rewrite !length_vset. reflexivity. Qed.

Lemma block_loop_length (s : QuantumState) (target : Z)
    (body : Z -> Z -> Z -> list cplx -> list cplx) :
  (forall b i bs v, length (body b i bs v) = length v) ->
  length (block_loop s target body) = length (state_vector s).
Proof.
  intros Hbody. unfold block_loop.
  apply (for_upto_ind (fun v => length v = length (state_vector s)));
    [reflexivity|].
  intros block v _ Hv. cbv zeta.
  apply (for_upto_ind (fun v => length v = length (state_vector s)));
    [exact Hv|].
  intros i w _ Hw. rewrite Hbody. exact Hw.
Qed.

Lemma single_qubit_kernel_shape (s : QuantumState) (target : Z)
    (body : Z -> Z -> Z -> list cplx -> list cplx) :
  wf_state s ->
  (forall b i bs v, length (body b i bs v) = length v) ->
  same_shape s (snd (single_qubit_kernel (Some s) target body)).
Proof.
  intros Hwf Hbody. unfold single_qubit_kernel.
  destruct (negb (is_valid_qubit_index (Some s) target)); simpl.
  - apply same_shape_refl, Hwf.
  - apply same_shape_vector; [exact Hwf|]. apply block_loop_length, Hbody.
Qed.

Ltac body_length :=
  intros;
  unfold x_body, y_body, z_body, h_body, s_body, t_body, rx_body, ry_body,
    rz_body;
  cbv zeta; rewrite ?length_vset; reflexivity.

(** X15: every mutating operation of the engine, on any arguments,
    leaves a well-formed state well formed with the same qubit count:
    [qstate_set_amplitude], [qstate_init_basis] (on success and on each
    of its failures), [qstate_normalize], the thirteen gate kernels and
    [qstate_measure]. *)
Theorem mutators_keep_shape (s : QuantumState) :
  wf_state s ->
  forall (i q1 q2 q3 RAND_MAX rand : Z) (a : cplx) (theta : R)
         (bitstring : option string),
  same_shape s (snd (qstate_set_amplitude (Some s) i a)) /\
  same_shape s (snd (qstate_init_basis (Some s) bitstring)) /\
  same_shape s (snd (qstate_normalize (Some s))) /\
  same_shape s (snd (qstate_apply_x (Some s) q1)) /\
  same_shape s (snd (qstate_apply_y (Some s) q1)) /\
  same_shape s (snd (qstate_apply_z (Some s) q1)) /\
  same_shape s (snd (qstate_apply_h (Some s) q1)) /\
  same_shape s (snd (qstate_apply_s (Some s) q1)) /\
  same_shape s (snd (qstate_apply_t (Some s) q1)) /\
  same_shape s (snd (qstate_apply_rx (Some s) q1 theta)) /\
  same_shape s (snd (qstate_apply_ry (Some s) q1 theta)) /\
  same_shape s (snd (qstate_apply_rz (Some s) q1 theta)) /\
  same_shape s (snd (qstate_apply_cnot (Some s) q1 q2)) /\
  same_shape s (snd (qstate_apply_cz (Some s) q1 q2)) /\
  same_shape s (snd (qstate_apply_swap (Some s) q1 q2)) /\
  same_shape s (snd (qstate_apply_toffoli (Some s) q1 q2 q3)) /\
  same_shape s (snd (qstate_measure RAND_MAX rand (Some s) q1)).
Proof.
  intros Hwf i q1 q2 q3 RAND_MAX rand a theta bitstring.
  pose proof Hwf as (Hn & Hvs & Hlen).
  pose proof (wf_vector_size s Hwf) as Hsize.
  repeat match goal with |- _ /\ _ => split end.
  - unfold qstate_set_amplitude.
    destruct (i >=? vector_size s); simpl;
      [apply same_shape_refl, Hwf|].
    apply same_shape_vector; [exact Hwf|apply length_vset].
  - unfold qstate_init_basis. destruct bitstring as [str|];
      [|apply same_shape_refl, Hwf].
    cbv zeta.
    destruct (negb (int_of_size_t (Z.of_nat (String.length str))
                    =? num_qubits s)); simpl;
      [apply same_shape_refl, Hwf|].
    destruct (init_basis_index _ 0 0) as [z|]; simpl.
    + apply (same_shape_norm s
               (vset (replicate (Z.to_nat (vector_size s)) (RtoC 0)) z (Cplx 1 0))
               1 Hwf).
      rewrite length_vset, length_replicate. lia.
    + apply same_shape_vector; [exact Hwf|]. rewrite length_replicate. lia.
  - unfold qstate_normalize.
    destruct (Rlt_dec (qstate_norm (Some s)) (1 / 10 ^ 10)); simpl;
      [apply same_shape_refl, Hwf|].
    apply same_shape_norm; [exact Hwf|].
    apply (for_upto_ind (fun v => length v = length (state_vector s)));
      [reflexivity|].
    intros k v _ Hv. rewrite length_vset. exact Hv.
  - apply single_qubit_kernel_shape; [exact Hwf|body_length].
  - apply single_qubit_kernel_shape; [exact Hwf|body_length].
  - apply single_qubit_kernel_shape; [exact Hwf|body_length].
  - apply single_qubit_kernel_shape; [exact Hwf|body_length].
  - apply single_qubit_kernel_shape; [exact Hwf|body_length].
  - apply single_qubit_kernel_shape; [exact Hwf|body_length].
  - apply single_qubit_kernel_shape; [exact Hwf|body_length].
  - apply single_qubit_kernel_shape; [exact Hwf|body_length].
  - apply single_qubit_kernel_shape; [exact Hwf|body_length].
  - unfold qstate_apply_cnot.
    destruct (negb (is_valid_qubit_index (Some s) q1)
              || negb (is_valid_qubit_index (Some s) q2)); simpl;
      [apply same_shape_refl, Hwf|].
    destruct (q1 =? q2); simpl; [apply same_shape_refl, Hwf|].
    apply same_shape_vector; [exact Hwf|].
    apply (for_upto_ind (fun v => length v = length (state_vector s)));
      [reflexivity|].
    intros k v _ Hv. destruct (bit_set k (shl 1 q1)); [|exact Hv]. cbv zeta.
    destruct (k <? Z.lxor k (shl 1 q2)); [|exact Hv].
    rewrite swap_amplitudes_length. exact Hv.
  - unfold qstate_apply_cz.
    destruct (negb (is_valid_qubit_index (Some s) q1)
              || negb (is_valid_qubit_index (Some s) q2)); simpl;
      [apply same_shape_refl, Hwf|].
    apply same_shape_vector; [exact Hwf|].
    apply (for_upto_ind (fun v => length v = length (state_vector s)));
      [reflexivity|].
    intros k v _ Hv.
    destruct (bit_set k (shl 1 q1) && bit_set k (shl 1 q2)); [|exact Hv].
    rewrite length_vset. exact Hv.
  - unfold qstate_apply_swap.
    destruct (negb (is_valid_qubit_index (Some s) q1)
              || negb (is_valid_qubit_index (Some s) q2)); simpl;
      [apply same_shape_refl, Hwf|].
    destruct (q1 =? q2); simpl; [apply same_shape_refl, Hwf|].
    apply same_shape_vector; [exact Hwf|].
    apply (for_upto_ind (fun v => length v = length (state_vector s)));
      [reflexivity|].
    intros k v _ Hv. cbv zeta.
    destruct (negb (Bool.eqb (bit_set k (shl 1 q1)) (bit_set k (shl 1 q2))));
      [|exact Hv].
    destruct (k <? Z.lxor (Z.lxor k (shl 1 q1)) (shl 1 q2)); [|exact Hv].
    rewrite swap_amplitudes_length. exact Hv.
  - unfold qstate_apply_toffoli.
    destruct (negb (is_valid_qubit_index (Some s) q1)
              || negb (is_valid_qubit_index (Some s) q2)
              || negb (is_valid_qubit_index (Some s) q3)); simpl;
      [apply same_shape_refl, Hwf|].
    apply same_shape_vector; [exact Hwf|].
    apply (for_upto_ind (fun v => length v = length (state_vector s)));
      [reflexivity|].
    intros k v _ Hv.
    destruct (bit_set k (shl 1 q1) && bit_set k (shl 1 q2)); [|exact Hv].
    cbv zeta. destruct (k <? Z.lxor k (shl 1 q3)); [|exact Hv].
    rewrite swap_amplitudes_length. exact Hv.
  - unfold qstate_measure.
    destruct (negb (is_valid_qubit_index (Some s) q1)); simpl;
      [apply same_shape_refl, Hwf|].
    apply same_shape_vector; [exact Hwf|]. unfold measure_collapse.
    apply (for_upto_ind (fun v => length v = length (state_vector s)));
      [reflexivity|].
    intros k v _ Hv.
    destruct (collapse_keeps _ k (shl 1 q1)); rewrite length_vset; exact Hv.
Qed.

(** [mutators_keep_shape] at |000>, here for H on qubit 1 and for
    [qstate_init_basis] on a string with an invalid character. *)
Lemma mutators_keep_shape_witness :
  wf_state ket000 /\
  same_shape ket000 (snd (qstate_apply_h (Some ket000) 1)) /\
  same_shape ket000 (snd (qstate_init_basis (Some ket000) (Some "1x0"%string))).
Proof.
  pose proof (mutators_keep_shape ket000 wf_ket000 0 1 2 0 1 0 Ci 0%R
                (Some "1x0"%string)) as H.
  split; [exact wf_ket000|]. split; apply H.
Defined.

(** ** Invalid qubit indices *)

(** X16: when a qubit index is not valid for the handle (out of
    [0, num_qubits), or the handle is null), every gate kernel that
    receives it in any argument position returns the invalid-index error
    and leaves the handle's state as it was; [qstate_measure] returns -1
    without touching the state and [qstate_probability] returns -1.0. *)
Theorem invalid_index_rejected (qs : option QuantumState) (q : Z) :
  is_valid_qubit_index qs q = false ->
  forall (o1 o2 RAND_MAX rand : Z) (theta : R),
  let rejected (r : MacQError * option QuantumState) :=
    r = (MACQ_ERROR_INVALID_INDEX, qs) in
  rejected (qstate_apply_x qs q) /\ rejected (qstate_apply_y qs q) /\
  rejected (qstate_apply_z qs q) /\ rejected (qstate_apply_h qs q) /\
  rejected (qstate_apply_s qs q) /\ rejected (qstate_apply_t qs q) /\
  rejected (qstate_apply_rx qs q theta) /\
  rejected (qstate_apply_ry qs q theta) /\
  rejected (qstate_apply_rz qs q theta) /\
  rejected (qstate_apply_cnot qs q o1) /\ rejected (qstate_apply_cnot qs o1 q) /\
  rejected (qstate_apply_cz qs q o1) /\ rejected (qstate_apply_cz qs o1 q) /\
  rejected (qstate_apply_swap qs q o1) /\ rejected (qstate_apply_swap qs o1 q) /\
  rejected (qstate_apply_toffoli qs q o1 o2) /\
  rejected (qstate_apply_toffoli qs o1 q o2) /\
  rejected (qstate_apply_toffoli qs o1 o2 q) /\
  qstate_measure RAND_MAX rand qs q = (-1, qs) /\
  qstate_probability qs q = (-1)%R.
Proof.
  intros H o1 o2 RAND_MAX rand theta. cbv zeta.
  unfold qstate_apply_x, qstate_apply_y, qstate_apply_z, qstate_apply_h,
    qstate_apply_s, qstate_apply_t, qstate_apply_rx, qstate_apply_ry,
    qstate_apply_rz, single_qubit_kernel, qstate_apply_cnot, qstate_apply_cz,
    qstate_apply_swap, qstate_apply_toffoli, qstate_measure, qstate_probability.
  rewrite H. simpl negb. rewrite ?orb_true_r. simpl.
  repeat match goal with |- _ /\ _ => split end; reflexivity.
Qed.

(** [invalid_index_rejected] at |0> with qubit index 1, and at the null
    handle. *)
Lemma invalid_index_rejected_witness :
  is_valid_qubit_index (Some ket0) 1 = false /\
  is_valid_qubit_index None 0 = false /\
  qstate_apply_h (Some ket0) 1 = (MACQ_ERROR_INVALID_INDEX, Some ket0) /\
  qstate_apply_cnot (Some ket0) 0 1 = (MACQ_ERROR_INVALID_INDEX, Some ket0) /\
  qstate_apply_x None 0 = (MACQ_ERROR_INVALID_INDEX, None).
Proof.
  pose proof (invalid_index_rejected (Some ket0) 1 eq_refl 0 0 1 0 0%R) as H1.
  pose proof (invalid_index_rejected None 0 eq_refl 0 0 1 0 0%R) as H2.
  cbv zeta in H1, H2.
  split; [reflexivity|]. split; [reflexivity|].
  split; [apply H1|]. split; [apply H1|]. apply H2.
Defined.

(** ** Probabilities *)

Lemma probability_loop (s : QuantumState) (qubit : Z) :
  0 <= qubit ->
  for_upto (vector_size s)
    (fun i prob_1 =>
       if bit_set i (2 ^ qubit)
       then (prob_1 + sqmag (vget (state_vector s) i))%R else prob_1) 0%R
  = subspace_prob s qubit 1.
Proof.
  intros Hq. unfold subspace_prob.
  apply (for_upto_inv
           (fun k acc =>
              acc = psum (fun i => if Z.b2z (Z.testbit i qubit) =? 1
                                   then sqmag (vget (state_vector s) i)
                                   else 0%R) k)).
  - reflexivity.
  - intros k acc _ ->. rewrite bit_set_testbit by exact Hq. simpl.
    destruct (Z.testbit (Z.of_nat k) qubit); simpl; lra.
Qed.

Lemma subspace_prob_split (s : QuantumState) (qubit : Z) :
  (subspace_prob s qubit 0 + subspace_prob s qubit 1 = norm_squared s)%R.
Proof.
  unfold subspace_prob. rewrite <- psum_plus, norm_squared_sum.
  unfold sum_sqmag. apply psum_ext. intros i _.
  destruct (Z.testbit i qubit); simpl; lra.
Qed.

Lemma norm_squared_nonneg (s : QuantumState) : (0 <= norm_squared s)%R.
Proof.
  rewrite norm_squared_sum. apply psum_nonneg. intros i. apply sqmag_nonneg.
Qed.

Lemma qstate_norm_sqr (s : QuantumState) :
  (qstate_norm (Some s) * qstate_norm (Some s) = norm_squared s)%R.
Proof. unfold qstate_norm. apply sqrt_sqrt, norm_squared_nonneg. Qed.

(** X17: on a well-formed state and a valid qubit,
    [qstate_probability] is the summed squared magnitude of the
    amplitudes whose index has that bit set; it is the [prob_1] that
    [qstate_measure] computes; together with the weight of the bit-clear
    indices it makes up the squared norm; so it lies between 0 and the
    squared norm. *)
Theorem probability_spec (s : QuantumState) (qubit : Z) :
  wf_state s -> is_valid_qubit_index (Some s) qubit = true ->
  let p1 := qstate_probability (Some s) qubit in
  p1 = subspace_prob s qubit 1 /\
  p1 = snd (measure_probs s (shl 1 qubit)) /\
  (subspace_prob s qubit 0 + p1 =
   qstate_norm (Some s) * qstate_norm (Some s))%R /\
  (0 <= p1 <= qstate_norm (Some s) * qstate_norm (Some s))%R.
Proof.
  intros Hwf Hvalid. cbv zeta.
  pose proof (valid_index_range s qubit Hvalid) as Hq.
  destruct (mask_range s qubit Hwf Hq) as [Hmask _].
  assert (E : qstate_probability (Some s) qubit = subspace_prob s qubit 1).
  { unfold qstate_probability. rewrite Hvalid. simpl negb. cbv iota.
    rewrite Hmask. apply probability_loop. lia. }
  rewrite E, Hmask, measure_probs_spec, qstate_norm_sqr by lia.
  pose proof (subspace_prob_split s qubit) as Hsum.
  pose proof (subspace_prob_nonneg s qubit 0).
  pose proof (subspace_prob_nonneg s qubit 1).
  repeat split; try reflexivity; lra.
Qed.

(** [probability_spec] at |0>, qubit 0. *)
Lemma probability_spec_witness :
  wf_state ket0 /\ is_valid_qubit_index (Some ket0) 0 = true /\
  (0 <= qstate_probability (Some ket0) 0
     <= qstate_norm (Some ket0) * qstate_norm (Some ket0))%R.
Proof.
  split; [exact wf_ket0|]. split; [reflexivity|].
  apply (probability_spec ket0 0 wf_ket0 eq_refl).
Defined.

(** X18: [qstate_basis_probability] returns -1.0 for a null handle or
    an index at or beyond [vector_size]; for an index in range it is the
    squared magnitude of the amplitude the accessor returns, hence not
    negative; and on a well-formed state the basis probabilities of all
    indices add up to the squared norm. *)
Theorem basis_probability_spec (s : QuantumState) :
  wf_state s ->
  (forall j, qstate_basis_probability None j = (-1)%R) /\
  (forall j, vector_size s <= j ->
     qstate_basis_probability (Some s) j = (-1)%R) /\
  (forall j, j < vector_size s ->
     qstate_basis_probability (Some s) j =
       sqmag (qstate_get_amplitude (Some s) j) /\
     (0 <= qstate_basis_probability (Some s) j)%R) /\
  psum (fun j => qstate_basis_probability (Some s) j)
       (Z.to_nat (vector_size s)) =
  (qstate_norm (Some s) * qstate_norm (Some s))%R.
Proof.
  intros Hwf. pose proof (wf_vector_size s Hwf) as Hsize.
  assert (Hin : forall j, j < vector_size s ->
            qstate_basis_probability (Some s) j =
            sqmag (vget (state_vector s) j)).
  { intros j Hj. unfold qstate_basis_probability.
    destruct (Z.geb_spec j (vector_size s)); [lia|reflexivity]. }
  split; [reflexivity|]. split; [|split].
  - intros j Hj. unfold qstate_basis_probability.
    destruct (Z.geb_spec j (vector_size s)); [reflexivity|lia].
  - intros j Hj. rewrite (Hin j Hj). split; [|apply sqmag_nonneg].
    unfold qstate_get_amplitude.
    destruct (Z.geb_spec j (vector_size s)); [lia|reflexivity].
  - rewrite qstate_norm_sqr, norm_squared_sum. unfold sum_sqmag.
    apply psum_ext. intros j Hj. apply Hin. lia.
Qed.

(** [basis_probability_spec] at |0>. *)
Lemma basis_probability_spec_witness :
  wf_state ket0 /\
  qstate_basis_probability (Some ket0) 2 = (-1)%R /\
  qstate_basis_probability (Some ket0) 0 =
    sqmag (qstate_get_amplitude (Some ket0) 0).
Proof.
  pose proof (basis_probability_spec ket0 wf_ket0) as (_ & Hout & Hin & _).
  split; [exact wf_ket0|]. split.
  - apply Hout. simpl. lia.
  - apply Hin. simpl. lia.
Defined.

(** ** Repeated measurement *)

Lemma probability_value (s : QuantumState) (qubit : Z) :
  wf_state s -> is_valid_qubit_index (Some s) qubit = true ->
  qstate_probability (Some s) qubit = subspace_prob s qubit 1.
Proof.
  intros Hwf Hvalid.
  pose proof (valid_index_range s qubit Hvalid) as Hq.
  destruct (mask_range s qubit Hwf Hq) as [Hmask _].
  unfold qstate_probability. rewrite Hvalid. simpl negb. cbv iota.
  rewrite Hmask. apply probability_loop. lia.
Qed.

(** The result of [qstate_measure] on a valid qubit, cell by cell. *)
Lemma measure_result (RAND_MAX rand : Z) (s : QuantumState) (qubit : Z) :
  wf_state s -> is_valid_qubit_index (Some s) qubit = true ->
  let r := measure_outcome (subspace_prob s qubit 0) (subspace_prob s qubit 1)
                           (measure_rand_val RAND_MAX rand) in
  exists v,
    qstate_measure RAND_MAX rand (Some s) qubit =
      (r, Some (set_state_vector s v)) /\
    (r = 0 \/ r = 1) /\
    length v = length (state_vector s) /\
    forall j, 0 <= j < vector_size s ->
      vget v j =
      if Z.b2z (Z.testbit j qubit) =? r
      then Cdiv_r (vget (state_vector s) j) (sqrt (subspace_prob s qubit r))
      else RtoC 0.
Proof.
  intros Hwf Hvalid r.
  pose proof (valid_index_range s qubit Hvalid) as Hq.
  destruct (mask_range s qubit Hwf Hq) as [Hmask _].
  pose proof (wf_vector_size s Hwf) as Hsize.
  pose proof Hwf as (_ & _ & Hlen).
  assert (Hr : r = 0 \/ r = 1) by apply measure_outcome_binary.
  unfold qstate_measure. rewrite Hvalid. simpl negb. cbv iota. rewrite Hmask.
  rewrite measure_probs_spec by lia. simpl fst. simpl snd. fold r.
  assert (Hnf : measure_norm_factor (subspace_prob s qubit 0)
                  (subspace_prob s qubit 1) r = sqrt (subspace_prob s qubit r)).
  { unfold measure_norm_factor. destruct Hr as [-> | ->]; reflexivity. }
  rewrite Hnf. eexists. split; [reflexivity|]. split; [exact Hr|].
  unfold measure_collapse.
  apply (for_upto_pointwise _
           (fun i a => if Z.b2z (Z.testbit i qubit) =? r
                       then Cdiv_r a (sqrt (subspace_prob s qubit r))
                       else RtoC 0)).
  - intros i v. rewrite collapse_keeps_spec by (lia || exact Hr).
    destruct (Z.b2z (Z.testbit i qubit) =? r); reflexivity.
  - lia.
Qed.

(** After a collapse onto outcome [r] of positive weight, the whole
    weight of the state is on outcome [r]. *)
Lemma post_measure_prob (s : QuantumState) (v : list cplx) (qubit r r' : Z) :
  (0 < subspace_prob s qubit r)%R ->
  (forall j, 0 <= j < vector_size s ->
     vget v j =
     if Z.b2z (Z.testbit j qubit) =? r
     then Cdiv_r (vget (state_vector s) j) (sqrt (subspace_prob s qubit r))
     else RtoC 0) ->
  subspace_prob (set_state_vector s v) qubit r' =
  if r' =? r then 1%R else 0%R.
Proof.
  intros Hpos Hv. unfold subspace_prob at 1. simpl.
  destruct (Z.eqb_spec r' r) as [->|Hne].
  - rewrite (psum_ext _
               (fun i => (/ subspace_prob s qubit r *
                          (if Z.b2z (Z.testbit i qubit) =? r
                           then sqmag (vget (state_vector s) i) else 0))%R)).
    + rewrite psum_scale. fold (subspace_prob s qubit r). apply Rinv_l. lra.
    + intros i Hi. destruct (Z.b2z (Z.testbit i qubit) =? r) eqn:Hb.
      * rewrite Hv, Hb by lia. apply sqmag_div. exact Hpos.
      * ring.
  - apply psum_zero. intros i Hi.
    destruct (Z.eqb_spec (Z.b2z (Z.testbit i qubit)) r') as [Hb|_];
      [|reflexivity].
    rewrite Hv by lia.
    destruct (Z.eqb_spec (Z.b2z (Z.testbit i qubit)) r) as [Hb'|_];
      [congruence|].
    unfold sqmag; simpl. ring.
Qed.

Lemma Cdiv_r_one (a : cplx) : Cdiv_r a 1 = a.
Proof. apply cplx_eq; simpl; field. Qed.

(** X19: on a well-formed state and a valid qubit, when
    [qstate_measure] returns an outcome [r] whose weight was positive,
    [qstate_probability] of that qubit on the collapsed state is [r]
    (1.0 or 0.0), and measuring the same qubit again with any draw
    [0 <= rand' < RAND_MAX] returns [r] again and leaves the collapsed
    state as it is. *)
Theorem measure_repeatable (RAND_MAX rand rand' : Z) (s : QuantumState)
    (qubit : Z) :
  wf_state s -> is_valid_qubit_index (Some s) qubit = true ->
  0 <= rand' < RAND_MAX ->
  let res := qstate_measure RAND_MAX rand (Some s) qubit in
  (0 < subspace_prob s qubit (fst res))%R ->
  qstate_probability (snd res) qubit = IZR (fst res) /\
  qstate_measure RAND_MAX rand' (snd res) qubit = res.
Proof.
  intros Hwf Hvalid Hrand. cbv zeta.
  destruct (measure_result RAND_MAX rand s qubit Hwf Hvalid)
    as (v & Heq & Hr & Hl & Hv).
  rewrite Heq. simpl fst. simpl snd.
  set (r := measure_outcome (subspace_prob s qubit 0) (subspace_prob s qubit 1)
                            (measure_rand_val RAND_MAX rand)) in *.
  intros Hpos.
  set (s1 := set_state_vector s v).
  assert (Hwf1 : wf_state s1) by (apply wf_set_state_vector; assumption).
  pose proof (valid_index_range s qubit Hvalid) as Hq.
  destruct (mask_range s qubit Hwf Hq) as [Hmask _].
  assert (Hp : forall r', subspace_prob s1 qubit r' = if r' =? r then 1%R else 0%R).
  { intros r'. apply post_measure_prob; assumption. }
  split.
  - rewrite (probability_value s1 qubit Hwf1 Hvalid), Hp.
    destruct Hr as [-> | ->]; reflexivity.
  - destruct (measure_result RAND_MAX rand' s1 qubit Hwf1 Hvalid)
      as (v2 & Heq2 & _ & Hl2 & Hv2).
    rewrite Heq2. rewrite !Hp in *.
    assert (Hrv : (0 <= measure_rand_val RAND_MAX rand' < 1)%R).
    { unfold measure_rand_val.
      assert (0 < IZR RAND_MAX)%R by (apply IZR_lt; lia).
      assert (0 <= IZR rand')%R by (apply IZR_le; lia).
      assert (IZR rand' < IZR RAND_MAX)%R by (apply IZR_lt; lia).
      split.
      - apply Rmult_le_pos; [assumption|]. apply Rlt_le, Rinv_0_lt_compat.
        assumption.
      - apply (Rmult_lt_reg_r (IZR RAND_MAX)); [assumption|].
        unfold Rdiv. rewrite Rmult_assoc, Rinv_l by lra. lra. }
    assert (Hout : measure_outcome (if 0 =? r then 1%R else 0%R)
                     (if 1 =? r then 1%R else 0%R)
                     (measure_rand_val RAND_MAX rand') = r).
    { unfold measure_outcome. destruct Hr as [-> | ->]; simpl.
      - destruct (Rlt_dec (measure_rand_val RAND_MAX rand') (1 / (1 + 0)))
          as [_|Hnot]; [reflexivity|].
        exfalso. apply Hnot. replace (1 / (1 + 0))%R with 1%R by field. lra.
      - destruct (Rlt_dec (measure_rand_val RAND_MAX rand') (0 / (0 + 1)))
          as [Hlt|_]; [|reflexivity].
        exfalso. replace (0 / (0 + 1))%R with 0%R in Hlt by field. lra. }
    rewrite Hout in *. rewrite Z.eqb_refl in Hv2.
    f_equal. f_equal. unfold s1. rewrite set_state_vector_twice. f_equal.
    simpl in Hl2. apply buffer_ext; [exact Hl2|].
    intros j Hj. pose proof Hwf as (_ & _ & Hlen).
    change (vector_size s1) with (vector_size s) in Hv2.
    change (state_vector s1) with v in Hv2.
    assert (Hj' : 0 <= j < vector_size s) by lia.
    rewrite Hv2 by exact Hj'. rewrite sqrt_1, Cdiv_r_one.
    destruct (Z.b2z (Z.testbit j qubit) =? r) eqn:Hb; [reflexivity|].
    rewrite Hv, Hb by exact Hj'. reflexivity.
Qed.

(** [measure_repeatable] at |0>, qubit 0, [RAND_MAX = 32767], first draw
    0 (outcome 0, weight 1) and second draw 5. *)
Lemma measure_repeatable_witness :
  wf_state ket0 /\ is_valid_qubit_index (Some ket0) 0 = true /\
  0 <= 5 < 32767 /\
  (0 < subspace_prob ket0 0 (fst (qstate_measure 32767 0 (Some ket0) 0)))%R /\
  qstate_measure 32767 5 (snd (qstate_measure 32767 0 (Some ket0) 0)) 0 =
    qstate_measure 32767 0 (Some ket0) 0.
Proof.
  assert (Hr : 0 <= 5 < 32767) by lia.
  assert (Hout : fst (qstate_measure 32767 0 (Some ket0) 0) = 0).
  { unfold qstate_measure. rewrite valid_ket0. simpl negb. cbv iota.
    rewrite measure_probs_ket0. simpl. unfold measure_outcome, measure_rand_val.
    destruct (Rlt_dec (0 / 32767) (1 / (1 + 0))) as [_|Hnot]; [reflexivity|].
    exfalso. apply Hnot. lra. }
  assert (Hpos : (0 < subspace_prob ket0 0
                        (fst (qstate_measure 32767 0 (Some ket0) 0)))%R).
  { rewrite Hout. eval_model. lra. }
  split; [exact wf_ket0|]. split; [exact valid_ket0|]. split; [exact Hr|].
  split; [exact Hpos|].
  apply (measure_repeatable 32767 0 5 ket0 0 wf_ket0 valid_ket0 Hr Hpos).
Defined.

(** ** Gates that only change phases *)

Lemma basis_probability_vector (s : QuantumState) (v : list cplx) (j : Z) :
  qstate_basis_probability (Some (set_state_vector s v)) j =
  if j >=? vector_size s then (-1)%R else sqmag (vget v j).
Proof. reflexivity. Qed.

Lemma phase_kernel_probability (s : QuantumState) (target j : Z)
    (body : Z -> Z -> Z -> list cplx -> list cplx)
    (f0 f1 : cplx -> cplx -> cplx) :
  wf_state s -> is_valid_qubit_index (Some s) target = true ->
  acts_as_block s target body f0 f1 ->
  (forall a0 a1, sqmag (f0 a0 a1) = sqmag a0) ->
  (forall a0 a1, sqmag (f1 a0 a1) = sqmag a1) ->
  0 <= j ->
  qstate_basis_probability (snd (single_qubit_kernel (Some s) target body)) j =
  qstate_basis_probability (Some s) j.
Proof.
  intros Hwf Hvalid Hbody H0 H1 Hj.
  destruct (single_qubit_kernel_pointwise s target body f0 f1 Hwf Hvalid Hbody)
    as (v & Heq & Hl & Hv).
  rewrite Heq. simpl snd. rewrite basis_probability_vector.
  unfold qstate_basis_probability.
  destruct (Z.geb_spec j (vector_size s)); [reflexivity|].
  rewrite Hv by lia. unfold block_value.
  destruct (Z.testbit j target); [apply H1|apply H0].
Qed.

(** X20: on a well-formed state and valid qubits, the gates Z, S, T,
    Rz and CZ leave [qstate_basis_probability] of every index as it
    was: they change phases only, never the measurement statistics of
    the computational basis. *)
Theorem phase_gates_keep_probabilities (s : QuantumState)
    (target control j : Z) (theta : R) :
  wf_state s ->
  is_valid_qubit_index (Some s) target = true ->
  is_valid_qubit_index (Some s) control = true ->
  0 <= j ->
  let same (r : MacQError * option QuantumState) :=
    qstate_basis_probability (snd r) j = qstate_basis_probability (Some s) j in
  same (qstate_apply_z (Some s) target) /\
  same (qstate_apply_s (Some s) target) /\
  same (qstate_apply_t (Some s) target) /\
  same (qstate_apply_rz (Some s) target theta) /\
  same (qstate_apply_cz (Some s) control target).
Proof.
  intros Hwf Ht Hc Hj. cbv zeta.
  repeat match goal with |- _ /\ _ => split end.
  - apply (phase_kernel_probability s target j _ _ _ Hwf Ht
             (z_body_block s target Hwf)); [reflexivity| |exact Hj].
    intros a0 a1. apply sqmag_opp.
  - apply (phase_kernel_probability s target j _ _ _ Hwf Ht
             (s_body_block s target Hwf)); [reflexivity| |exact Hj].
    intros a0 a1. apply sqmag_mul_i.
  - apply (phase_kernel_probability s target j _ _ _ Hwf Ht
             (t_body_block s target Hwf _)); [reflexivity| |exact Hj].
    intros a0 a1. apply sqmag_mul_phase, t_phase_imaginary.
  - apply (phase_kernel_probability s target j _ _ _ Hwf Ht
             (rz_body_block s target Hwf _ _)); [| |exact Hj].
    + intros a0 a1. apply sqmag_mul_phase, rz_phase_neg_imaginary.
    + intros a0 a1. apply sqmag_mul_phase, rz_phase_pos_imaginary.
  - destruct (cz_pointwise s Hwf control target Hc Ht) as (v & Heq & Hl & Hv).
    rewrite Heq. simpl snd. rewrite basis_probability_vector.
    unfold qstate_basis_probability.
    destruct (Z.geb_spec j (vector_size s)); [reflexivity|].
    rewrite Hv by lia.
    destruct (Z.testbit j control && Z.testbit j target);
      [apply sqmag_opp|reflexivity].
Qed.

(** [phase_gates_keep_probabilities] at |000>, target 1, control 0,
    index 2 and angle 1. *)
Lemma phase_gates_keep_probabilities_witness :
  wf_state ket000 /\
  is_valid_qubit_index (Some ket000) 1 = true /\
  is_valid_qubit_index (Some ket000) 0 = true /\ 0 <= 2 /\
  qstate_basis_probability (snd (qstate_apply_rz (Some ket000) 1 1)) 2 =
    qstate_basis_probability (Some ket000) 2 /\
  qstate_basis_probability (snd (qstate_apply_cz (Some ket000) 0 1)) 2 =
    qstate_basis_probability (Some ket000) 2.
Proof.
  assert (H2 : 0 <= 2) by lia.
  pose proof (phase_gates_keep_probabilities ket000 1 0 2 1%R wf_ket000
                eq_refl eq_refl H2) as H.
  cbv zeta in H.
  split; [exact wf_ket000|]. split; [reflexivity|]. split; [reflexivity|].
  split; [exact H2|]. split; apply H.
Defined.

(** ** The index helper *)

Lemma shl_1_64 (k : Z) : 0 <= k < 64 -> shl 1 k = 2 ^ k.
Proof.
  intros H. unfold shl. rewrite Z.shiftl_1_l. apply size_t_wrap_small.
  split; [apply Z.pow_nonneg; lia|apply Z.pow_lt_mono_r; lia].
Qed.

(** X21: for an array of at least [n] entries with [0 <= n <= 64],
    [get_index] returns a value below [2^n] whose bit [q] is set
    exactly when [q < n] and [qubits[q]] is non-zero. *)
Theorem get_index_bits (qubits : list Z) (n : Z) :
  0 <= n <= 64 -> n <= Z.of_nat (length qubits) ->
  0 <= get_index qubits n < 2 ^ n /\
  forall q, 0 <= q ->
    Z.testbit (get_index qubits n) q =
    (q <? n) && negb ((qubits !!! Z.to_nat q) =? 0).
Proof.
  intros Hn Hlen.
  assert (H : 0 <= get_index qubits n < 2 ^ Z.of_nat (Z.to_nat n) /\
              forall q, 0 <= q ->
                Z.testbit (get_index qubits n) q =
                (q <? Z.of_nat (Z.to_nat n))
                && negb ((qubits !!! Z.to_nat q) =? 0)).
  { unfold get_index.
    apply (for_upto_inv
             (fun k acc =>
                0 <= acc < 2 ^ Z.of_nat k /\
                forall q, 0 <= q ->
                  Z.testbit acc q =
                  (q <? Z.of_nat k) && negb ((qubits !!! Z.to_nat q) =? 0))).
    - split; [simpl; lia|]. intros q Hq. rewrite Z.bits_0.
      destruct (Z.ltb_spec q (Z.of_nat 0)); [lia|reflexivity].
    - intros k acc Hk [Hacc Hbits].
      assert (Hk' : 0 <= Z.of_nat k < 64) by lia.
      assert (Hpow : 2 ^ Z.of_nat (S k) = 2 * 2 ^ Z.of_nat k).
      { replace (Z.of_nat (S k)) with (Z.of_nat k + 1) by lia.
        rewrite Z.pow_add_r by lia. change (2 ^ 1) with 2. lia. }
      rewrite Nat2Z.id.
      destruct (negb ((qubits !!! k) =? 0)) eqn:Hb.
      + rewrite shl_1_64 by exact Hk'.
        destruct (lor_fresh_bit acc (Z.of_nat k) ltac:(lia) Hacc) as [E Hlor].
        split; [rewrite Hpow; rewrite E in *; lia|].
        intros q Hq. rewrite Z.lor_spec, Hbits by exact Hq.
        destruct (Z.eq_dec q (Z.of_nat k)) as [->|Hne].
        * rewrite Z.pow2_bits_true by lia. rewrite Nat2Z.id, Hb.
          destruct (Z.ltb_spec (Z.of_nat k) (Z.of_nat (S k))); [|lia].
          rewrite orb_true_r. reflexivity.
        * rewrite Z.pow2_bits_false by lia. rewrite orb_false_r.
          destruct (Z.ltb_spec q (Z.of_nat k)), (Z.ltb_spec q (Z.of_nat (S k)));
            solve [reflexivity | lia].
      + split; [rewrite Hpow; lia|].
        intros q Hq. rewrite Hbits by exact Hq.
        destruct (Z.eq_dec q (Z.of_nat k)) as [->|Hne].
        * rewrite Nat2Z.id, Hb. rewrite !andb_false_r. reflexivity.
        * destruct (Z.ltb_spec q (Z.of_nat k)), (Z.ltb_spec q (Z.of_nat (S k)));
            solve [reflexivity | lia]. }
  rewrite Z2Nat.id in H by lia. exact H.
Qed.

(** [get_index_bits] on the array {1, 0, 1}: the index is 5. *)
Lemma get_index_bits_witness :
  0 <= 3 <= 64 /\ 3 <= Z.of_nat (length [1; 0; 1]) /\
  0 <= get_index [1; 0; 1] 3 < 2 ^ 3 /\ get_index [1; 0; 1] 3 = 5.
Proof.
  assert (H1 : 0 <= 3 <= 64) by lia.
  assert (H2 : 3 <= Z.of_nat (length [1; 0; 1])) by (simpl; lia).
  split; [exact H1|]. split; [exact H2|].
  split; [exact (proj1 (get_index_bits [1; 0; 1] 3 H1 H2))|reflexivity].
Defined.

(** ** Conjugation by Hadamard *)

(** A pair kernel run on a buffer that is itself the result of a block
    applied to the buffer of [s] gives the composed block applied to the
    buffer of [s]. *)
Lemma kernel_after_block (s : QuantumState) (v1 : list cplx) (target : Z)
    (body : Z -> Z -> Z -> list cplx -> list cplx)
    (f0 f1 g0 g1 : cplx -> cplx -> cplx) :
  wf_state s -> is_valid_qubit_index (Some s) target = true ->
  length v1 = length (state_vector s) ->
  (forall j, 0 <= j < vector_size s ->
     vget v1 j = block_value f0 f1 (state_vector s) target j) ->
  (forall s', wf_state s' -> acts_as_block s' target body g0 g1) ->
  exists v,
    single_qubit_kernel (Some (set_state_vector s v1)) target body =
      (MACQ_SUCCESS, Some (set_state_vector s v)) /\
    length v = length (state_vector s) /\
    forall j, 0 <= j < vector_size s ->
      vget v j =
      block_value (fun a b => g0 (f0 a b) (f1 a b))
                  (fun a b => g1 (f0 a b) (f1 a b)) (state_vector s) target j.
Proof.
  intros Hwf Hvalid Hl1 Hv1 Hbody.
  assert (Hwf1 : wf_state (set_state_vector s v1))
    by (apply wf_set_state_vector; assumption).
  destruct (single_qubit_kernel_pointwise (set_state_vector s v1) target body
              g0 g1 Hwf1 Hvalid (Hbody _ Hwf1)) as (v2 & Heq2 & Hl2 & Hv2).
  exists v2. split; [rewrite Heq2; reflexivity|].
  simpl in Hl2, Hv2. split; [congruence|].
  intros j Hj. rewrite Hv2 by exact Hj. unfold block_value.
  pose proof (valid_index_range s target Hvalid) as Ht.
  pose proof Hwf as (_ & Hvs & _).
  destruct (Z.testbit j target) eqn:Hb.
  - destruct (pair_partner_high j target ltac:(lia) ltac:(lia) Hb) as [Hlo Hblo].
    rewrite !Hv1 by lia. unfold block_value. rewrite Hb, Hblo.
    replace (j - 2 ^ target + 2 ^ target) with j by lia. reflexivity.
  - rewrite Hvs in Hj.
    destruct (pair_partner_low j target (num_qubits s) Ht Hj Hb) as [Hhi Hbhi].
    rewrite !Hv1 by lia. unfold block_value. rewrite Hb, Hbhi.
    replace (j + 2 ^ target - 2 ^ target) with j by lia. reflexivity.
Qed.

(** The sequence H, then a kernel with block [(m0, m1)], then H again,
    gives the result of a kernel with block [(x0, x1)] when the three
    blocks compose to it. *)
Lemma hadamard_sandwich (s : QuantumState) (target : Z)
    (mid res : Z -> Z -> Z -> list cplx -> list cplx)
    (m0 m1 x0 x1 : cplx -> cplx -> cplx) :
  wf_state s -> is_valid_qubit_index (Some s) target = true ->
  (forall s', wf_state s' -> acts_as_block s' target mid m0 m1) ->
  acts_as_block s target res x0 x1 ->
  (forall a b,
     Cscale (1 / sqrt 2)
       (m0 (Cscale (1 / sqrt 2) (a + b)%C) (Cscale (1 / sqrt 2) (a - b)%C) +
        m1 (Cscale (1 / sqrt 2) (a + b)%C) (Cscale (1 / sqrt 2) (a - b)%C))%C
     = x0 a b) ->
  (forall a b,
     Cscale (1 / sqrt 2)
       (m0 (Cscale (1 / sqrt 2) (a + b)%C) (Cscale (1 / sqrt 2) (a - b)%C) -
        m1 (Cscale (1 / sqrt 2) (a + b)%C) (Cscale (1 / sqrt 2) (a - b)%C))%C
     = x1 a b) ->
  qstate_apply_h
    (snd (single_qubit_kernel (snd (qstate_apply_h (Some s) target)) target mid))
    target
  = single_qubit_kernel (Some s) target res.
Proof.
  intros Hwf Hvalid Hmid Hres H0 H1. unfold qstate_apply_h.
  destruct (single_qubit_kernel_pointwise s target _ _ _ Hwf Hvalid
              (h_body_block s target Hwf)) as (v1 & Heq1 & Hl1 & Hv1).
  rewrite Heq1. simpl snd.
  destruct (kernel_after_block s v1 target mid _ _ m0 m1 Hwf Hvalid Hl1 Hv1 Hmid)
    as (v2 & Heq2 & Hl2 & Hv2).
  rewrite Heq2. simpl snd.
  destruct (kernel_after_block s v2 target (h_body (1 / sqrt 2)) _ _ _ _
              Hwf Hvalid Hl2 Hv2 (fun s' H' => h_body_block s' target H'))
    as (v3 & Heq3 & Hl3 & Hv3).
  rewrite Heq3.
  destruct (single_qubit_kernel_pointwise s target res x0 x1 Hwf Hvalid Hres)
    as (vx & Heqx & Hlx & Hvx).
  rewrite Heqx. f_equal. f_equal. f_equal.
  apply buffer_ext; [congruence|].
  intros j Hj. pose proof Hwf as (_ & _ & Hlen).
  rewrite Hv3, Hvx by lia. unfold block_value.
  destruct (Z.testbit j target); [apply H1|apply H0].
Qed.

(** X22: on a well-formed state and a valid target, H then Z then H
    gives the result of X, and H then X then H gives the result of Z. *)
Theorem hadamard_conjugation (s : QuantumState) (target : Z) :
  wf_state s -> is_valid_qubit_index (Some s) target = true ->
  qstate_apply_h
    (snd (qstate_apply_z (snd (qstate_apply_h (Some s) target)) target)) target
  = qstate_apply_x (Some s) target /\
  qstate_apply_h
    (snd (qstate_apply_x (snd (qstate_apply_h (Some s) target)) target)) target
  = qstate_apply_z (Some s) target.
Proof.
  intros Hwf Hvalid. pose proof inv_sqrt2_sqr as Hk. split.
  - unfold qstate_apply_z, qstate_apply_x.
    apply (hadamard_sandwich s target _ _ _ _ _ _ Hwf Hvalid
             (fun s' H' => z_body_block s' target H')
             (x_body_block s target Hwf));
      intros a b; apply cplx_eq; simpl.
    + transitivity ((1 / sqrt 2 * (1 / sqrt 2)) * (2 * creal b))%R; [ring|].
      rewrite Hk. field.
    + transitivity ((1 / sqrt 2 * (1 / sqrt 2)) * (2 * cimag b))%R; [ring|].
      rewrite Hk. field.
    + transitivity ((1 / sqrt 2 * (1 / sqrt 2)) * (2 * creal a))%R; [ring|].
      rewrite Hk. field.
    + transitivity ((1 / sqrt 2 * (1 / sqrt 2)) * (2 * cimag a))%R; [ring|].
      rewrite Hk. field.
  - unfold qstate_apply_z, qstate_apply_x.
    apply (hadamard_sandwich s target _ _ _ _ _ _ Hwf Hvalid
             (fun s' H' => x_body_block s' target H')
             (z_body_block s target Hwf));
      intros a b; apply cplx_eq; simpl.
    + transitivity ((1 / sqrt 2 * (1 / sqrt 2)) * (2 * creal a))%R; [ring|].
      rewrite Hk. field.
    + transitivity ((1 / sqrt 2 * (1 / sqrt 2)) * (2 * cimag a))%R; [ring|].
      rewrite Hk. field.
    + transitivity (- ((1 / sqrt 2 * (1 / sqrt 2)) * (2 * creal b)))%R; [ring|].
      rewrite Hk. field.
    + transitivity (- ((1 / sqrt 2 * (1 / sqrt 2)) * (2 * cimag b)))%R; [ring|].
      rewrite Hk. field.
Qed.

(** [hadamard_conjugation] at |000> and target 1. *)
Lemma hadamard_conjugation_witness :
  wf_state ket000 /\ is_valid_qubit_index (Some ket000) 1 = true /\
  qstate_apply_h
    (snd (qstate_apply_z (snd (qstate_apply_h (Some ket000) 1)) 1)) 1
  = qstate_apply_x (Some ket000) 1.
Proof.
  split; [exact wf_ket000|]. split; [reflexivity|].
  exact (proj1 (hadamard_conjugation ket000 1 wf_ket000 eq_refl)).
Defined.
